(** * The companion bridge of the diagnostics service

    A shallow embedding of [api/bridge_handler.go]: the HTTP handler [Bridge]
    that accepts the companion's long-lived POST, reads the handshake, spawns
    one writer goroutine per declared node and then decodes the stream of
    responses, routing each one to the sink of the request it answers.

    The handler and its goroutines are modelled as a transition system.  Each
    goroutine has a program counter that stops at the operations that can
    block (a receive from the request queue, a send to a response sink, a
    read of the request body); the code between two such points is one
    transition.  A goroutine that is blocked leaves the state as it is. *)

From stdpp Require Import gmap strings list fin_maps.

(** ** Go primitives used by the handler *)

Module Go.

(** [int] on the 64-bit targets the service is built for. *)
Definition int_wrap (z : Z) : Z := ((z + 2 ^ 63) `mod` 2 ^ 64 - 2 ^ 63)%Z.
Definition int_incr (z : Z) : Z := int_wrap (z + 1).

(** A [(value, error)] pair as Go functions return it. *)
Inductive result (A : Type) : Type :=
| Ok (a : A)
| Err (msg : string).
Global Arguments Ok {A} a.
Global Arguments Err {A} msg.

(** A buffered channel.  A sender finds room while fewer than [cap]
    elements wait in [buf]; an unbuffered channel whose receiver is ready
    behaves, for the sender, as one of capacity 1. *)
Record chan (A : Type) : Type := Chan {
  buf : list A;
  cap : nat;
  closed : bool
}.
Global Arguments Chan {A} buf cap closed.
Global Arguments buf {A} c.
Global Arguments cap {A} c.
Global Arguments closed {A} c.

Definition has_room {A} (c : chan A) : bool := length (buf c) <? cap c.
Global Arguments has_room : simpl never.

Inductive send_result (A : Type) : Type :=
| Sent (c : chan A)
| SendBlocks
| SendPanics.
Global Arguments Sent {A} c.
Global Arguments SendBlocks {A}.
Global Arguments SendPanics {A}.

(** [c <- x]: panics on a closed channel, blocks while the buffer is full. *)
Definition send {A} (x : A) (c : chan A) : send_result A :=
  if closed c then SendPanics
  else if has_room c then Sent (Chan (buf c ++ [x]) (cap c) false)
  else SendBlocks.

Inductive recv_result (A : Type) : Type :=
| Received (x : A) (c : chan A)
| RecvBlocks
| RecvClosed.
Global Arguments Received {A} x c.
Global Arguments RecvBlocks {A}.
Global Arguments RecvClosed {A}.

(** [x, ok := <-c]: a closed channel is drained before it reports closed. *)
Definition recv {A} (c : chan A) : recv_result A :=
  match buf c with
  | x :: rest => Received x (Chan rest (cap c) (closed c))
  | [] => if closed c then RecvClosed else RecvBlocks
  end.

End Go.

(** ** Data of the bridge *)

(** Pointers to [erigon_node.NodeRequest] objects, to [sessions.NodeSession]
    objects, and the identity of a response channel. *)
Abbreviation ptr := positive.
Abbreviation session := positive.
Abbreviation chan_id := positive.

(** Modelled from the spec: [erigon_node.Error] is declared outside the
    sources at hand; the spec gives an error a message. *)
Record Error : Type := { Message : string }.

(** Modelled from the spec: [erigon_node.Response] is declared outside the
    sources at hand; the spec gives a response chunk the id of its request,
    an optional payload, an optional error and a [last] flag. *)
Record Response : Type := {
  resp_Id : string;
  resp_Chunk : option string;
  resp_Error : option Error;
  resp_Last : bool
}.

(** Modelled from the spec: the type of [request.Request] is declared
    outside the sources at hand; the spec gives the request object an id, a
    method and parameters.  It is what is marshalled onto the response
    body. *)
Record RPCRequest : Type := {
  rpc_Id : string;
  rpc_Method : string;
  rpc_Params : list string
}.

(** Modelled from the spec: [erigon_node.NodeRequest] is declared outside the
    sources at hand; the handler uses its fields [Request], [Responses] (the
    channel the response chunks are sent on) and [Retries] (the retry
    counter, a Go [int] that the spec starts at 0). *)
Record NodeRequest : Type := {
  Request : RPCRequest;
  Responses : chan_id;
  Retries : Z
}.

(** Modelled from the spec: [sessions.NodeInfo] is declared outside the
    sources at hand; the handler reads its [Id], and the spec names a version
    and a client-declared name as its metadata. *)
Record NodeInfo : Type := {
  node_Id : string;
  node_Version : string;
  node_Name : string
}.

(** The anonymous [connectionInfo] struct of the handshake.  [Nodes] is a
    slice of pointers: a JSON [null] in the array decodes to [nil]. *)
Record ConnectionInfo : Type := {
  ci_Version : Z;
  ci_Sessions : list string;
  ci_Nodes : list (option NodeInfo)
}.

Global Instance Error_eq_dec : EqDecision Error.
Proof. solve_decision. Defined.
Global Instance Response_eq_dec : EqDecision Response.
Proof. solve_decision. Defined.
Global Instance RPCRequest_eq_dec : EqDecision RPCRequest.
Proof. solve_decision. Defined.
Global Instance NodeInfo_eq_dec : EqDecision NodeInfo.
Proof. solve_decision. Defined.

(** ** Collaborators of the handler *)

(** [sessions.CacheService] and the methods of [*sessions.NodeSession] that
    [Bridge] calls.  Package [sessions] is outside the sources at hand and is
    a parameter here: the handler holds a [cache] of some state type [C] and
    only ever calls these operations on it, with the arguments the source
    passes.  [FindNodeSession] receives the node id alone;
    [CreateNodeSession] receives the declared node-info and may fail. *)
Class CacheService (C : Type) : Type := {
  FindNodeSession : string → C → option session * C;
  CreateNodeSession : NodeInfo → C → Go.result session * C;
  AttachSessions : session → list string → C → C;
  Connect : session → string → C → C;
  Disconnect : session → C → C
}.

(** [http.ResponseWriter] with its [http.Flusher]: the status line is
    committed by the first [WriteHeader] (or the first [Write]); a later
    [WriteHeader] is superfluous and ignored.  [attempts] counts the calls of
    [Write], successful or not. *)
Record ResponseWriter : Type := {
  status : option Z;
  written : list string;
  flushes : nat;
  attempts : nat
}.

Definition rw_WriteHeader (code : Z) (w : ResponseWriter) : ResponseWriter :=
  match status w with
  | Some _ => w
  | None => {| status := Some code; written := written w;
               flushes := flushes w; attempts := attempts w |}
  end.

Definition rw_Flush (w : ResponseWriter) : ResponseWriter :=
  let w := rw_WriteHeader 200 w in
  {| status := status w; written := written w;
     flushes := S (flushes w); attempts := attempts w |}.

(** [w.Write(bytes)] under a transport that answers the [k]-th write with
    [transport k]: [None] for success, [Some e] for the error [e]. *)
Definition rw_Write (transport : nat → option string) (bytes : string)
    (w : ResponseWriter) : option string * ResponseWriter :=
  let w := rw_WriteHeader 200 w in
  match transport (attempts w) with
  | None => (None, {| status := status w; written := written w ++ [bytes];
                      flushes := flushes w; attempts := S (attempts w) |})
  | Some e => (Some e, {| status := status w; written := written w;
                          flushes := flushes w; attempts := S (attempts w) |})
  end.

Global Arguments rw_WriteHeader : simpl never.
Global Arguments rw_Flush : simpl never.
Global Arguments rw_Write : simpl never.

Definition StatusOK : Z := 200.
Definition StatusBadRequest : Z := 400.

(** Modelled from the spec: [internal.EncodeError] applied to an error made
    by [diagnostics.AsBadRequestErr] is missing from the sources; the spec
    has a bad request answered with HTTP 400, so the model sets that status
    and writes the message as the body. *)
Definition EncodeError_BadRequest (transport : nat → option string)
    (msg : string) (w : ResponseWriter) : ResponseWriter :=
  snd (rw_Write transport msg (rw_WriteHeader StatusBadRequest w)).

(** ** The request body *)

(** One JSON value on the request body, seen through the two calls that read
    it: [Decode(&connectionInfo)] and [Decode(&response)].  [None] is a
    decoding error.  Every call builds a decoder of its own; what a decoder
    has read ahead is not modelled, the body is the sequence of the results
    of the successive calls. *)
Record Frame : Type := {
  as_handshake : option ConnectionInfo;
  as_response : option Response
}.

(** Why reads fail once the frames are used up. *)
Inductive BodyEnd : Type :=
| BodyEOF
| RemoteClosed
| ContextCanceled.

Record Body : Type := {
  frames : list Frame;
  ended : option BodyEnd
}.

(** ** Goroutines *)

(** The writer goroutine of one node: at the [range] over the request queue,
    holding a dequeued request, blocked in a send to a response sink, or
    returned (after which the deferred [Disconnect] has run). *)
Inductive WriterPc : Type :=
| WRange
| WHolding (p : ptr)
| WSending (ch : chan_id) (resp : Response)
| WReturned.

Record Writer : Type := {
  w_session : session;
  w_pc : WriterPc
}.

(** The handler goroutine: at its first statement, at the [Decode] of the
    handshake, at the [Decode] of the read loop, in the send of a decoded
    response, returned, or aborted by a panic. *)
Inductive HandlerPc : Type :=
| HStart
| HHandshake
| HDecode
| HSending (ch : chan_id) (resp : Response)
| HReturned
| HPanicked.

(** What the goroutines did, oldest first. *)
Inductive Event : Type :=
| EvLog (line : string)
| EvSpawn (ns : session)
| EvDeliver (ch : chan_id) (resp : Response)
| EvRequeue (p : ptr)
| EvDrop (p : ptr)
| EvDisconnect (ns : session).

Global Instance Event_eq_dec : EqDecision Event.
Proof. solve_decision. Defined.
Global Instance WriterPc_eq_dec : EqDecision WriterPc.
Proof. solve_decision. Defined.
Global Instance HandlerPc_eq_dec : EqDecision HandlerPc.
Proof. solve_decision. Defined.

(** ** Reading the request body and making chunks *)

Inductive decoded (A : Type) : Type :=
| Decoded (r : option A) (b : Body)
| DecodeBlocks.
Global Arguments Decoded {A} r b.
Global Arguments DecodeBlocks {A}.

(** [json.NewDecoder(r.Body).Decode(&v)]: the next frame through the view
    of [v]'s type; an error once the body has ended; blocked while the body
    is open and nothing has arrived. *)
Definition Decode {A} (view : Frame → option A) (b : Body) : decoded A :=
  match frames b with
  | f :: rest => Decoded (view f) {| frames := rest; ended := ended b |}
  | [] => match ended b with
          | Some _ => Decoded None b
          | None => DecodeBlocks
          end
  end.

(** The chunk the writer makes up for a request it gives up on. *)
Definition error_chunk (msg : string) : Response :=
  {| resp_Id := ""; resp_Chunk := None;
     resp_Error := Some {| Message := msg |}; resp_Last := true |}.

(** [response.Last = true] when [response.Error != nil] (lines 143-145). *)
Definition promote (response : Response) : Response :=
  match resp_Error response with
  | Some _ => {| resp_Id := resp_Id response; resp_Chunk := resp_Chunk response;
                 resp_Error := resp_Error response; resp_Last := true |}
  | None => response
  end.

(** ** Who moves next *)

(** The handler goroutine, the [i]-th writer goroutine, or the operator side:
    a request put on the queue of a node session, a chunk taken off a sink. *)
Inductive Action : Type :=
| Handler
| WriterOf (i : nat)
| Enqueue (ns : session) (p : ptr)
| Take (ch : chan_id).

Global Instance Action_eq_dec : EqDecision Action.
Proof. solve_decision. Defined.

(** ** The state of one connection *)

Section Bridge.

Context {C : Type} `{!CacheService C}.

(** [json.Marshal] on an RPC request, and the transport under the response
    writer (see [rw_Write]). *)
Variable json_Marshal : RPCRequest → Go.result string.
Variable transport : nat → option string.

(** [cache] is [h.cache]; [RemoteAddr], [body] and [w] are the request and
    response of the call; [requestMap] is the correlator of the call;
    [queues] holds, under the address of every node session there is or
    will be, the channel in its [RequestCh] field; [heap] holds the
    [NodeRequest] objects and [sinks] their response channels.  All three
    are shared with the operator side.  [crashed] is set by a panic in a writer
    goroutine, which ends the process. *)
Record State : Type := {
  cache : C;
  RemoteAddr : string;
  body : Body;
  w : ResponseWriter;
  requestMap : gmap string ptr;
  queues : gmap session (Go.chan ptr);
  heap : gmap ptr NodeRequest;
  sinks : gmap chan_id (Go.chan Response);
  handler : HandlerPc;
  writers : list Writer;
  trace : list Event;
  crashed : bool
}.

Definition set_cache (x : C) (s : State) : State :=
  {| cache := x; RemoteAddr := RemoteAddr s; body := body s; w := w s;
     requestMap := requestMap s; queues := queues s; heap := heap s;
     sinks := sinks s; handler := handler s; writers := writers s;
     trace := trace s; crashed := crashed s |}.
Definition set_body (x : Body) (s : State) : State :=
  {| cache := cache s; RemoteAddr := RemoteAddr s; body := x; w := w s;
     requestMap := requestMap s; queues := queues s; heap := heap s;
     sinks := sinks s; handler := handler s; writers := writers s;
     trace := trace s; crashed := crashed s |}.
Definition set_w (x : ResponseWriter) (s : State) : State :=
  {| cache := cache s; RemoteAddr := RemoteAddr s; body := body s; w := x;
     requestMap := requestMap s; queues := queues s; heap := heap s;
     sinks := sinks s; handler := handler s; writers := writers s;
     trace := trace s; crashed := crashed s |}.
Definition set_requestMap (x : gmap string ptr) (s : State) : State :=
  {| cache := cache s; RemoteAddr := RemoteAddr s; body := body s; w := w s;
     requestMap := x; queues := queues s; heap := heap s;
     sinks := sinks s; handler := handler s; writers := writers s;
     trace := trace s; crashed := crashed s |}.
Definition set_queues (x : gmap session (Go.chan ptr)) (s : State) : State :=
  {| cache := cache s; RemoteAddr := RemoteAddr s; body := body s; w := w s;
     requestMap := requestMap s; queues := x; heap := heap s;
     sinks := sinks s; handler := handler s; writers := writers s;
     trace := trace s; crashed := crashed s |}.
Definition set_heap (x : gmap ptr NodeRequest) (s : State) : State :=
  {| cache := cache s; RemoteAddr := RemoteAddr s; body := body s; w := w s;
     requestMap := requestMap s; queues := queues s; heap := x;
     sinks := sinks s; handler := handler s; writers := writers s;
     trace := trace s; crashed := crashed s |}.
Definition set_sinks (x : gmap chan_id (Go.chan Response)) (s : State) : State :=
  {| cache := cache s; RemoteAddr := RemoteAddr s; body := body s; w := w s;
     requestMap := requestMap s; queues := queues s; heap := heap s;
     sinks := x; handler := handler s; writers := writers s;
     trace := trace s; crashed := crashed s |}.
Definition set_handler (x : HandlerPc) (s : State) : State :=
  {| cache := cache s; RemoteAddr := RemoteAddr s; body := body s; w := w s;
     requestMap := requestMap s; queues := queues s; heap := heap s;
     sinks := sinks s; handler := x; writers := writers s;
     trace := trace s; crashed := crashed s |}.
Definition set_writers (x : list Writer) (s : State) : State :=
  {| cache := cache s; RemoteAddr := RemoteAddr s; body := body s; w := w s;
     requestMap := requestMap s; queues := queues s; heap := heap s;
     sinks := sinks s; handler := handler s; writers := x;
     trace := trace s; crashed := crashed s |}.
Definition set_trace (x : list Event) (s : State) : State :=
  {| cache := cache s; RemoteAddr := RemoteAddr s; body := body s; w := w s;
     requestMap := requestMap s; queues := queues s; heap := heap s;
     sinks := sinks s; handler := handler s; writers := writers s;
     trace := x; crashed := crashed s |}.
Definition set_crashed (x : bool) (s : State) : State :=
  {| cache := cache s; RemoteAddr := RemoteAddr s; body := body s; w := w s;
     requestMap := requestMap s; queues := queues s; heap := heap s;
     sinks := sinks s; handler := handler s; writers := writers s;
     trace := trace s; crashed := x |}.

Definition emit (e : Event) (s : State) : State :=
  set_trace (trace s ++ [e]) s.

(** [go func() { ... }()] for the node session [ns]. *)
Definition spawn (ns : session) (s : State) : State :=
  emit (EvSpawn ns)
    (set_writers (writers s ++ [{| w_session := ns; w_pc := WRange |}]) s).

Definition set_writer_pc (i : nat) (ns : session) (pc : WriterPc)
    (s : State) : State :=
  set_writers (<[i := {| w_session := ns; w_pc := pc |}]> (writers s)) s.

(** ** The handler goroutine *)

(** [return] from [Bridge]: the deferred [r.Body.Close()] and [cancel()]
    run.  Nothing in the handler waits on the cancelled context. *)
Definition Bridge_return (s : State) : State := set_handler HReturned s.

(** A panic in the handler goroutine: [net/http] recovers it and drops the
    connection. *)
Definition Bridge_panic (s : State) : State := set_handler HPanicked s.

(** Lines 38-39: the status line is sent before anything is read. *)
Definition Bridge_start (s : State) : State :=
  set_handler HHandshake
    (set_w (rw_Flush (rw_WriteHeader StatusOK (w s))) s).

(** Lines 58-125: one round of the loop per declared node. *)
Fixpoint Bridge_nodes (sess : list string) (nodes : list (option NodeInfo))
    (s : State) : State :=
  match nodes with
  | [] => set_handler HDecode s
  | None :: _ => Bridge_panic s
  | Some node :: rest =>
      let '(found, c1) := FindNodeSession (node_Id node) (cache s) in
      let '(nodeSession, c2) :=
        match found with
        | Some ns => (Go.Ok ns, c1)
        | None => CreateNodeSession node c1
        end in
      match nodeSession with
      | Go.Err e =>
          Bridge_return
            (set_w (EncodeError_BadRequest transport
                      ("Error creating node session: " +:+ e) (w s))
               (emit (EvLog ("Error creating node session: " +:+ e))
                  (set_cache c2 s)))
      | Go.Ok ns =>
          let c3 := Connect ns (RemoteAddr s) (AttachSessions ns sess c2) in
          Bridge_nodes sess rest (spawn ns (set_cache c3 s))
      end
  end.

(** Lines 41-125: the handshake is decoded, then the nodes are connected. *)
Definition Bridge_handshake (s : State) : State :=
  match Decode as_handshake (body s) with
  | DecodeBlocks => s
  | Decoded None b =>
      Bridge_return
        (set_w (EncodeError_BadRequest transport
                  "Error reading connection info" (w s))
           (emit (EvLog "Error reading connection info") (set_body b s)))
  | Decoded (Some connectionInfo) b =>
      Bridge_nodes (ci_Sessions connectionInfo) (ci_Nodes connectionInfo)
        (set_requestMap ∅ (set_body b s))
  end.

(** Lines 127-145: one response is decoded and looked up. *)
Definition Bridge_decode (s : State) : State :=
  match Decode as_response (body s) with
  | DecodeBlocks => s
  | Decoded None b => emit (EvLog "Reading response") (set_body b s)
  | Decoded (Some response) b =>
      let s := set_body b s in
      match requestMap s !! resp_Id response with
      | None => s
      | Some p =>
          match heap s !! p with
          | None => Bridge_panic s
          | Some request =>
              set_handler (HSending (Responses request) (promote response)) s
          end
      end
  end.

(** Lines 147-153: the send to the sink, and the removal of the entry of a
    last chunk once the send has gone through. *)
Definition Bridge_deliver (ch : chan_id) (response : Response)
    (s : State) : State :=
  match sinks s !! ch with
  | None => s
  | Some c =>
      match Go.send response c with
      | Go.SendBlocks => s
      | Go.SendPanics => Bridge_panic s
      | Go.Sent c' =>
          let s := emit (EvDeliver ch response)
                     (set_sinks (<[ch := c']> (sinks s)) s) in
          let s := if resp_Last response
                   then set_requestMap
                          (delete (resp_Id response) (requestMap s)) s
                   else s in
          set_handler HDecode s
      end
  end.

Definition Bridge (s : State) : State :=
  match handler s with
  | HStart => Bridge_start s
  | HHandshake => Bridge_handshake s
  | HDecode => Bridge_decode s
  | HSending ch response => Bridge_deliver ch response s
  | HReturned => s
  | HPanicked => s
  end.

(** ** The writer goroutine of a node (lines 76-124) *)

(** A panic in a writer goroutine: the deferred [Disconnect] runs while the
    stack unwinds, then the process dies. *)
Definition writer_panic (ns : session) (s : State) : State :=
  set_crashed true
    (emit (EvDisconnect ns) (set_cache (Disconnect ns (cache s)) s)).

(** [for request := range nodeSession.RequestCh]: the next request, or the
    end of the loop on a closed and drained queue, after which the deferred
    [Disconnect] runs.  A nil channel blocks for ever. *)
Definition writer_range (i : nat) (ns : session) (s : State) : State :=
  match queues s !! ns with
  | None => s
  | Some q =>
      match Go.recv q with
      | Go.RecvBlocks => s
      | Go.RecvClosed =>
          set_writer_pc i ns WReturned
            (emit (EvDisconnect ns) (set_cache (Disconnect ns (cache s)) s))
      | Go.Received p q' =>
          set_writer_pc i ns (WHolding p)
            (set_queues (<[ns := q']> (queues s)) s)
      end
  end.

(** [select { case nodeSession.RequestCh <- request: default: }]. *)
Definition writer_requeue (i : nat) (ns : session) (p : ptr)
    (s : State) : State :=
  match queues s !! ns with
  | None => set_writer_pc i ns WRange (emit (EvDrop p) s)
  | Some q =>
      match Go.send p q with
      | Go.Sent q' =>
          set_writer_pc i ns WRange
            (emit (EvRequeue p) (set_queues (<[ns := q']> (queues s)) s))
      | Go.SendBlocks => set_writer_pc i ns WRange (emit (EvDrop p) s)
      | Go.SendPanics => writer_panic ns s
      end
  end.

(** Lines 80-122: the body of the loop for the dequeued request [p], up to
    its [continue] or to the send it may block in. *)
Definition writer_body (i : nat) (ns : session) (p : ptr)
    (s : State) : State :=
  match heap s !! p with
  | None => writer_panic ns s
  | Some request =>
      let rpcRequest := Request request in
      match json_Marshal rpcRequest with
      | Go.Err e =>
          set_writer_pc i ns
            (WSending (Responses request)
               (error_chunk ("Failed to marshal request: " +:+ e))) s
      | Go.Ok bytes =>
          let s := emit (EvLog ("Sending request " +:+ bytes)) s in
          let s := set_requestMap
                     (<[rpc_Id rpcRequest := p]> (requestMap s)) s in
          let '(err, w') := rw_Write transport bytes (w s) in
          let s := set_w w' s in
          match err with
          | Some e =>
              let s := set_requestMap
                         (delete (rpc_Id rpcRequest) (requestMap s)) s in
              let retries := Go.int_incr (Retries request) in
              let s := set_heap
                         (<[p := {| Request := Request request;
                                    Responses := Responses request;
                                    Retries := retries |}]> (heap s)) s in
              if (retries <? 15)%Z
              then writer_requeue i ns p s
              else set_writer_pc i ns
                     (WSending (Responses request)
                        (error_chunk
                           ("Failed to write metrics request: " +:+ e))) s
          | None => set_writer_pc i ns WRange (set_w (rw_Flush (w s)) s)
          end
      end
  end.

(** [request.Responses <- &erigon_node.Response{...}; continue]. *)
Definition writer_send (i : nat) (ns : session) (ch : chan_id)
    (response : Response) (s : State) : State :=
  match sinks s !! ch with
  | None => s
  | Some c =>
      match Go.send response c with
      | Go.SendBlocks => s
      | Go.SendPanics => writer_panic ns s
      | Go.Sent c' =>
          set_writer_pc i ns WRange
            (emit (EvDeliver ch response)
               (set_sinks (<[ch := c']> (sinks s)) s))
      end
  end.

Definition writer (i : nat) (s : State) : State :=
  match writers s !! i with
  | None => s
  | Some wr =>
      let ns := w_session wr in
      match w_pc wr with
      | WRange => writer_range i ns s
      | WHolding p => writer_body i ns p s
      | WSending ch response => writer_send i ns ch response s
      | WReturned => s
      end
  end.

(** ** The operator side *)

(** Modelled from the spec: the facade's enqueue-request is missing from
    the sources; it places the request on the queue of the node session
    when there is room and gives up otherwise. *)
Definition enqueue_request (ns : session) (p : ptr) (s : State) : State :=
  match queues s !! ns with
  | None => s
  | Some q =>
      match Go.send p q with
      | Go.Sent q' => set_queues (<[ns := q']> (queues s)) s
      | _ => s
      end
  end.

(** Modelled from the spec: the reader of a response stream is missing
    from the sources; it takes the next chunk off the sink. *)
Definition take_chunk (ch : chan_id) (s : State) : State :=
  match sinks s !! ch with
  | None => s
  | Some c =>
      match Go.recv c with
      | Go.Received _ c' => set_sinks (<[ch := c']> (sinks s)) s
      | _ => s
      end
  end.

(** ** Interleavings *)

Definition step (a : Action) (s : State) : State :=
  if crashed s then s
  else match a with
       | Handler => Bridge s
       | WriterOf i => writer i s
       | Enqueue ns p => enqueue_request ns p s
       | Take ch => take_chunk ch s
       end.

Fixpoint run (sched : list Action) (s : State) : State :=
  match sched with
  | [] => s
  | a :: rest => run rest (step a s)
  end.

End Bridge.

Arguments State C : clear implicits.

(** ** A registry of node sessions *)

Module Registry.

(** Modelled from the spec: the node record of package [sessions] is
    missing from the sources; it has the last-known metadata, the ids of
    the sessions it is attached to, a connection state and the remote
    address recorded at connect. *)
Record NodeSession : Type := {
  Info : NodeInfo;
  Attached : list string;
  Connected : bool;
  Remote : string
}.

(** Modelled from the spec: the registry of package [sessions] is missing
    from the sources; it is a directory from node id to node record. *)
Record t : Type := {
  by_id : gmap string session;
  objects : gmap session NodeSession;
  fresh : session
}.

Definition empty : t := {| by_id := ∅; objects := ∅; fresh := 1%positive |}.

Definition update (ns : session) (f : NodeSession → NodeSession) (c : t) : t :=
  {| by_id := by_id c; objects := alter f ns (objects c); fresh := fresh c |}.

(** Modelled from the spec: find is keyed on the node id. *)
Definition find (id : string) (c : t) : option session * t :=
  (by_id c !! id, c).

(** Modelled from the spec: on first sight the metadata is recorded; an
    empty id is refused as a bad node. *)
Definition create (node : NodeInfo) (c : t) : Go.result session * t :=
  if decide (node_Id node = "") then (Go.Err "bad-node", c)
  else (Go.Ok (fresh c),
        {| by_id := <[node_Id node := fresh c]> (by_id c);
           objects := <[fresh c := {| Info := node; Attached := [];
                                      Connected := false; Remote := "" |}]>
                        (objects c);
           fresh := Pos.succ (fresh c) |}).

(** Modelled from the spec: attach-sessions is the idempotent union of the
    incoming ids onto the attachment set. *)
Definition attach (ns : session) (ids : list string) (c : t) : t :=
  update ns (λ n, {| Info := Info n;
                     Attached := list_union (Attached n) ids;
                     Connected := Connected n; Remote := Remote n |}) c.

(** Modelled from the spec: connect marks the node connected and records
    the address. *)
Definition connect (ns : session) (addr : string) (c : t) : t :=
  update ns (λ n, {| Info := Info n; Attached := Attached n;
                     Connected := true; Remote := addr |}) c.

(** Modelled from the spec: disconnect marks the node disconnected.  The
    correlator it would drain is the [requestMap] local to [Bridge], which
    no method of the node session can reach. *)
Definition disconnect (ns : session) (c : t) : t :=
  update ns (λ n, {| Info := Info n; Attached := Attached n;
                     Connected := false; Remote := Remote n |}) c.

#[global] Instance service : CacheService t := {|
  FindNodeSession := find;
  CreateNodeSession := create;
  AttachSessions := attach;
  Connect := connect;
  Disconnect := disconnect
|}.

End Registry.

(** ** Observations on a run *)

(** The chunks sent to the sink [ch], oldest first. *)
Definition delivered (ch : chan_id) (t : list Event) : list Response :=
  omap (λ e, match e with
             | EvDeliver ch' r => if decide (ch' = ch) then Some r else None
             | _ => None
             end) t.

Global Arguments delivered : simpl never.

(** How often the writer put [p] back on its queue. *)
Definition requeues (p : ptr) (t : list Event) : nat :=
  length (filter (λ e, e = EvRequeue p) t).

Global Arguments requeues : simpl never.

(** How often the handler went round its read loop on a failed [Decode]. *)
Definition handler_moves (sched : list Action) : nat :=
  length (filter (λ a, a = Handler) sched).

Definition is_enqueue (a : Action) : bool :=
  match a with
  | Enqueue _ _ => true
  | _ => false
  end.

Definition is_enqueue_of (p : ptr) (a : Action) : bool :=
  match a with
  | Enqueue _ p' => bool_decide (p' = p)
  | _ => false
  end.

(** The stream the spec promises the sink of the request with id [i]: the
    chunks the companion sent under that id, in the order they arrived, up
    to the first terminal one; a chunk that bears an error is terminal. *)
Fixpoint chunks_for (i : string) (fs : list Frame) : list Response :=
  match fs with
  | [] => []
  | f :: rest =>
      match as_response f with
      | Some r =>
          if decide (resp_Id r = i)
          then promote r :: (if resp_Last (promote r) then []
                             else chunks_for i rest)
          else chunks_for i rest
      | None => chunks_for i rest
      end
  end.

Definition reader_move (a : Action) : bool :=
  match a with
  | Handler | Take _ => true
  | _ => false
  end.

(** What a writer has to do with a request, and where a request is: on the
    queue of a node session, held by a writer, with a writer that is
    sending its final error chunk, ended by that chunk, or dropped. *)
Inductive engagement : Type :=
| Free
| Holding
| Sending (r : Response).

Inductive place : Type :=
| Queued (ns : session)
| Held (i : nat)
| Failing (i : nat) (e : string)
| Failed (e : string)
| Lost.

Global Instance engagement_eq_dec : EqDecision engagement.
Proof. solve_decision. Defined.

Section Tracking.

Context {C : Type}.

(** No goroutine has the request [p] or a chunk for its sink [ch] in
    hand: [p] is on no queue, held by no writer and under no id of the
    correlator, no send to [ch] is under way, and no other request
    shares the sink. *)
Definition orphaned (p : ptr) (ch : chan_id) (s : State C) : Prop :=
  (∀ ns q, queues s !! ns = Some q → p ∉ Go.buf q)
  ∧ (∀ j wr, writers s !! j = Some wr →
       w_pc wr ≠ WHolding p ∧ ∀ r, w_pc wr ≠ WSending ch r)
  ∧ (∀ id, requestMap s !! id ≠ Some p)
  ∧ (∀ r, handler s ≠ HSending ch r)
  ∧ (∀ p' r', heap s !! p' = Some r' → Responses r' = ch → p' = p).

(** The same, but for the writer [i], which holds [p]. *)
Definition held_only_by (i : nat) (p : ptr) (ch : chan_id)
    (s : State C) : Prop :=
  (∀ ns q, queues s !! ns = Some q → p ∉ Go.buf q)
  ∧ (∀ j wr, writers s !! j = Some wr →
       (w_pc wr = WHolding p → j = i) ∧ ∀ r, w_pc wr ≠ WSending ch r)
  ∧ (∀ id, requestMap s !! id ≠ Some p)
  ∧ (∀ r, handler s ≠ HSending ch r)
  ∧ (∀ p' r', heap s !! p' = Some r' → Responses r' = ch → p' = p).

(** The state in which the writer decides between another try and giving
    up: the write of [bytes] has failed, the entry is out of the
    correlator again and the retry counter is one up. *)
Definition after_failed_write (s : State C) (p : ptr)
    (request : NodeRequest) (bytes : string) : State C :=
  set_heap
    (<[p := {| Request := Request request;
               Responses := Responses request;
               Retries := Go.int_incr (Retries request) |}]> (heap s))
    (set_requestMap (delete (rpc_Id (Request request)) (requestMap s))
       (set_w {| status := status (rw_WriteHeader 200 (w s));
                 written := written (w s);
                 flushes := flushes (w s);
                 attempts := S (attempts (w s)) |}
          (emit (EvLog ("Sending request " +:+ bytes)) s))).

(** The correlator sends the chunks with id [i] to the sink [ch]. *)
Definition routes (i : string) (ch : chan_id) (s : State C) : bool :=
  match requestMap s !! i with
  | Some p =>
      match heap s !! p with
      | Some r => bool_decide (Responses r = ch)
      | None => false
      end
  | None => false
  end.

(** No other id of the correlator leads to the sink [ch]. *)
Definition sole_route (i : string) (ch : chan_id) (s : State C) : Prop :=
  ∀ j p r,
    requestMap s !! j = Some p → heap s !! p = Some r →
    Responses r = ch → j = i.

(** The handler is in its read loop, and the chunk it may be sending goes
    to the sink [ch] exactly when it is one the correlator routes there
    under the id [i]. *)
Definition in_read_loop (i : string) (ch : chan_id) (s : State C) : Prop :=
  match handler s with
  | HStart | HHandshake => False
  | HSending ch' r =>
      (ch' = ch → resp_Id r = i ∧ routes i ch s = true)
      ∧ (ch' ≠ ch → resp_Id r = i → routes i ch s = false)
  | _ => True
  end.

(** What the sink [ch] is still to get for the id [i]: the chunk the
    handler is sending, then what the frames not yet decoded hold. *)
Definition still_expected (i : string) (ch : chan_id)
    (s : State C) : list Response :=
  let later := if routes i ch s then chunks_for i (frames (body s))
               else [] in
  match handler s with
  | HDecode => later
  | HSending ch' r =>
      if decide (ch' = ch)
      then r :: (if resp_Last r then [] else later)
      else later
  | _ => []
  end.

(** *** Where a request is *)

(** How often [p] waits on the queue of the node session [ns]. *)
Definition queued_at (p : ptr) (ns : session) (s : State C) : nat :=
  match queues s !! ns with
  | Some q => length (filter (λ x, x = p) (Go.buf q))
  | None => 0
  end.

(** What the [j]-th writer has to do with the request [p] and its sink
    [ch]: nothing, it holds [p], or it is sending a chunk to [ch]. *)
Definition engagement_of (p : ptr) (ch : chan_id)
    (pc : WriterPc) : engagement :=
  match pc with
  | WHolding p' => if decide (p' = p) then Holding else Free
  | WSending ch' r => if decide (ch' = ch) then Sending r else Free
  | _ => Free
  end.

Definition engaged (p : ptr) (ch : chan_id) (j : nat)
    (s : State C) : engagement :=
  match writers s !! j with
  | Some wr => engagement_of p ch (w_pc wr)
  | None => Free
  end.

(** The move is one of a writer on [p] or on a chunk for [ch], or it puts
    [p] on a queue. *)
Definition touches (p : ptr) (ch : chan_id) (a : Action)
    (s : State C) : bool :=
  match a with
  | WriterOf i =>
      match writers s !! i with
      | Some wr =>
          match w_pc wr with
          | WRange =>
              match queues s !! w_session wr with
              | Some q => bool_decide (head (Go.buf q) = Some p)
              | None => false
              end
          | WHolding p' => bool_decide (p' = p)
          | WSending ch' _ => bool_decide (ch' = ch)
          | WReturned => false
          end
      | None => false
      end
  | Enqueue _ p' => bool_decide (p' = p)
  | _ => false
  end.

(** No other request shares the sink [ch] of [p]. *)
Definition heap_owner (p : ptr) (ch : chan_id) (s : State C) : Prop :=
  ∀ p' r', heap s !! p' = Some r' → Responses r' = ch → p' = p.

(** No other request bears the id [i] of [p]. *)
Definition id_owner (p : ptr) (i : string) (s : State C) : Prop :=
  ∀ p' r', heap s !! p' = Some r' → rpc_Id (Request r') = i → p' = p.

(** The correlator and the read loop have nothing of [p], and no other
    request shares its sink. *)
Definition standing (p : ptr) (ch : chan_id) (s : State C) : Prop :=
  (∀ id, requestMap s !! id ≠ Some p)
  ∧ (∀ r, handler s ≠ HSending ch r)
  ∧ heap_owner p ch s.

(** What a move of a writer does to the correlator and the heap: nothing,
    or it puts the request [p'] it holds under its id or takes that id
    out, and it may change the retry counter of [p']. *)
Definition writer_effect (i : nat) (s s' : State C) : Prop :=
  (requestMap s' = requestMap s ∧ heap s' = heap s)
  ∨ ∃ ns p' r',
      writers s !! i = Some {| w_session := ns; w_pc := WHolding p' |}
      ∧ heap s !! p' = Some r'
      ∧ (requestMap s' = <[rpc_Id (Request r') := p']> (requestMap s)
         ∨ requestMap s' = delete (rpc_Id (Request r')) (requestMap s))
      ∧ (heap s' = heap s
         ∨ ∃ z, heap s'
                = <[p' := {| Request := Request r';
                             Responses := Responses r';
                             Retries := z |}]> (heap s)).

(** The chunk that ends a request whose write has failed for good. *)
Definition send_failed (e : string) : Response :=
  error_chunk ("Failed to write metrics request: " +:+ e).

(** No writer has [p] on its queue or in hand, and none is sending to
    [ch]. *)
Definition away_from_writers (p : ptr) (ch : chan_id)
    (s : State C) : Prop :=
  (∀ ns, queued_at p ns s = 0)
  ∧ (∀ j, engaged p ch j s = Free).

(** The request is at exactly one place. *)
Definition at_place (p : ptr) (ch : chan_id) (pl : place)
    (s : State C) : Prop :=
  match pl with
  | Queued ns0 =>
      (∀ ns, queued_at p ns s = if decide (ns = ns0) then 1 else 0)
      ∧ (∀ j, engaged p ch j s = Free)
  | Held i =>
      (∀ ns, queued_at p ns s = 0)
      ∧ (∀ j, engaged p ch j s = if decide (j = i) then Holding else Free)
  | Failing i e =>
      (∀ ns, queued_at p ns s = 0)
      ∧ (∀ j, engaged p ch j s
              = if decide (j = i) then Sending (send_failed e) else Free)
  | Failed _ | Lost => away_from_writers p ch s
  end.

(** The retry counter [r], the number [n] of re-enqueues and the chunks
    [D] sent to the sink since the request was first dequeued, by place. *)
Definition accounts (pl : place) (r : Z) (n : nat)
    (D : list Response) : Prop :=
  match pl with
  | Queued _ | Held _ | Lost =>
      (0 ≤ r ≤ 14)%Z ∧ (Z.of_nat n ≤ r)%Z ∧ D = []
  | Failing _ _ =>
      r = 15%Z ∧ n ≤ 14 ∧ D = []
  | Failed e =>
      r = 15%Z ∧ n ≤ 14 ∧ D = [send_failed e]
  end.

(** Two states show the same of the request [p] and its sink [ch]. *)
Definition same_view (p : ptr) (ch : chan_id) (s s' : State C) : Prop :=
  heap s' !! p = heap s !! p
  ∧ requeues p (trace s') = requeues p (trace s)
  ∧ delivered ch (trace s') = delivered ch (trace s)
  ∧ (∀ ns, queued_at p ns s' = queued_at p ns s)
  ∧ (∀ j, engaged p ch j s' = engaged p ch j s).

(** The bookkeeping of the request [p], which carries the RPC request
    [rq] and answers on the sink [ch], from a state with [n0] re-enqueues
    of [p] and the chunks [D0] on the sink. *)
Definition tracked (rq : RPCRequest) (p : ptr) (ch : chan_id) (n0 : nat)
    (D0 : list Response) (s : State C) : Prop :=
  standing p ch s
  ∧ ∃ pl r n D,
      heap s !! p = Some {| Request := rq; Responses := ch; Retries := r |}
      ∧ requeues p (trace s) = n0 + n
      ∧ delivered ch (trace s) = D0 ++ D
      ∧ at_place p ch pl s
      ∧ accounts pl r n D.

(** What the order of the chunks of the request [p], registered under the
    id [i] and answering on the sink [ch], rests on: the correlator leads
    to [ch] under [i] only, the handler is in its read loop, no other
    request shares the sink or the id, and the writers are done with
    [p]. *)
Definition stream_inv (p : ptr) (i : string) (ch : chan_id)
    (s : State C) : Prop :=
  sole_route i ch s
  ∧ in_read_loop i ch s
  ∧ heap_owner p ch s
  ∧ id_owner p i s
  ∧ away_from_writers p ch s.

End Tracking.

(** ** Concrete connections *)

Module Scenario.

(** A stand-in for [json.Marshal]: the parameter ["<chan>"] is a value
    that JSON cannot encode. *)
Definition json (r : RPCRequest) : Go.result string :=
  if decide ("<chan>" ∈ rpc_Params r)
  then Go.Err "json: unsupported type: chan int"
  else Go.Ok ("{id:" +:+ rpc_Id r +:+ ",method:" +:+ rpc_Method r +:+ "}").

(** A transport that accepts every write, and one that fails every write. *)
Definition up : nat → option string := λ _, None.
Definition down : nat → option string := λ _, Some "broken pipe".

Definition nA : NodeInfo :=
  {| node_Id := "nA"; node_Version := "2.50"; node_Name := "alpha" |}.

(** The same node as a later handshake declares it. *)
Definition nA' : NodeInfo :=
  {| node_Id := "nA"; node_Version := "2.51"; node_Name := "beta" |}.

(** The registry after a first connection of node [nA]. *)
Definition known : Registry.t :=
  Registry.connect 1 "10.0.0.7:4040"
    (Registry.attach 1 ["10000001"] (snd (Registry.create nA Registry.empty))).

Definition hello : Frame :=
  {| as_handshake := Some {| ci_Version := 1; ci_Sessions := ["10000001"];
                             ci_Nodes := [Some nA] |};
     as_response := None |}.

Definition garbage : Frame :=
  {| as_handshake := None; as_response := None |}.

Definition chunk (id : string) (payload : string) (last : bool) : Frame :=
  {| as_handshake := None;
     as_response := Some {| resp_Id := id; resp_Chunk := Some payload;
                            resp_Error := None; resp_Last := last |} |}.

Definition failure (id : string) (msg : string) : Frame :=
  {| as_handshake := None;
     as_response := Some {| resp_Id := id; resp_Chunk := None;
                            resp_Error := Some {| Message := msg |};
                            resp_Last := false |} |}.

Definition rq (id : string) (ch : chan_id) : NodeRequest :=
  {| Request := {| rpc_Id := id; rpc_Method := "cmd_line";
                   rpc_Params := [] |};
     Responses := ch; Retries := 0 |}.

Definition rq_bad (id : string) (ch : chan_id) : NodeRequest :=
  {| Request := {| rpc_Id := id; rpc_Method := "cmd_line";
                   rpc_Params := ["<chan>"] |};
     Responses := ch; Retries := 0 |}.

Definition sink (l : list Response) (n : nat) : Go.chan Response :=
  Go.Chan l n false.

(** A connection that has just been accepted. *)
Definition accepted (b : Body) : State Registry.t :=
  {| cache := Registry.empty; RemoteAddr := "10.0.0.7:4040"; body := b;
     w := {| status := None; written := []; flushes := 0; attempts := 0 |};
     requestMap := ∅;
     queues := {[ 1%positive := Go.Chan [] 16 false ]};
     heap := ∅; sinks := ∅; handler := HStart; writers := [];
     trace := []; crashed := false |}.

(** A connection after the handshake of node [nA]: its writer waits on the
    queue [q] and the handler is in its read loop. *)
Definition serving (b : Body) (q : Go.chan ptr) : State Registry.t :=
  {| cache := known; RemoteAddr := "10.0.0.7:4040"; body := b;
     w := {| status := Some 200%Z; written := []; flushes := 1;
             attempts := 0 |};
     requestMap := ∅;
     queues := {[ 1%positive := q ]};
     heap := ∅; sinks := ∅; handler := HDecode;
     writers := [ {| w_session := 1%positive; w_pc := WRange |} ];
     trace := [EvSpawn 1%positive]; crashed := false |}.

Definition open_body (fs : list Frame) : Body :=
  {| frames := fs; ended := None |}.

(** The writer holds request 1, which answers on sink 11. *)
Definition holding (r1 : NodeRequest) (q : Go.chan ptr) : State Registry.t :=
  set_writers [ {| w_session := 1%positive; w_pc := WHolding 1%positive |} ]
    (set_heap {[ 1%positive := r1 ]}
       (set_sinks {[ 11%positive := sink [] 4 ]}
          (serving (open_body []) q))).

(** Two requests are written and in the correlator; the companion's
    answers are on the request body. *)
Definition answering (fs : list Frame) (c11 c12 : Go.chan Response)
    : State Registry.t :=
  set_requestMap {[ "q1" := 1%positive; "q2" := 2%positive ]}
    (set_heap {[ 1%positive := rq "q1" 11; 2%positive := rq "q2" 12 ]}
       (set_sinks {[ 11%positive := c11; 12%positive := c12 ]}
          (serving (open_body fs) (Go.Chan [] 16 false)))).

(** A response arrives under an id the correlator does not have. *)
Definition stray : State Registry.t :=
  serving (open_body [chunk "zz" "x" true]) (Go.Chan [] 16 false).

(** The companion answers request [q1] with an error, [last] unset. *)
Definition failing_answer : State Registry.t :=
  answering [failure "q1" "boom"] (sink [] 4) (sink [] 4).

(** The writer holds a request that cannot be marshalled; request 2 waits
    on the queue. *)
Definition unmarshallable : State Registry.t :=
  set_heap {[ 1%positive := rq_bad "q1" 11; 2%positive := rq "q2" 12 ]}
    (holding (rq_bad "q1" 11) (Go.Chan [2%positive] 16 false)).

(** The writer holds request 1; meanwhile request 2 has filled the queue,
    which has room for one. *)
Definition queue_full : State Registry.t :=
  set_heap {[ 1%positive := rq "q1" 11; 2%positive := rq "q2" 12 ]}
    (set_sinks {[ 11%positive := sink [] 4; 12%positive := sink [] 4 ]}
       (holding (rq "q1" 11) (Go.Chan [2%positive] 1 false))).

(** A chunk of request [q1] waits for room on its sink, which holds one
    unread chunk and has room for one; the last chunk of request [q2] is
    next on the request body, and its sink is empty. *)
Definition first_chunk : Response :=
  {| resp_Id := "q1"; resp_Chunk := Some "a1"; resp_Error := None;
     resp_Last := false |}.

Definition second_chunk : Response :=
  {| resp_Id := "q1"; resp_Chunk := Some "a2"; resp_Error := None;
     resp_Last := false |}.

Definition slow_reader : State Registry.t :=
  set_handler (HSending 11 second_chunk)
    (answering [chunk "q2" "b1" true] (sink [first_chunk] 1) (sink [] 4)).

(** The request body ends right after the handshake. *)
Definition body_over (e : BodyEnd) : State Registry.t :=
  serving {| frames := []; ended := Some e |} (Go.Chan [] 16 false).

(** The two requests are answered chunk by chunk, interleaved. *)
Definition interleaved : State Registry.t :=
  answering [chunk "q2" "b1" false; chunk "q1" "a1" false;
             chunk "q2" "b2" true; chunk "q1" "a2" true]
    (sink [] 4) (sink [] 4).

(** The writer holds request 1 and nothing else is under way. *)
Definition first_try : State Registry.t :=
  holding (rq "q1" 11) (Go.Chan [] 16 false).

End Scenario.

(** ** Three claims as the spec words them *)

(** "For every request ever enqueued through a node session, exactly one
    terminal event is eventually emitted to its sink", also when a write
    fails and the queue is full: from a state in which a writer holds a
    request whose sink is still empty, some continuation brings exactly
    one terminal chunk onto that sink. *)
Definition every_request_ends : Prop :=
  ∀ json transport (s : State Registry.t) i ns p request,
    crashed s = false →
    writers s !! i = Some {| w_session := ns; w_pc := WHolding p |} →
    heap s !! p = Some request →
    held_only_by i p (Responses request) s →
    delivered (Responses request) (trace s) = [] →
    ∃ sched,
      Forall (λ a, is_enqueue_of p a = false) sched
      ∧ length (filter (λ r, resp_Last r = true)
                  (delivered (Responses request)
                     (trace (run json transport sched s)))) = 1.

(** "A slow reader back-pressures only its own request": while the read
    loop is in the send of a chunk to the sink [chA], the next chunk on the
    request body, for a request whose sink [chB] has room, is delivered by
    the read loop without the reader of [chA] taking anything. *)
Definition independent_delivery : Prop :=
  ∀ json transport (s : State Registry.t) chA respA chB f rest respB pB reqB cB,
    crashed s = false →
    handler s = HSending chA respA →
    chB ≠ chA →
    frames (body s) = f :: rest →
    as_response f = Some respB →
    requestMap s !! resp_Id respB = Some pB →
    heap s !! pB = Some reqB →
    Responses reqB = chB →
    sinks s !! chB = Some cB →
    Go.closed cB = false →
    Go.has_room cB = true →
    ∃ sched,
      Forall (λ a, reader_move a = true ∧ a ≠ Take chA) sched
      ∧ delivered chB (trace (run json transport sched s))
        = delivered chB (trace s) ++ [promote respB].

(** "On repeat [find-or-create] updates metadata fields": after the
    handshake has declared a node whose id the registry knows, the stored
    node-info is the declared one. *)
Definition repeat_updates_metadata : Prop :=
  ∀ transport (s : State Registry.t) sess node ns n0,
    Registry.by_id (cache s) !! node_Id node = Some ns →
    Registry.objects (cache s) !! ns = Some n0 →
    Registry.Info
      <$> Registry.objects
            (cache (Bridge_nodes transport sess [Some node] s)) !! ns
    = Some node.

(** ** Observations on the life of a connection *)

Global Instance Writer_eq_dec : EqDecision Writer.
Proof. solve_decision. Defined.

(** How often the node session [ns] was disconnected. *)
Definition disconnects (ns : session) (t : list Event) : nat :=
  length (filter (λ e, e = EvDisconnect ns) t).

Global Arguments disconnects : simpl never.

(** How many writer goroutines of the node session [ns] have returned. *)
Definition returned (ns : session) (ws : list Writer) : nat :=
  length (filter (λ wr, wr = {| w_session := ns; w_pc := WReturned |}) ws).

(** Two channel values are the same channel at two moments: the capacity
    and the closed flag agree, the buffered elements may differ. *)
Definition same_chan {A} (c' c : Go.chan A) : Prop :=
  Go.cap c' = Go.cap c ∧ Go.closed c' = Go.closed c.

(** Two [NodeRequest] values are the same request at two moments: all but
    the retry counter agrees. *)
Definition same_request (r' r : NodeRequest) : Prop :=
  Request r' = Request r ∧ Responses r' = Responses r.

(** The events a schedule added to the trace [t] to make it [t']. *)
Definition events_since (t t' : list Event) : list Event :=
  drop (length t) t'.

Section Continuation.

Context {C : Type}.

(** [s'] is a later state of the connection that was in state [s], as far
    as the things go that no goroutine of the bridge changes: the queues
    and the sinks are the same channels, the requests are the same
    requests, the remote address stands, a status that was sent stays
    sent, the response body and the trace only grow, and every writer
    goroutine is still the writer of its node session. *)
Definition continues (s s' : State C) : Prop :=
  (∀ ns, option_Forall2 same_chan (queues s' !! ns) (queues s !! ns))
  ∧ (∀ ch, option_Forall2 same_chan (sinks s' !! ch) (sinks s !! ch))
  ∧ (∀ p, option_Forall2 same_request (heap s' !! p) (heap s !! p))
  ∧ RemoteAddr s' = RemoteAddr s
  ∧ (∀ x, status (w s) = Some x → status (w s') = Some x)
  ∧ written (w s) `prefix_of` written (w s')
  ∧ trace s `prefix_of` trace s'
  ∧ (∀ i wr, writers s !! i = Some wr →
       ∃ pc, writers s' !! i
             = Some {| w_session := w_session wr; w_pc := pc |}).

End Continuation.

(** The chunk [resp] belongs on the sink [ch]: a request that answers on
    [ch] bears the id of the chunk, or the chunk is one that a writer makes
    up for a request that answers on [ch]. *)
Definition rightful (h : gmap ptr NodeRequest) (ch : chan_id)
    (resp : Response) : Prop :=
  ∃ p r, h !! p = Some r ∧ Responses r = ch
         ∧ (rpc_Id (Request r) = resp_Id resp
            ∨ ∃ msg, resp = error_chunk msg).

Definition rightful_event (h : gmap ptr NodeRequest) (e : Event) : Prop :=
  match e with
  | EvDeliver ch resp => rightful h ch resp
  | _ => True
  end.

(** Every key of the correlator is the id of the request it leads to. *)
Definition keyed_by_id (h : gmap ptr NodeRequest) (m : gmap string ptr)
    : Prop :=
  ∀ i p, m !! i = Some p → ∃ r, h !! p = Some r ∧ rpc_Id (Request r) = i.

Section Routing.

Context {C : Type}.

(** The correlator is keyed by the ids of its requests, and the chunks
    that the handler and the writers are in the send of belong on the
    sinks they are sent to. *)
Definition well_routed (s : State C) : Prop :=
  keyed_by_id (heap s) (requestMap s)
  ∧ (∀ ch resp, handler s = HSending ch resp → rightful (heap s) ch resp)
  ∧ (∀ j wr ch resp,
       writers s !! j = Some wr → w_pc wr = WSending ch resp →
       rightful (heap s) ch resp).

End Routing.

(** [requestMap[rpcRequest.Id] = request] (lines 96-98) for the request
    at [p]. *)
Definition register (h : gmap ptr NodeRequest) (m : gmap string ptr)
    (p : ptr) : gmap string ptr :=
  match h !! p with
  | Some r => <[rpc_Id (Request r) := p]> m
  | None => m
  end.

(** The chunks that the writers make up: an error chunk without id. *)
Definition made_up (resp : Response) : Prop :=
  ∃ msg, resp = error_chunk msg.

Definition made_up_event (e : Event) : Prop :=
  match e with
  | EvDeliver _ resp => made_up resp
  | _ => True
  end.

Section Panics.

Context {C : Type}.

(** Every chunk that a writer is in the send of is one it made up. *)
Definition writers_send_made_up (s : State C) : Prop :=
  ∀ j wr ch resp,
    writers s !! j = Some wr → w_pc wr = WSending ch resp → made_up resp.

(** The handler is in its read loop. *)
Definition reading (s : State C) : Prop :=
  handler s = HDecode ∨ ∃ ch resp, handler s = HSending ch resp.

(** The writer [i] is the one writer of the node session [ns] and is in
    the send of [response] to the sink [ch], whose channel is [c]; the
    handshake is over; the queue of [ns] holds what it held in [q] and
    what was put on it since. *)
Definition stalled (i : nat) (ns : session) (ch : chan_id)
    (response : Response) (c : Go.chan Response) (q : Go.chan ptr)
    (s : State C) : Prop :=
  writers s !! i = Some {| w_session := ns; w_pc := WSending ch response |}
  ∧ sinks s !! ch = Some c
  ∧ handler s ≠ HStart ∧ handler s ≠ HHandshake
  ∧ (∀ j wr, writers s !! j = Some wr → w_session wr = ns → j = i)
  ∧ ∃ q', queues s !! ns = Some q' ∧ Go.buf q `prefix_of` Go.buf q'.

End Panics.

(** ** More concrete connections *)

Module Episode.

Definition nB : NodeInfo :=
  {| node_Id := "nB"; node_Version := "2.50"; node_Name := "bravo" |}.

(** A node-info that the registry refuses. *)
Definition nameless : NodeInfo :=
  {| node_Id := ""; node_Version := "2.50"; node_Name := "" |}.

Definition handshake (nodes : list (option NodeInfo)) : Frame :=
  {| as_handshake := Some {| ci_Version := 1; ci_Sessions := ["10000001"];
                             ci_Nodes := nodes |};
     as_response := None |}.

(** The handler has sent the status line and is to read the handshake. *)
Definition greeted (fs : list Frame) : State Registry.t :=
  set_handler HHandshake
    (set_w {| status := Some 200%Z; written := []; flushes := 1;
              attempts := 0 |}
       (Scenario.accepted (Scenario.open_body fs))).

(** A connection from its acceptance: the companion declares node [nA]
    and answers request [q1], which the operator side has still to
    enqueue. *)
Definition whole : State Registry.t :=
  set_heap {[ 1%positive := Scenario.rq "q1" 11 ]}
    (set_sinks {[ 11%positive := Scenario.sink [] 4 ]}
       (Scenario.accepted
          (Scenario.open_body
             [Scenario.hello; Scenario.chunk "q1" "a1" true]))).

Definition whole_schedule : list Action :=
  [Handler; Handler; Enqueue 1 1; WriterOf 0; WriterOf 0; Handler; Handler].

(** Requests 1 and 2 wait on the queue of the node, in this order. *)
Definition two_queued (closed : bool) : State Registry.t :=
  set_heap {[ 1%positive := Scenario.rq "q1" 11;
              2%positive := Scenario.rq "q2" 12 ]}
    (Scenario.serving (Scenario.open_body [])
       (Go.Chan [1%positive; 2%positive] 16 closed)).

(** A transport on which the first [n] writes fail. *)
Definition flaky (n : nat) : nat → option string :=
  λ k, if k <? n then Some "broken pipe" else None.

(** The writer holds request 1 and the answer to it is next on the
    request body. *)
Definition answer_ahead : State Registry.t :=
  set_body (Scenario.open_body [Scenario.chunk "q1" "a1" true])
    Scenario.first_try.

(** The same, while an earlier request with the same id, which answers
    on sink 12, is in the correlator. *)
Definition same_id_twice : State Registry.t :=
  set_requestMap {[ "q1" := 2%positive ]}
    (set_heap {[ 1%positive := Scenario.rq "q1" 11;
                 2%positive := Scenario.rq "q1" 12 ]}
       (set_sinks {[ 11%positive := Scenario.sink [] 4;
                     12%positive := Scenario.sink [] 4 ]}
          answer_ahead)).

(** The read loop is to send a chunk to sink 11, which has been closed. *)
Definition reader_at_closed_sink : State Registry.t :=
  set_handler (HSending 11 Scenario.first_chunk)
    (Scenario.answering [Scenario.chunk "q2" "b1" true]
       (Go.Chan [] 4 true) (Scenario.sink [] 4)).

(** The writer is to send an error chunk to sink 11, which has been
    closed. *)
Definition writer_at_closed_sink : State Registry.t :=
  set_writers
    [ {| w_session := 1%positive;
         w_pc := WSending 11 (error_chunk "Failed to marshal request: x") |} ]
    (set_sinks {[ 11%positive := Go.Chan [] 4 true ]} Scenario.first_try).

(** The read loop is in the send of the last chunk of the earlier
    request while the writer holds the later one. *)
Definition last_chunk_under_way : State Registry.t :=
  set_handler
    (HSending 12 {| resp_Id := "q1"; resp_Chunk := Some "z";
                    resp_Error := None; resp_Last := true |})
    same_id_twice.

(** The writer is to send an error chunk to sink 11, which is full. *)
Definition writer_at_full_sink : State Registry.t :=
  set_writers
    [ {| w_session := 1%positive;
         w_pc := WSending 11 (error_chunk "Failed to marshal request: x") |} ]
    (set_sinks {[ 11%positive := Scenario.sink [Scenario.first_chunk] 1 ]}
       Scenario.first_try).

(** The writer holds request 1 and the queue of its node has been
    closed. *)
Definition holding_at_closed_queue : State Registry.t :=
  Scenario.holding (Scenario.rq "q1" 11) (Go.Chan [] 16 true).

End Episode.

(** * Properties of the bridge *)

Section Properties.

Context {C : Type} `{!CacheService C}.
Variable json_Marshal : RPCRequest → Go.result string.
Variable transport : nat → option string.

Lemma step_unfold a (s : State C) :
  step json_Marshal transport a s
  = if crashed s then s
    else match a with
         | Handler => Bridge transport s
         | WriterOf i => writer json_Marshal transport i s
         | Enqueue ns p => enqueue_request ns p s
         | Take ch => take_chunk ch s
         end.
Proof. reflexivity. Qed.

Lemma run_cons a sched (s : State C) :
  run json_Marshal transport (a :: sched) s
  = run json_Marshal transport sched (step json_Marshal transport a s).
Proof. reflexivity. Qed.

Local Abbreviation step := (step json_Marshal transport).
Local Abbreviation run := (run json_Marshal transport).

Implicit Types (s : State C) (p : ptr) (ch : chan_id) (ns : session).

(** C8: a decoded response whose id has no entry in the correlator is
    dropped without a trace: the read loop goes on to the next frame, the
    correlator and every sink are as they were, nothing is logged and no
    send is started. *)
Theorem unknown_id_discarded s f rest response :
  crashed s = false →
  handler s = HDecode →
  frames (body s) = f :: rest →
  as_response f = Some response →
  requestMap s !! resp_Id response = None →
  let s' := step Handler s in
  s' = set_body {| frames := rest; ended := ended (body s) |} s
  ∧ requestMap s' = requestMap s
  ∧ sinks s' = sinks s
  ∧ trace s' = trace s
  ∧ handler s' = HDecode.
Proof.
  intros Hc Hh Hf Hr Hm; cbn zeta.
  assert (step Handler s
          = set_body {| frames := rest; ended := ended (body s) |} s) as ->.
  { rewrite step_unfold. unfold Bridge, Bridge_decode, Decode.
    rewrite Hc, Hh, Hf, Hr; cbn. by rewrite Hm. }
  by repeat split.
Qed.

(** ** Steps of the goroutines, one lemma per path *)

Lemma writer_pc_lookup s i ns pc wr :
  writers s !! i = Some wr →
  writers (set_writer_pc i ns pc s) !! i
  = Some {| w_session := ns; w_pc := pc |}.
Proof.
  intros Hw; cbn. apply list_lookup_insert_eq. by eapply lookup_lt_Some.
Qed.

Lemma step_handler s :
  crashed s = false → step Handler s = Bridge transport s.
Proof. intros Hc. rewrite step_unfold. by rewrite Hc. Qed.

Lemma step_writer s i wr :
  crashed s = false →
  writers s !! i = Some wr →
  step (WriterOf i) s
  = match w_pc wr with
    | WRange => writer_range i (w_session wr) s
    | WHolding p =>
        writer_body json_Marshal transport i (w_session wr) p s
    | WSending ch response =>
        writer_send i (w_session wr) ch response s
    | WReturned => s
    end.
Proof.
  intros Hc Hw. rewrite step_unfold. unfold writer. by rewrite Hc, Hw.
Qed.

Lemma Bridge_deliver_sent s ch response c :
  sinks s !! ch = Some c →
  Go.closed c = false →
  Go.has_room c = true →
  Bridge_deliver ch response s
  = set_handler HDecode
      (let s1 := emit (EvDeliver ch response)
                   (set_sinks
                      (<[ch := Go.Chan (Go.buf c ++ [response]) (Go.cap c)
                                 false]> (sinks s)) s) in
       if resp_Last response
       then set_requestMap (delete (resp_Id response) (requestMap s1)) s1
       else s1).
Proof.
  intros Hs Hcl Hroom. unfold Bridge_deliver, Go.send.
  by rewrite Hs, Hcl, Hroom.
Qed.

Lemma Bridge_deliver_blocked s ch response c :
  sinks s !! ch = Some c →
  Go.closed c = false →
  Go.has_room c = false →
  Bridge_deliver ch response s = s.
Proof.
  intros Hs Hcl Hroom. unfold Bridge_deliver, Go.send.
  by rewrite Hs, Hcl, Hroom.
Qed.

Lemma writer_send_sent s i ns ch response c :
  sinks s !! ch = Some c →
  Go.closed c = false →
  Go.has_room c = true →
  writer_send i ns ch response s
  = set_writer_pc i ns WRange
      (emit (EvDeliver ch response)
         (set_sinks
            (<[ch := Go.Chan (Go.buf c ++ [response]) (Go.cap c) false]>
               (sinks s)) s)).
Proof.
  intros Hs Hcl Hroom. unfold writer_send, Go.send.
  by rewrite Hs, Hcl, Hroom.
Qed.

(** ** A request nobody holds *)

Lemma delivered_snoc ch t e :
  delivered ch (t ++ [e])
  = delivered ch t
    ++ match e with
       | EvDeliver ch' r => if decide (ch' = ch) then [r] else []
       | _ => []
       end.
Proof.
  unfold delivered. rewrite omap_app. f_equal.
  destruct e; cbn; try done. by case_decide.
Qed.

Lemma orphaned_change p ch s s' :
  orphaned p ch s →
  (∀ ns q, queues s' !! ns = Some q → p ∈ Go.buf q →
     ∃ q0, queues s !! ns = Some q0 ∧ p ∈ Go.buf q0) →
  (∀ j wr, writers s' !! j = Some wr →
     writers s !! j = Some wr
     ∨ (w_pc wr ≠ WHolding p ∧ ∀ r, w_pc wr ≠ WSending ch r)) →
  (∀ id, requestMap s' !! id = Some p →
     ∃ id', requestMap s !! id' = Some p) →
  (∀ r, handler s' ≠ HSending ch r) →
  (∀ p' r', heap s' !! p' = Some r' →
     ∃ r0, heap s !! p' = Some r0 ∧ Responses r0 = Responses r') →
  orphaned p ch s'.
Proof.
  intros (Hq & Hw & Hm & Hh & Hp) Hq' Hw' Hm' Hh' Hp'.
  split; [|split; [|split; [|split]]].
  - intros ns q Hl Hin. destruct (Hq' _ _ Hl Hin) as (q0 & Hl0 & Hin0).
    by eapply Hq.
  - intros j wr Hl. destruct (Hw' _ _ Hl) as [Hl0|Hl0]; [by eapply Hw|done].
  - intros id Hl. destruct (Hm' _ Hl) as [id' Hl']. by eapply Hm.
  - done.
  - intros p' r' Hl Hch. destruct (Hp' _ _ Hl) as (r0 & Hl0 & Hr0).
    eapply Hp; [done|congruence].
Qed.

Lemma writers_insert_cases s i wr0 j wr p ch :
  <[i := wr0]> (writers s) !! j = Some wr →
  w_pc wr0 ≠ WHolding p →
  (∀ r, w_pc wr0 ≠ WSending ch r) →
  writers s !! j = Some wr
  ∨ (w_pc wr ≠ WHolding p ∧ ∀ r, w_pc wr ≠ WSending ch r).
Proof.
  intros Hl H1 H2.
  apply list_lookup_insert_Some in Hl as [(-> & <- & _)|[_ Hl]]; eauto.
Qed.

Lemma writers_snoc_cases s wr0 j wr p ch :
  (writers s ++ [wr0]) !! j = Some wr →
  w_pc wr0 ≠ WHolding p →
  (∀ r, w_pc wr0 ≠ WSending ch r) →
  writers s !! j = Some wr
  ∨ (w_pc wr ≠ WHolding p ∧ ∀ r, w_pc wr ≠ WSending ch r).
Proof.
  intros Hl H1 H2. apply lookup_app_Some in Hl as [Hl|[_ Hl]]; [eauto|].
  apply list_lookup_singleton_Some in Hl as [_ <-]. eauto.
Qed.

Lemma orphaned_nodes p ch sess nodes s :
  orphaned p ch s →
  orphaned p ch (Bridge_nodes transport sess nodes s)
  ∧ delivered ch (trace (Bridge_nodes transport sess nodes s))
    = delivered ch (trace s).
Proof.
  revert s. induction nodes as [|[node|] nodes IH]; intros s Ho; cbn.
  - split; [|done]. eapply orphaned_change; cbn; eauto.
  - destruct (FindNodeSession (node_Id node) (cache s)) as [found c1].
    destruct (match found with
              | Some ns => (Go.Ok ns, c1)
              | None => CreateNodeSession node c1
              end) as [[ns|e] c2].
    + destruct (IH (spawn ns
                 (set_cache (Connect ns (RemoteAddr s)
                               (AttachSessions ns sess c2)) s)))
        as [IH1 IH2].
      * eapply orphaned_change; cbn; eauto.
        -- intros j wr Hl. by eapply writers_snoc_cases.
        -- by destruct Ho as (_ & _ & _ & Hh & _).
      * split; [done|]. rewrite IH2. cbn.
        by rewrite delivered_snoc, app_nil_r.
    + split.
      * eapply orphaned_change; cbn; eauto.
      * cbn. by rewrite delivered_snoc, app_nil_r.
  - split; [|done]. eapply orphaned_change; cbn; eauto.
Qed.

Lemma orphaned_Bridge p ch s :
  orphaned p ch s →
  orphaned p ch (Bridge transport s)
  ∧ delivered ch (trace (Bridge transport s)) = delivered ch (trace s).
Proof.
  intros Ho. pose proof Ho as (Hq & Hw & Hm & Hh & Hp).
  unfold Bridge. destruct (handler s) as [| | |ch' r| |] eqn:Hpc.
  - split; [|done]. eapply orphaned_change; cbn; eauto.
  - unfold Bridge_handshake.
    destruct (Decode as_handshake (body s)) as [[ci|] b|]; [| |done].
    + assert (orphaned p ch (set_requestMap ∅ (set_body b s))) as Ho'.
      { eapply orphaned_change; cbn; try rewrite Hpc; eauto.
        intros id. by rewrite lookup_empty. }
      destruct (orphaned_nodes p ch (ci_Sessions ci) (ci_Nodes ci) _ Ho')
        as [H1 H2].
      split; [done|by rewrite H2].
    + split; cbn; [|by rewrite delivered_snoc, app_nil_r].
      eapply orphaned_change; cbn; eauto.
  - unfold Bridge_decode.
    destruct (Decode as_response (body s)) as [[response|] b|]; [| |done].
    + cbn. destruct (requestMap s !! resp_Id response) as [p'|] eqn:Hl.
      * destruct (heap s !! p') as [request|] eqn:Hl'; cbn.
        -- split; [|done]. eapply orphaned_change; cbn; eauto.
           intros r [= Hch _]. apply (Hp _ _ Hl') in Hch as ->.
           by eapply Hm.
        -- split; [|done]. eapply orphaned_change; cbn; eauto.
      * split; [|done].
        eapply orphaned_change; cbn; try rewrite Hpc; eauto.
    + split; cbn; [|by rewrite delivered_snoc, app_nil_r].
      eapply orphaned_change; cbn; try rewrite Hpc; eauto.
  - assert (ch' ≠ ch) as Hne by (intros ->; by eapply Hh).
    unfold Bridge_deliver. destruct (sinks s !! ch') as [c|]; [|done].
    destruct (Go.send r c) as [c'| |]; [| done |].
    + destruct (resp_Last r); (split;
        [|cbn; rewrite delivered_snoc; case_decide; try done;
          by rewrite app_nil_r]).
      * eapply orphaned_change; cbn; eauto.
        intros id Hl. apply lookup_delete_Some in Hl as [_ Hl]. eauto.
      * eapply orphaned_change; cbn; eauto.
    + split; [|done]. eapply orphaned_change; cbn; eauto.
  - done.
  - done.
Qed.

Lemma queue_insert_cases s ns (q q' : Go.chan ptr) ns' q1 p :
  queues s !! ns = Some q →
  (p ∈ Go.buf q' → p ∈ Go.buf q) →
  <[ns := q']> (queues s) !! ns' = Some q1 →
  p ∈ Go.buf q1 →
  ∃ q0, queues s !! ns' = Some q0 ∧ p ∈ Go.buf q0.
Proof.
  intros Hq Hsub Hl Hin.
  apply lookup_insert_Some in Hl as [[<- <-]|[_ Hl]]; eauto.
Qed.

Lemma orphaned_panic p ch ns s :
  orphaned p ch s →
  orphaned p ch (writer_panic ns s)
  ∧ delivered ch (trace (writer_panic ns s)) = delivered ch (trace s).
Proof.
  intros Ho. pose proof Ho as (Hq & Hw & Hm & Hh & Hp). split.
  - eapply orphaned_change; cbn; eauto.
  - cbn. by rewrite delivered_snoc, app_nil_r.
Qed.

Lemma orphaned_requeue p ch i ns p' s :
  p' ≠ p →
  orphaned p ch s →
  orphaned p ch (writer_requeue i ns p' s)
  ∧ delivered ch (trace (writer_requeue i ns p' s))
    = delivered ch (trace s).
Proof.
  intros Hne Ho. pose proof Ho as (Hq & Hw & Hm & Hh & Hp).
  unfold writer_requeue. destruct (queues s !! ns) as [q|] eqn:Hl.
  - unfold Go.send. destruct (Go.closed q); [by apply orphaned_panic|].
    destruct (Go.has_room q).
    + split; [|by cbn; rewrite delivered_snoc, app_nil_r].
      eapply orphaned_change; cbn; eauto.
      * intros ns' q1. eapply queue_insert_cases; [done|]; cbn.
        intros [Hin| ->%list_elem_of_singleton]%elem_of_app; done.
      * intros j wr Hj. by eapply writers_insert_cases.
    + split; [|by cbn; rewrite delivered_snoc, app_nil_r].
      eapply orphaned_change; cbn; eauto.
      intros j wr Hj. by eapply writers_insert_cases.
  - split; [|by cbn; rewrite delivered_snoc, app_nil_r].
    eapply orphaned_change; cbn; eauto.
    intros j wr Hj. by eapply writers_insert_cases.
Qed.

Lemma orphaned_writer p ch i s :
  orphaned p ch s →
  orphaned p ch (writer json_Marshal transport i s)
  ∧ delivered ch (trace (writer json_Marshal transport i s))
    = delivered ch (trace s).
Proof.
  intros Ho. pose proof Ho as (Hq & Hw & Hm & Hh & Hp).
  unfold writer. destruct (writers s !! i) as [[ns pc]|] eqn:Hi; [|done].
  destruct (Hw _ _ Hi) as [Hnh Hns]; cbn in Hnh, Hns |- *.
  destruct pc as [|p'|ch' r|].
  - unfold writer_range. destruct (queues s !! ns) as [q|] eqn:Hl; [|done].
    unfold Go.recv. destruct (Go.buf q) as [|p' rest] eqn:Hbuf.
    + destruct (Go.closed q); [|done].
      split; [|by cbn; rewrite delivered_snoc, app_nil_r].
      eapply orphaned_change; cbn; eauto.
      intros j wr Hj. by eapply writers_insert_cases.
    + assert (p' ≠ p) as Hne.
      { intros ->. eapply Hq; [done|]. rewrite Hbuf. by left. }
      split; [|done]. eapply orphaned_change; cbn; eauto.
      * intros ns' q1. eapply queue_insert_cases; [done|]; cbn.
        rewrite Hbuf. by right.
      * intros j wr Hj. eapply writers_insert_cases; [done|cbn..];
          congruence.
  - assert (p' ≠ p) as Hne by congruence.
    unfold writer_body. destruct (heap s !! p') as [request|] eqn:Hl;
      [|by apply orphaned_panic].
    assert (Responses request ≠ ch) as Hch.
    { intros Heq. by apply (Hp _ _ Hl) in Heq. }
    destruct (json_Marshal (Request request)) as [bytes|e].
    + destruct (rw_Write transport bytes (w _)) as [[e|] w'] eqn:Hwr.
      * cbn. set (s1 := set_heap _ _).
        assert (orphaned p ch s1) as Ho1.
        { eapply orphaned_change; cbn; eauto.
          - intros id [_ Hid]%lookup_delete_Some.
            apply lookup_insert_Some in Hid as [[_ ?]|[_ Hid]]; [done|eauto].
          - intros p1 r1 [[<- <-]|[_ Hid]]%lookup_insert_Some; cbn; eauto. }
        assert (delivered ch (trace s1) = delivered ch (trace s)) as Hd1.
        { cbn. by rewrite delivered_snoc, app_nil_r. }
        destruct (Go.int_incr (Retries request) <? 15)%Z.
        -- destruct (orphaned_requeue p ch i ns p' s1) as [H1 H2];
             [done..|]. split; [done|congruence].
        -- split; [|done]. eapply orphaned_change; [exact Ho1|cbn..]; eauto.
           intros j wr Hj. eapply writers_insert_cases; [done|cbn..];
             congruence.
      * cbn. split; [|by rewrite delivered_snoc, app_nil_r].
        eapply orphaned_change; cbn; eauto.
        -- intros j wr Hj. by eapply writers_insert_cases.
        -- intros id [[_ ?]|[_ Hid]]%lookup_insert_Some; [done|eauto].
    + split; [|done]. eapply orphaned_change; cbn; eauto.
      intros j wr Hj. eapply writers_insert_cases; [done|cbn..]; congruence.
  - assert (ch' ≠ ch) as Hne by (intros ->; by eapply Hns).
    unfold writer_send. destruct (sinks s !! ch') as [c|]; [|done].
    destruct (Go.send r c) as [c'| |]; [|done|by apply orphaned_panic].
    split.
    + eapply orphaned_change; cbn; eauto.
      intros j wr Hj. by eapply writers_insert_cases.
    + cbn. rewrite delivered_snoc. case_decide; [done|by rewrite app_nil_r].
  - done.
Qed.

Lemma orphaned_step p ch a s :
  is_enqueue_of p a = false →
  orphaned p ch s →
  orphaned p ch (step a s)
  ∧ delivered ch (trace (step a s)) = delivered ch (trace s).
Proof.
  intros Ha Ho. rewrite step_unfold. destruct (crashed s); [done|].
  destruct a as [|i|ns p'|ch'].
  - by apply orphaned_Bridge.
  - by apply orphaned_writer.
  - cbn in Ha. apply bool_decide_eq_false in Ha.
    pose proof Ho as (Hq & Hw & Hm & Hh & Hp).
    unfold enqueue_request. destruct (queues s !! ns) as [q|] eqn:Hl; [|done].
    unfold Go.send. destruct (Go.closed q); [done|].
    destruct (Go.has_room q); [|done].
    split; [|done]. eapply orphaned_change; cbn; eauto.
    intros ns' q1. eapply queue_insert_cases; [done|]; cbn.
    intros [Hin| ->%list_elem_of_singleton]%elem_of_app; done.
  - unfold take_chunk. destruct (sinks s !! ch') as [c|]; [|done].
    destruct (Go.recv c) as [? c'| |]; [|done..].
    split; [|done]. pose proof Ho as (Hq & Hw & Hm & Hh & Hp).
    eapply orphaned_change; cbn; eauto.
Qed.

Lemma orphaned_run p ch sched s :
  Forall (λ a, is_enqueue_of p a = false) sched →
  orphaned p ch s →
  orphaned p ch (run sched s)
  ∧ delivered ch (trace (run sched s)) = delivered ch (trace s).
Proof.
  intros Hs. revert s. induction Hs as [|a sched Ha _ IH]; intros s Ho.
  - done.
  - cbn. destruct (orphaned_step p ch a s Ha Ho) as [Ho1 Hd1].
    destruct (IH _ Ho1) as [Ho2 Hd2]. split; [done|congruence].
Qed.

(** ** The writer on a request it has dequeued *)

Lemma written_WriteHeader code (rw : ResponseWriter) :
  written (rw_WriteHeader code rw) = written rw.
Proof. unfold rw_WriteHeader. by destruct (status rw). Qed.

Lemma written_Flush (rw : ResponseWriter) :
  written (rw_Flush rw) = written rw.
Proof. unfold rw_Flush; cbn. apply written_WriteHeader. Qed.

Lemma rw_Write_attempts bytes (rw : ResponseWriter) :
  rw_Write transport bytes rw
  = match transport (attempts rw) with
    | None =>
        (None, {| status := status (rw_WriteHeader 200 rw);
                  written := written rw ++ [bytes];
                  flushes := flushes rw; attempts := S (attempts rw) |})
    | Some e =>
        (Some e, {| status := status (rw_WriteHeader 200 rw);
                    written := written rw;
                    flushes := flushes rw; attempts := S (attempts rw) |})
    end.
Proof.
  unfold rw_Write, rw_WriteHeader. by destruct (status rw).
Qed.

Lemma writer_body_write_fails s i ns p request bytes e :
  heap s !! p = Some request →
  json_Marshal (Request request) = Go.Ok bytes →
  transport (attempts (w s)) = Some e →
  writer_body json_Marshal transport i ns p s
  = let s1 := after_failed_write s p request bytes in
    if (Go.int_incr (Retries request) <? 15)%Z
    then writer_requeue i ns p s1
    else set_writer_pc i ns
           (WSending (Responses request)
              (error_chunk ("Failed to write metrics request: " +:+ e))) s1.
Proof.
  intros Hp Hm Ht. unfold writer_body. rewrite Hp, Hm; cbn.
  rewrite rw_Write_attempts, Ht; cbn.
  unfold after_failed_write. by rewrite delete_insert_eq.
Qed.

Lemma writer_body_write_ok s i ns p request bytes :
  heap s !! p = Some request →
  json_Marshal (Request request) = Go.Ok bytes →
  transport (attempts (w s)) = None →
  writer_body json_Marshal transport i ns p s
  = set_writer_pc i ns WRange
      (set_w (rw_Flush
                {| status := status (rw_WriteHeader 200 (w s));
                   written := written (w s) ++ [bytes];
                   flushes := flushes (w s);
                   attempts := S (attempts (w s)) |})
         (set_requestMap (<[rpc_Id (Request request) := p]> (requestMap s))
            (emit (EvLog ("Sending request " +:+ bytes)) s))).
Proof.
  intros Hp Hm Ht. unfold writer_body. rewrite Hp, Hm; cbn.
  by rewrite rw_Write_attempts, Ht.
Qed.

Lemma held_only_by_after_failed_write s i p request bytes :
  heap s !! p = Some request →
  held_only_by i p (Responses request) s →
  held_only_by i p (Responses request)
    (after_failed_write s p request bytes).
Proof.
  intros Hp (Hq & Hw & Hm & Hh & Hu).
  split; [|split; [|split; [|split]]]; cbn; try done.
  - intros id [_ Hid]%lookup_delete_Some. by eapply Hm.
  - intros p' r' [[<- <-]|[_ Hl]]%lookup_insert_Some; [done|]. by eapply Hu.
Qed.

Lemma dropped_is_orphaned s i ns p ch :
  writers s !! i = Some {| w_session := ns; w_pc := WHolding p |} →
  held_only_by i p ch s →
  orphaned p ch (set_writer_pc i ns WRange (emit (EvDrop p) s)).
Proof.
  intros Hi (Hq & Hw & Hm & Hh & Hu).
  split; [|split; [|split; [|split]]]; cbn; try done.
  intros j wr [(-> & <- & _)|[Hne Hl]]%list_lookup_insert_Some; cbn.
  - done.
  - destruct (Hw _ _ Hl) as [H1 H2]. split; [|done].
    intros Hpc. by apply H1 in Hpc.
Qed.

(** ** The claims about single chunks and single requests *)

(** C6: a decoded response that carries an error and whose id has an
    entry in the correlator goes to the sink of that entry with [last]
    set, whatever the companion sent, and once the send has gone through
    the entry is gone from the correlator. *)
Theorem error_chunk_is_terminal s f rest response p request :
  crashed s = false →
  handler s = HDecode →
  frames (body s) = f :: rest →
  as_response f = Some response →
  is_Some (resp_Error response) →
  requestMap s !! resp_Id response = Some p →
  heap s !! p = Some request →
  let ch := Responses request in
  let chunk := {| resp_Id := resp_Id response;
                  resp_Chunk := resp_Chunk response;
                  resp_Error := resp_Error response;
                  resp_Last := true |} in
  handler (step Handler s) = HSending ch chunk
  ∧ ∀ s2 c,
      crashed s2 = false →
      handler s2 = HSending ch chunk →
      sinks s2 !! ch = Some c →
      Go.closed c = false →
      Go.has_room c = true →
      let s3 := step Handler s2 in
      sinks s3
      = <[ch := Go.Chan (Go.buf c ++ [chunk]) (Go.cap c) false]> (sinks s2)
      ∧ trace s3 = trace s2 ++ [EvDeliver ch chunk]
      ∧ requestMap s3 = delete (resp_Id response) (requestMap s2)
      ∧ handler s3 = HDecode.
Proof.
  intros Hc Hh Hf Hr [e He] Hm Hp; cbn zeta. split.
  - rewrite step_handler by done.
    unfold Bridge, Bridge_decode, Decode. rewrite Hh, Hf, Hr; cbn.
    rewrite Hm, Hp; cbn. unfold promote. by rewrite He.
  - intros s2 c Hc2 Hh2 Hs2 Hcl Hroom.
    rewrite step_handler by done. unfold Bridge. rewrite Hh2.
    by rewrite (Bridge_deliver_sent _ _ _ c).
Qed.

(** C10: when [json.Marshal] fails on a dequeued request the writer puts
    nothing in the correlator, leaves the retry counter alone and writes
    nothing; it sends one terminal error chunk to the sink of the request
    and is back at the head of its loop, where it takes the next request
    off the queue. *)
Theorem marshal_failure_fails_request s i ns p request e :
  crashed s = false →
  writers s !! i = Some {| w_session := ns; w_pc := WHolding p |} →
  heap s !! p = Some request →
  json_Marshal (Request request) = Go.Err e →
  let ch := Responses request in
  let chunk := error_chunk ("Failed to marshal request: " +:+ e) in
  let s1 := step (WriterOf i) s in
  (writers s1 !! i = Some {| w_session := ns; w_pc := WSending ch chunk |}
   ∧ requestMap s1 = requestMap s
   ∧ heap s1 = heap s
   ∧ w s1 = w s
   ∧ trace s1 = trace s)
  ∧ (resp_Last chunk = true ∧ is_Some (resp_Error chunk))
  ∧ ∀ s2 c,
      crashed s2 = false →
      writers s2 !! i
      = Some {| w_session := ns; w_pc := WSending ch chunk |} →
      sinks s2 !! ch = Some c →
      Go.closed c = false →
      Go.has_room c = true →
      let s3 := step (WriterOf i) s2 in
      sinks s3
      = <[ch := Go.Chan (Go.buf c ++ [chunk]) (Go.cap c) false]> (sinks s2)
      ∧ trace s3 = trace s2 ++ [EvDeliver ch chunk]
      ∧ requestMap s3 = requestMap s2
      ∧ heap s3 = heap s2
      ∧ writers s3 !! i = Some {| w_session := ns; w_pc := WRange |}
      ∧ ∀ q p' rest,
          queues s3 !! ns = Some q →
          Go.buf q = p' :: rest →
          writers (step (WriterOf i) s3) !! i
          = Some {| w_session := ns; w_pc := WHolding p' |}.
Proof.
  intros Hc Hw Hp Hm; cbn zeta. split; [|split; [by eauto|]].
  - rewrite (step_writer _ _ _ Hc Hw); cbn.
    unfold writer_body. rewrite Hp, Hm.
    split; [by eapply writer_pc_lookup|done].
  - intros s2 c Hc2 Hw2 Hs2 Hcl Hroom.
    rewrite (step_writer _ _ _ Hc2 Hw2); cbn.
    rewrite (writer_send_sent _ _ _ _ _ c) by done.
    repeat split; try done.
    + by eapply writer_pc_lookup.
    + intros q p' rest Hq Hbuf.
      erewrite step_writer; [|done|by eapply writer_pc_lookup]; cbn.
      unfold writer_range. cbn in Hq |- *. rewrite Hq. unfold Go.recv.
      rewrite Hbuf. cbn. apply list_lookup_insert_eq.
      rewrite length_insert. by eapply lookup_lt_Some.
Qed.


(** ** The handshake *)

Lemma status_WriteHeader_committed code (rw : ResponseWriter) x :
  status rw = Some x → rw_WriteHeader code rw = rw.
Proof. intros Hs. unfold rw_WriteHeader. by rewrite Hs. Qed.

Lemma status_Write bytes (rw : ResponseWriter) x :
  status rw = Some x → status (snd (rw_Write transport bytes rw)) = Some x.
Proof.
  intros Hs. rewrite rw_Write_attempts.
  rewrite (status_WriteHeader_committed _ _ x Hs).
  by destruct (transport (attempts rw)).
Qed.

Lemma status_EncodeError msg (rw : ResponseWriter) x :
  status rw = Some x →
  status (EncodeError_BadRequest transport msg rw) = Some x.
Proof.
  intros Hs. unfold EncodeError_BadRequest.
  rewrite (status_WriteHeader_committed _ _ x Hs). by apply status_Write.
Qed.

Lemma returned_is_final a s :
  handler s = HReturned →
  writers s = [] →
  handler (step a s) = HReturned
  ∧ writers (step a s) = []
  ∧ w (step a s) = w s.
Proof.
  intros Hh Hw. rewrite step_unfold. destruct (crashed s); [done|].
  destruct a as [|i|ns p|ch].
  - unfold Bridge. by rewrite Hh.
  - unfold writer. by rewrite Hw.
  - unfold enqueue_request. destruct (queues s !! ns) as [q|]; [|done].
    by destruct (Go.send p q).
  - unfold take_chunk. destruct (sinks s !! ch) as [c|]; [|done].
    by destruct (Go.recv c).
Qed.

Lemma returned_stays sched s :
  handler s = HReturned →
  writers s = [] →
  handler (run sched s) = HReturned
  ∧ writers (run sched s) = []
  ∧ w (run sched s) = w s.
Proof.
  revert s. induction sched as [|a sched IH]; intros s Hh Hw; [done|].
  cbn. destruct (returned_is_final a s Hh Hw) as (H1 & H2 & H3).
  destruct (IH _ H1 H2) as (H4 & H5 & H6). by rewrite H6.
Qed.

(** C3, on the code: when the first [Decode] fails the handler returns
    without spawning a writer, and nothing is written to the response
    afterwards; but the status line of the response is the 200 that was
    sent and flushed before the handshake was read, not 400. *)
Theorem bad_handshake_answer s b :
  crashed s = false →
  handler s = HStart →
  status (w s) = None →
  writers s = [] →
  Decode as_handshake (body s) = Decoded None b →
  let s' := run [Handler; Handler] s in
  handler s' = HReturned
  ∧ status (w s') = Some StatusOK
  ∧ status (w s') ≠ Some StatusBadRequest
  ∧ writers s' = []
  ∧ ∀ sched,
      writers (run sched s') = []
      ∧ w (run sched s') = w s'
      ∧ handler (run sched s') = HReturned.
Proof.
  intros Hc Hh Hst Hw Hd; cbn zeta.
  assert (run [Handler; Handler] s
          = Bridge_return
              (set_w (EncodeError_BadRequest transport
                        "Error reading connection info"
                        (rw_Flush (rw_WriteHeader StatusOK (w s))))
                 (emit (EvLog "Error reading connection info")
                    (set_body b (Bridge_start s))))) as ->.
  { cbn. rewrite (step_handler s) by done.
    assert (Bridge transport s = Bridge_start s) as ->
      by (unfold Bridge; by rewrite Hh).
    rewrite step_handler by done. unfold Bridge; cbn.
    unfold Bridge_handshake; cbn. by rewrite Hd. }
  assert (status (rw_Flush (rw_WriteHeader StatusOK (w s))) = Some StatusOK)
    as Hok.
  { unfold rw_Flush, rw_WriteHeader. rewrite Hst; cbn. done. }
  cbn. rewrite (status_EncodeError _ _ _ Hok).
  repeat split; try done.
  - by apply returned_stays.
  - by apply returned_stays.
  - by apply returned_stays.
Qed.

(** C9, as amended: a declared node whose id the registry knows gets the
    node session that was found, attached to the declared sessions and
    connected; nothing of the declared node-info but its id takes part,
    so the outcome is the same for every node-info with that id.  Only
    for an id the registry does not know is the node session created,
    from the declared node-info. *)
Theorem known_node_is_reused sess node rest s :
  (∀ ns c1,
     FindNodeSession (node_Id node) (cache s) = (Some ns, c1) →
     ∀ node',
       node_Id node' = node_Id node →
       Bridge_nodes transport sess (Some node' :: rest) s
       = Bridge_nodes transport sess rest
           (spawn ns
              (set_cache
                 (Connect ns (RemoteAddr s) (AttachSessions ns sess c1))
                 s)))
  ∧ (∀ c1,
       FindNodeSession (node_Id node) (cache s) = (None, c1) →
       Bridge_nodes transport sess (Some node :: rest) s
       = match CreateNodeSession node c1 with
         | (Go.Ok ns, c2) =>
             Bridge_nodes transport sess rest
               (spawn ns
                  (set_cache
                     (Connect ns (RemoteAddr s) (AttachSessions ns sess c2))
                     s))
         | (Go.Err e, c2) =>
             Bridge_return
               (set_w (EncodeError_BadRequest transport
                         ("Error creating node session: " +:+ e) (w s))
                  (emit (EvLog ("Error creating node session: " +:+ e))
                     (set_cache c2 s)))
         end).
Proof.
  split.
  - intros ns c1 Hf node' Hid. cbn. by rewrite Hid, Hf.
  - intros c1 Hf. cbn. rewrite Hf.
    by destruct (CreateNodeSession node c1) as [[ns|e] c2].
Qed.

(** ** The end of the request body *)

Lemma spinning_step a s e :
  is_enqueue a = false →
  crashed s = false →
  handler s = HDecode →
  frames (body s) = [] →
  ended (body s) = Some e →
  Forall (λ wr, w_pc wr = WRange) (writers s) →
  map_Forall (λ _ q, Go.buf q = [] ∧ Go.closed q = false) (queues s) →
  let s' := step a s in
  crashed s' = false
  ∧ handler s' = HDecode
  ∧ body s' = body s
  ∧ writers s' = writers s
  ∧ queues s' = queues s
  ∧ cache s' = cache s
  ∧ trace s'
    = trace s ++ (if decide (a = Handler)
                  then [EvLog "Reading response"] else []).
Proof.
  intros Ha Hc Hh Hf He Hw Hq; cbn zeta.
  rewrite step_unfold. rewrite Hc.
  destruct a as [|i|ns p|ch]; [| | done |].
  - unfold Bridge, Bridge_decode, Decode. rewrite Hh, Hf, He; cbn.
    by destruct (body s).
  - rewrite app_nil_r. unfold writer.
    destruct (writers s !! i) as [wr|] eqn:Hi; [|done].
    assert (w_pc wr = WRange) as ->.
    { eapply (proj1 (Forall_lookup _ _) Hw); done. }
    unfold writer_range. destruct (queues s !! w_session wr) as [q|] eqn:Hl;
      [|done].
    destruct (Hq _ _ Hl) as [Hbuf Hcl]. unfold Go.recv.
    by rewrite Hbuf, Hcl.
  - rewrite app_nil_r. unfold take_chunk.
    destruct (sinks s !! ch) as [c|]; [|done].
    by destruct (Go.recv c).
Qed.

(** C1, on the code: once the request body has ended, be it by end of
    file, by the remote closing or by the cancelled context, every
    [Decode] of the read loop fails and the loop logs the error and goes
    round again.  With the writers waiting on their empty queues, however
    the goroutines are scheduled, the handler stays in its loop, no writer
    returns, no node session is disconnected and the only events are the
    log lines of the loop. *)
Theorem read_loop_spins_after_body_end sched s e :
  crashed s = false →
  handler s = HDecode →
  frames (body s) = [] →
  ended (body s) = Some e →
  Forall (λ wr, w_pc wr = WRange) (writers s) →
  map_Forall (λ _ q, Go.buf q = [] ∧ Go.closed q = false) (queues s) →
  Forall (λ a, is_enqueue a = false) sched →
  let s' := run sched s in
  handler s' = HDecode
  ∧ writers s' = writers s
  ∧ cache s' = cache s
  ∧ trace s'
    = trace s ++ replicate (handler_moves sched) (EvLog "Reading response").
Proof.
  intros Hc Hh Hf He Hw Hq Hs; cbn zeta. revert s Hc Hh Hf He Hw Hq.
  induction Hs as [|a sched Ha _ IH]; intros s Hc Hh Hf He Hw Hq.
  - cbn. by rewrite app_nil_r.
  - destruct (spinning_step a s e Ha Hc Hh Hf He Hw Hq)
      as (H1 & H2 & H3 & H4 & H5 & H6 & H7).
    rewrite run_cons.
    destruct (IH (step a s)) as (G1 & G2 & G3 & G4); try done.
    + by rewrite H3.
    + by rewrite H3.
    + by rewrite H4.
    + by rewrite H5.
    + rewrite G1, G2, G3, G4, H4, H6, H7. repeat split; try done.
      rewrite <- app_assoc. f_equal. unfold handler_moves.
      rewrite filter_cons. by case_decide.
Qed.

(** ** A sink that is full *)

Lemma full_sink_after_insert s ch ch' (c c' : Go.chan Response) :
  ch' ≠ ch →
  sinks s !! ch = Some c →
  <[ch' := c']> (sinks s) !! ch = Some c.
Proof. intros Hne Hl. by rewrite lookup_insert_ne. Qed.

Lemma writer_leaves_full_sink s i ch c :
  sinks s !! ch = Some c →
  Go.closed c = false →
  Go.has_room c = false →
  let s' := writer json_Marshal transport i s in
  handler s' = handler s
  ∧ body s' = body s
  ∧ sinks s' !! ch = Some c.
Proof.
  intros Hl Hcl Hroom; cbn zeta. unfold writer.
  destruct (writers s !! i) as [[ns pc]|]; [|done]; cbn.
  destruct pc as [|p|ch' r|]; [| | |done].
  - unfold writer_range. destruct (queues s !! ns) as [q|]; [|done].
    by destruct (Go.recv q).
  - unfold writer_body. destruct (heap s !! p) as [request|]; [|done].
    destruct (json_Marshal (Request request)) as [bytes|e]; [|done].
    destruct (rw_Write transport bytes (w _)) as [[e|] w']; [|done].
    destruct (Go.int_incr (Retries request) <? 15)%Z; [|done].
    unfold writer_requeue; cbn. destruct (queues s !! ns) as [q|]; [|done].
    by destruct (Go.send p q).
  - unfold writer_send. destruct (sinks s !! ch') as [c'|] eqn:Hl'; [|done].
    destruct (decide (ch' = ch)) as [->|Hne].
    + assert (c' = c) as -> by congruence.
      unfold Go.send. by rewrite Hcl, Hroom.
    + destruct (Go.send r c'); try done. cbn.
      by rewrite lookup_insert_ne.
Qed.

Lemma full_sink_step a s ch response c :
  a ≠ Take ch →
  handler s = HSending ch response →
  sinks s !! ch = Some c →
  Go.closed c = false →
  Go.has_room c = false →
  let s' := step a s in
  handler s' = HSending ch response
  ∧ body s' = body s
  ∧ sinks s' !! ch = Some c.
Proof.
  intros Ha Hh Hl Hcl Hroom; cbn zeta.
  rewrite step_unfold. destruct (crashed s); [done|].
  destruct a as [|i|ns p|ch'].
  - unfold Bridge. rewrite Hh.
    by rewrite (Bridge_deliver_blocked _ _ _ c).
  - destruct (writer_leaves_full_sink s i ch c Hl Hcl Hroom)
      as (H1 & H2 & H3). by rewrite H1.
  - unfold enqueue_request. destruct (queues s !! ns) as [q|]; [|done].
    by destruct (Go.send p q).
  - unfold take_chunk. destruct (sinks s !! ch') as [c'|]; [|done].
    destruct (Go.recv c'); try done. cbn.
    rewrite lookup_insert_ne; [done|congruence].
Qed.

Lemma full_sink_run sched s ch response c :
  Forall (λ a, a ≠ Take ch) sched →
  handler s = HSending ch response →
  sinks s !! ch = Some c →
  Go.closed c = false →
  Go.has_room c = false →
  handler (run sched s) = HSending ch response
  ∧ body (run sched s) = body s
  ∧ sinks (run sched s) !! ch = Some c.
Proof.
  intros Hs. revert s. induction Hs as [|a sched Ha _ IH];
    intros s Hh Hl Hcl Hroom; [done|].
  destruct (full_sink_step a s ch response c Ha Hh Hl Hcl Hroom)
    as (H1 & H2 & H3).
  cbn. destruct (IH _ H1 H3 Hcl Hroom) as (G1 & G2 & G3).
  by rewrite G2.
Qed.

Lemma full_sink_quiet sched s ch response c :
  Forall (λ a, reader_move a = true ∧ a ≠ Take ch) sched →
  handler s = HSending ch response →
  sinks s !! ch = Some c →
  Go.closed c = false →
  Go.has_room c = false →
  trace (run sched s) = trace s.
Proof.
  intros Hs. revert s. induction Hs as [|a sched [Ha Hne] _ IH];
    intros s Hh Hl Hcl Hroom; [done|].
  destruct (full_sink_step a s ch response c Hne Hh Hl Hcl Hroom)
    as (H1 & _ & H3).
  cbn. rewrite (IH _ H1 H3 Hcl Hroom).
  rewrite step_unfold. destruct (crashed s); [done|].
  destruct a as [|i|ns p|ch']; [|done|done|].
  - unfold Bridge. rewrite Hh.
    by rewrite (Bridge_deliver_blocked _ _ _ c).
  - unfold take_chunk. destruct (sinks s !! ch') as [c'|]; [|done].
    by destruct (Go.recv c').
Qed.

(** C5, as amended: the one read loop sends each chunk itself.  While the
    sink of a request is full the loop waits in the send of that
    request's chunk: whatever the other goroutines do and whoever reads
    the other sinks, no further frame is decoded, so the chunks that
    follow on the request body, of any request, are not delivered.  When
    the reader of the full sink takes a chunk off it, the next step of
    the loop delivers the chunk it waited with and goes on to decode. *)
Theorem read_loop_waits_on_full_sink s ch response c :
  crashed s = false →
  handler s = HSending ch response →
  sinks s !! ch = Some c →
  Go.closed c = false →
  Go.has_room c = false →
  length (Go.buf c) ≤ Go.cap c →
  (∀ sched,
     Forall (λ a, a ≠ Take ch) sched →
     handler (run sched s) = HSending ch response
     ∧ body (run sched s) = body s)
  ∧ (∀ x rest,
       Go.buf c = x :: rest →
       let s1 := step Handler (step (Take ch) s) in
       sinks s1
       = <[ch := Go.Chan (rest ++ [response]) (Go.cap c) false]> (sinks s)
       ∧ delivered ch (trace s1) = delivered ch (trace s) ++ [response]
       ∧ handler s1 = HDecode).
Proof.
  intros Hc Hh Hl Hcl Hroom Hcap. split.
  - intros sched Hs.
    destruct (full_sink_run sched s ch response c Hs Hh Hl Hcl Hroom)
      as (H1 & H2 & _). done.
  - intros x rest Hbuf; cbn zeta.
    assert (step (Take ch) s
            = set_sinks (<[ch := Go.Chan rest (Go.cap c) false]> (sinks s)) s)
      as ->.
    { rewrite step_unfold. rewrite Hc. unfold take_chunk, Go.recv.
      by rewrite Hl, Hbuf, Hcl. }
    rewrite step_handler by done. unfold Bridge; cbn. rewrite Hh.
    rewrite (Bridge_deliver_sent _ _ _ (Go.Chan rest (Go.cap c) false)); cbn.
    + rewrite insert_insert_eq.
      destruct (resp_Last response); cbn;
        rewrite delivered_snoc; by case_decide.
    + by rewrite lookup_insert_eq.
    + done.
    + unfold Go.has_room; cbn. rewrite Hbuf in Hcap. cbn in Hcap.
      apply Nat.ltb_lt. lia.
Qed.

(** ** Moves that pass a request by *)

Lemma requeues_snoc p t e :
  requeues p (t ++ [e])
  = requeues p t + (if decide (e = EvRequeue p) then 1 else 0).
Proof.
  unfold requeues. rewrite filter_app, length_app, filter_cons, filter_nil.
  by case_decide.
Qed.

Lemma queued_at_insert p ns0 (q : Go.chan ptr) s ns :
  queued_at p ns (set_queues (<[ns0 := q]> (queues s)) s)
  = if decide (ns = ns0) then length (filter (λ x, x = p) (Go.buf q))
    else queued_at p ns s.
Proof.
  unfold queued_at; cbn. case_decide as Hns.
  - subst. by rewrite lookup_insert_eq.
  - by rewrite lookup_insert_ne.
Qed.

Lemma engaged_set_writer_pc p ch i ns pc s j wr :
  writers s !! i = Some wr →
  engaged p ch j (set_writer_pc i ns pc s)
  = if decide (j = i) then engagement_of p ch pc else engaged p ch j s.
Proof.
  intros Hi. unfold engaged; cbn. case_decide as Hj.
  - subst. rewrite list_lookup_insert_eq; [done|by eapply lookup_lt_Some].
  - by rewrite list_lookup_insert_ne.
Qed.

Lemma engaged_set_writer_pc_free p ch i ns pc s j wr :
  writers s !! i = Some wr →
  engagement_of p ch pc = engagement_of p ch (w_pc wr) →
  engaged p ch j (set_writer_pc i ns pc s) = engaged p ch j s.
Proof.
  intros Hi Heq. rewrite (engaged_set_writer_pc _ _ _ _ _ _ _ wr Hi).
  case_decide; [|done]. subst. unfold engaged. by rewrite Hi.
Qed.

Lemma engaged_spawn p ch ns s j :
  engaged p ch j (spawn ns s) = engaged p ch j s.
Proof.
  unfold engaged; cbn. destruct (writers s !! j) as [wr|] eqn:Hj.
  - by rewrite (lookup_app_l_Some _ _ _ _ Hj).
  - apply lookup_ge_None in Hj. rewrite lookup_app_r by done.
    by destruct (j - length (writers s)).
Qed.

Lemma same_view_refl p ch s : same_view p ch s s.
Proof. by repeat split. Qed.

Lemma same_view_trans p ch s1 s2 s3 :
  same_view p ch s1 s2 → same_view p ch s2 s3 → same_view p ch s1 s3.
Proof.
  intros (H1 & H2 & H3 & H4 & H5) (G1 & G2 & G3 & G4 & G5).
  split; [congruence|]. split; [congruence|]. split; [congruence|].
  split; intros x; [by rewrite G4|by rewrite G5].
Qed.

(** A move that changes neither the queues, the writers nor the heap and
    that adds one event which is no re-enqueue of [p] and no delivery to
    [ch], or none at all. *)
Lemma same_view_quiet p ch s s' :
  heap s' = heap s →
  queues s' = queues s →
  writers s' = writers s →
  (trace s' = trace s
   ∨ ∃ e, trace s' = trace s ++ [e]
          ∧ e ≠ EvRequeue p ∧ ∀ r, e ≠ EvDeliver ch r) →
  same_view p ch s s'.
Proof.
  intros Hh Hq Hw Ht. unfold same_view, queued_at, engaged.
  rewrite Hh, Hq, Hw.
  destruct Ht as [->|(e & -> & He1 & He2)]; [done|].
  rewrite requeues_snoc, delivered_snoc, decide_False by done.
  split; [done|]. split; [lia|]. split; [|done].
  destruct e as [| |ch' r| | |]; rewrite ?app_nil_r; try done.
  case_decide; [|by rewrite app_nil_r]. subst. by destruct (He2 r).
Qed.

Lemma frame_nodes p ch sess nodes s :
  standing p ch s →
  standing p ch (Bridge_nodes transport sess nodes s)
  ∧ same_view p ch s (Bridge_nodes transport sess nodes s).
Proof.
  revert s. induction nodes as [|[node|] nodes IH]; intros s Hst; cbn.
  - destruct Hst as (Hm & Hh & Hu). split; [by split|].
    by apply same_view_quiet; [..|left].
  - destruct (FindNodeSession (node_Id node) (cache s)) as [found c1].
    destruct (match found with
              | Some ns => (Go.Ok ns, c1)
              | None => CreateNodeSession node c1
              end) as [[ns|e] c2].
    + set (s1 := spawn ns _).
      assert (standing p ch s1) as Hst1 by exact Hst.
      destruct (IH s1 Hst1) as [IH1 IH2]. split; [done|].
      eapply same_view_trans; [|exact IH2].
      unfold same_view; cbn.
      rewrite requeues_snoc, delivered_snoc, decide_False, app_nil_r by done.
      split; [done|]. split; [lia|]. split; [done|]. split; [done|].
      intros j. apply (engaged_spawn p ch ns (set_cache _ s)).
    + destruct Hst as (Hm & Hh & Hu). split; [by split|].
      apply same_view_quiet; [done..|right]. eexists. by split.
  - destruct Hst as (Hm & Hh & Hu). split; [by split|].
    by apply same_view_quiet; [..|left].
Qed.

Lemma frame_Bridge p ch s :
  standing p ch s →
  standing p ch (Bridge transport s)
  ∧ same_view p ch s (Bridge transport s).
Proof.
  intros Hst. pose proof Hst as (Hm & Hh & Hu).
  unfold Bridge. destruct (handler s) as [| | |ch' r| |] eqn:Hpc.
  - split; [by split|]. by apply same_view_quiet; [..|left].
  - unfold Bridge_handshake.
    destruct (Decode as_handshake (body s)) as [[ci|] b|].
    + set (s1 := set_requestMap ∅ (set_body b s)).
      assert (standing p ch s1) as Hst1.
      { split; [|split]; cbn; [|by rewrite Hpc|done].
        intros id. by rewrite lookup_empty. }
      destruct (frame_nodes p ch (ci_Sessions ci) (ci_Nodes ci) s1 Hst1)
        as [H1 H2]. split; [done|].
      eapply same_view_trans; [|exact H2].
      by apply same_view_quiet; [..|left].
    + split; [by split|]. apply same_view_quiet; [done..|right].
      eexists. by split.
    + split; [done|apply same_view_refl].
  - unfold Bridge_decode.
    destruct (Decode as_response (body s)) as [[response|] b|].
    + cbn. destruct (requestMap s !! resp_Id response) as [p'|] eqn:Hl.
      * destruct (heap s !! p') as [request|] eqn:Hl'.
        -- split; [|by apply same_view_quiet; [..|left]].
           split; [done|]. split; [|done]. cbn.
           intros r [= Hch _]. apply (Hu _ _ Hl') in Hch as ->.
           by eapply Hm.
        -- split; [by split|]. by apply same_view_quiet; [..|left].
      * split; [|by apply same_view_quiet; [..|left]].
        split; [done|]. split; [|done]. cbn. by rewrite Hpc.
    + split.
      * split; [done|]. split; [|done]. cbn. by rewrite Hpc.
      * apply same_view_quiet; [done..|right]. eexists. by split.
    + split; [done|apply same_view_refl].
  - assert (ch' ≠ ch) as Hne by (intros ->; by eapply Hh).
    unfold Bridge_deliver. destruct (sinks s !! ch') as [c|];
      [|split; [done|apply same_view_refl]].
    destruct (Go.send r c) as [c'| |].
    + destruct (resp_Last r); cbn.
      * split.
        -- split; [|by split]. cbn.
           intros id [_ Hid]%lookup_delete_Some. by eapply Hm.
        -- apply same_view_quiet; [done..|right]. eexists.
           split; [done|]. split; [done|]. congruence.
      * split; [by split|].
        apply same_view_quiet; [done..|right]. eexists.
        split; [done|]. split; [done|]. congruence.
    + split; [done|apply same_view_refl].
    + split; [by split|]. by apply same_view_quiet; [..|left].
  - split; [done|apply same_view_refl].
  - split; [done|apply same_view_refl].
Qed.

Lemma frame_panic p ch ns s :
  same_view p ch s (writer_panic ns s).
Proof. apply same_view_quiet; [done..|right]. eexists. by split. Qed.

Lemma filter_snoc_other p (l : list ptr) p' :
  p' ≠ p → filter (λ x, x = p) (l ++ [p']) = filter (λ x, x = p) l.
Proof.
  intros Hne. rewrite filter_app, filter_cons, filter_nil.
  rewrite decide_False by done. by rewrite app_nil_r.
Qed.

Lemma frame_requeue p ch i ns p' s wr :
  p' ≠ p →
  writers s !! i = Some wr →
  engagement_of p ch (w_pc wr) = Free →
  same_view p ch s (writer_requeue i ns p' s).
Proof.
  intros Hne Hi Hfree. unfold writer_requeue.
  assert (∀ s0 : State C,
            heap s0 = heap s → queues s0 = queues s →
            writers s0 = writers s → trace s0 = trace s →
            same_view p ch s
              (set_writer_pc i ns WRange (emit (EvDrop p') s0))) as Hdrop.
  { intros s0 Hh Hq Hw Ht. unfold same_view; cbn.
    rewrite Hh, Ht, requeues_snoc, delivered_snoc, decide_False, app_nil_r
      by done.
    split; [done|]. split; [lia|]. split; [done|]. split.
    - intros ns'. unfold queued_at; cbn. by rewrite Hq.
    - intros j. unfold engaged; cbn. rewrite Hw.
      destruct (decide (j = i)) as [->|Hj].
      + rewrite list_lookup_insert_eq by (by eapply lookup_lt_Some).
        by rewrite Hi, Hfree.
      + by rewrite list_lookup_insert_ne. }
  destruct (queues s !! ns) as [q|] eqn:Hq.
  - unfold Go.send. destruct (Go.closed q); [by apply frame_panic|].
    destruct (Go.has_room q).
    + unfold same_view; cbn.
      rewrite requeues_snoc, delivered_snoc, decide_False, app_nil_r
        by congruence.
      split; [done|]. split; [lia|]. split; [done|]. split.
      * intros ns'. unfold queued_at; cbn.
        destruct (decide (ns' = ns)) as [->|Hns].
        -- rewrite lookup_insert_eq, Hq; cbn.
           by rewrite filter_snoc_other.
        -- by rewrite lookup_insert_ne.
      * intros j. unfold engaged; cbn.
        destruct (decide (j = i)) as [->|Hj].
        -- rewrite list_lookup_insert_eq by (by eapply lookup_lt_Some).
           by rewrite Hi, Hfree.
        -- by rewrite list_lookup_insert_ne.
    + by apply Hdrop.
  - by apply Hdrop.
Qed.

Lemma engaged_repoint p ch i ns pc (s s0 : State C) wr j :
  writers s0 = writers s →
  writers s !! i = Some wr →
  engagement_of p ch (w_pc wr) = Free →
  engagement_of p ch pc = Free →
  engaged p ch j (set_writer_pc i ns pc s0) = engaged p ch j s.
Proof.
  intros Hw Hi Hfree Hpc. unfold engaged; cbn. rewrite Hw.
  destruct (decide (j = i)) as [->|Hj].
  - rewrite list_lookup_insert_eq by (by eapply lookup_lt_Some).
    by rewrite Hi, Hfree.
  - by rewrite list_lookup_insert_ne.
Qed.

(** A writer that has nothing to do with [p] or [ch] leaves the view of
    them as it is. *)
Lemma frame_writer p ch i s :
  heap_owner p ch s →
  touches p ch (WriterOf i) s = false →
  same_view p ch s (writer json_Marshal transport i s).
Proof.
  intros Hu Ht. unfold writer. unfold touches in Ht.
  destruct (writers s !! i) as [[ns pc]|] eqn:Hi; [|apply same_view_refl].
  cbn in Ht |- *. destruct pc as [|p'|ch' r|].
  - unfold writer_range. destruct (queues s !! ns) as [q|] eqn:Hq;
      [|apply same_view_refl].
    apply bool_decide_eq_false in Ht.
    unfold Go.recv. destruct (Go.buf q) as [|p' rest] eqn:Hbuf.
    + destruct (Go.closed q); [|apply same_view_refl].
      unfold same_view; cbn.
      rewrite requeues_snoc, delivered_snoc, decide_False, app_nil_r by done.
      split; [done|]. split; [lia|]. split; [done|]. split; [done|].
      intros j. by eapply (engaged_repoint p ch i ns WReturned s).
    + assert (p' ≠ p) as Hne by (intros ->; by apply Ht).
      unfold same_view; cbn.
      split; [done|]. split; [done|]. split; [done|]. split.
      * intros ns'. unfold queued_at; cbn.
        destruct (decide (ns' = ns)) as [->|Hns].
        -- rewrite lookup_insert_eq, Hq, Hbuf; cbn [Go.buf].
           by rewrite filter_cons, decide_False.
        -- by rewrite lookup_insert_ne.
      * intros j. eapply (engaged_repoint p ch i ns (WHolding p') s);
          [done..|]. cbn. by rewrite decide_False.
  - apply bool_decide_eq_false in Ht.
    assert (engagement_of p ch (WHolding p') = Free) as Hfree.
    { cbn. by rewrite decide_False. }
    unfold writer_body. destruct (heap s !! p') as [request|] eqn:Hl;
      [|by apply frame_panic].
    assert (Responses request ≠ ch) as Hch.
    { intros Heq. by apply (Hu _ _ Hl) in Heq. }
    destruct (json_Marshal (Request request)) as [bytes|e].
    + destruct (rw_Write transport bytes (w _)) as [[e|] w'] eqn:Hwr.
      * cbn. set (s1 := set_heap _ _).
        assert (same_view p ch s s1) as Hv1.
        { unfold same_view; cbn.
          rewrite lookup_insert_ne, requeues_snoc, delivered_snoc,
            decide_False, app_nil_r by done.
          split; [done|]. split; [lia|]. done. }
        destruct (Go.int_incr (Retries request) <? 15)%Z.
        -- eapply same_view_trans; [exact Hv1|].
           by apply (frame_requeue p ch i ns p' s1
                       {| w_session := ns; w_pc := WHolding p' |}).
        -- eapply same_view_trans; [exact Hv1|].
           unfold same_view; cbn.
           split; [done|]. split; [done|]. split; [done|]. split; [done|].
           intros j. eapply (engaged_repoint p ch i ns _ s1); [done..|].
           cbn. by rewrite decide_False.
      * cbn. unfold same_view; cbn.
        rewrite requeues_snoc, delivered_snoc, decide_False, app_nil_r
          by done.
        split; [done|]. split; [lia|]. split; [done|]. split; [done|].
        intros j. by eapply (engaged_repoint p ch i ns WRange s).
    + unfold same_view; cbn.
      split; [done|]. split; [done|]. split; [done|]. split; [done|].
      intros j. eapply (engaged_repoint p ch i ns _ s); [done..|].
      cbn. by rewrite decide_False.
  - apply bool_decide_eq_false in Ht.
    assert (engagement_of p ch (WSending ch' r) = Free) as Hfree.
    { cbn. by rewrite decide_False. }
    unfold writer_send. destruct (sinks s !! ch') as [c|];
      [|apply same_view_refl].
    destruct (Go.send r c) as [c'| |];
      [|apply same_view_refl|by apply frame_panic].
    unfold same_view; cbn.
    rewrite requeues_snoc, delivered_snoc, !decide_False, app_nil_r by done.
    split; [done|]. split; [lia|]. split; [done|]. split; [done|].
    intros j. by eapply (engaged_repoint p ch i ns WRange s).
  - apply same_view_refl.
Qed.

(** What any move of a writer does to the handler, the request body, the
    correlator and the heap. *)
Lemma writer_effects i s :
  let s' := writer json_Marshal transport i s in
  handler s' = handler s
  ∧ body s' = body s
  ∧ writer_effect i s s'.
Proof.
  cbn zeta. unfold writer.
  destruct (writers s !! i) as [[ns pc]|] eqn:Hi;
    [|by split; [|split; [|left]]].
  cbn. destruct pc as [|p'|ch' r|].
  - unfold writer_range. destruct (queues s !! ns) as [q|];
      [|by split; [|split; [|left]]].
    by destruct (Go.recv q); (split; [|split; [|left]]).
  - unfold writer_body. destruct (heap s !! p') as [request|] eqn:Hl;
      [|by split; [|split; [|left]]].
    destruct (json_Marshal (Request request)) as [bytes|e];
      [|by split; [|split; [|left]]].
    destruct (rw_Write transport bytes (w _)) as [[e|] w'] eqn:Hwr.
    + cbn. set (s1 := set_heap _ _).
      assert (writer_effect i s s1) as Heff.
      { right. exists ns, p', request. split; [done|]. split; [done|].
        split; [right; cbn; by rewrite delete_insert_eq|].
        right. by eexists. }
      destruct (Go.int_incr (Retries request) <? 15)%Z; [|done].
      unfold writer_requeue. destruct (queues s1 !! ns) as [q|]; [|done].
      by destruct (Go.send p' q).
    + cbn. split; [done|]. split; [done|]. right.
      exists ns, p', request. split; [done|]. split; [done|].
      split; [by left|by left].
  - unfold writer_send. destruct (sinks s !! ch') as [c|];
      [|by split; [|split; [|left]]].
    by destruct (Go.send r c); (split; [|split; [|left]]).
  - by split; [|split; [|left]].
Qed.

Lemma heap_owner_effect p ch i s s' :
  writer_effect i s s' → heap_owner p ch s → heap_owner p ch s'.
Proof.
  intros [[_ Hh]|(ns & p' & r' & _ & Hl & _ & [Hh|[z Hh]])] Hu;
    unfold heap_owner; rewrite Hh; [done|done|].
  intros p1 r1 [[<- <-]|[_ Hl1]]%lookup_insert_Some; cbn; by eapply Hu.
Qed.

Lemma standing_writer p ch i s :
  standing p ch s →
  touches p ch (WriterOf i) s = false →
  standing p ch (writer json_Marshal transport i s)
  ∧ same_view p ch s (writer json_Marshal transport i s).
Proof.
  intros (Hm & Hh & Hu) Ht.
  destruct (writer_effects i s) as (H1 & _ & Heff).
  split; [|by apply frame_writer].
  split; [|split; [by rewrite H1|by eapply heap_owner_effect]].
  destruct Heff as [[-> _]|(ns & p' & r' & Hi & Hl & Hmap & _)]; [done|].
  assert (p' ≠ p) as Hne.
  { unfold touches in Ht. rewrite Hi in Ht. cbn in Ht.
    by apply bool_decide_eq_false in Ht. }
  destruct Hmap as [-> | ->]; intros id.
  - intros [[_ ?]|[_ Hid]]%lookup_insert_Some; [done|by eapply Hm].
  - intros [_ Hid]%lookup_delete_Some. by eapply Hm.
Qed.

Lemma frame_step p ch a s :
  standing p ch s →
  touches p ch a s = false →
  standing p ch (step a s) ∧ same_view p ch s (step a s).
Proof.
  intros Hst Ht. rewrite step_unfold.
  destruct (crashed s); [split; [done|apply same_view_refl]|].
  destruct a as [|i|ns p'|ch'].
  - by apply frame_Bridge.
  - by apply standing_writer.
  - cbn in Ht. apply bool_decide_eq_false in Ht.
    unfold enqueue_request. destruct (queues s !! ns) as [q|] eqn:Hq;
      [|split; [done|apply same_view_refl]].
    unfold Go.send. destruct (Go.closed q);
      [split; [done|apply same_view_refl]|].
    destruct (Go.has_room q); [|split; [done|apply same_view_refl]].
    split; [exact Hst|]. unfold same_view; cbn.
    split; [done|]. split; [done|]. split; [done|]. split; [|done].
    intros ns'. unfold queued_at; cbn.
    destruct (decide (ns' = ns)) as [->|Hns].
    + rewrite lookup_insert_eq, Hq; cbn. by rewrite filter_snoc_other.
    + by rewrite lookup_insert_ne.
  - unfold take_chunk. destruct (sinks s !! ch') as [c|];
      [|split; [done|apply same_view_refl]].
    destruct (Go.recv c) as [x c'| |];
      [|split; [done|apply same_view_refl]..].
    split; [exact Hst|]. by apply same_view_quiet; [..|left].
Qed.

(** ** The moves of a writer on a request whose writes fail *)

Lemma int_incr_small (r : Z) :
  (- 2 ^ 63 ≤ r + 1 < 2 ^ 63)%Z → Go.int_incr r = (r + 1)%Z.
Proof.
  intros Hr. unfold Go.int_incr, Go.int_wrap.
  rewrite Z.mod_small; lia.
Qed.

Lemma at_place_same_view p ch pl s s' :
  same_view p ch s s' → at_place p ch pl s → at_place p ch pl s'.
Proof.
  intros (_ & _ & _ & Hq & He) Hpl.
  destruct pl; destruct Hpl as [H1 H2];
    (split; [intros ns'; by rewrite Hq|intros j; by rewrite He]).
Qed.

Lemma tracked_frame rq p ch n0 D0 a s :
  touches p ch a s = false →
  tracked rq p ch n0 D0 s →
  tracked rq p ch n0 D0 (step a s).
Proof.
  intros Ht (Hst & pl & r & n & D & Hp & Hn & HD & Hpl & Hacc).
  destruct (frame_step p ch a s Hst Ht) as [Hst' Hv].
  split; [done|]. exists pl, r, n, D.
  pose proof Hv as (H1 & H2 & H3 & _ & _).
  rewrite H1, H2, H3. split; [done|]. split; [done|]. split; [done|].
  split; [by eapply at_place_same_view|done].
Qed.

Lemma queued_at_head p ns s q rest :
  queues s !! ns = Some q →
  Go.buf q = p :: rest →
  queued_at p ns s = S (length (filter (λ x, x = p) rest)).
Proof.
  intros Hq Hbuf. unfold queued_at.
  by rewrite Hq, Hbuf, filter_cons, decide_True.
Qed.

Lemma engaged_lookup p ch i s wr :
  writers s !! i = Some wr →
  engaged p ch i s = engagement_of p ch (w_pc wr).
Proof. intros Hi. unfold engaged. by rewrite Hi. Qed.

(** The writer takes [p] off the queue. *)
Lemma tracked_dequeue rq p ch n0 D0 i ns s q rest :
  crashed s = false →
  writers s !! i = Some {| w_session := ns; w_pc := WRange |} →
  queues s !! ns = Some q →
  Go.buf q = p :: rest →
  tracked rq p ch n0 D0 s →
  tracked rq p ch n0 D0 (step (WriterOf i) s).
Proof.
  intros Hc Hi Hq Hbuf (Hst & pl & r & n & D & Hp & Hn & HD & Hpl & Hacc).
  pose proof (queued_at_head p ns s q rest Hq Hbuf) as Hqa.
  assert (∃ ns0, pl = Queued ns0) as [ns0 ->].
  { destruct pl as [ns0| | | |]; [by eexists|..];
      destruct Hpl as [H1 _]; specialize (H1 ns); lia. }
  destruct Hpl as [H1 H2].
  assert (ns0 = ns) as ->.
  { pose proof (H1 ns) as Hx. case_decide; [done|lia]. }
  assert (filter (λ x, x = p) rest = []) as Hrest.
  { pose proof (H1 ns) as Hx. rewrite decide_True in Hx by done.
    apply length_zero_iff_nil. lia. }
  rewrite (step_writer _ _ _ Hc Hi); cbn.
  unfold writer_range, Go.recv. rewrite Hq, Hbuf.
  split; [exact Hst|]. exists (Held i), r, n, D.
  split; [done|]. split; [done|]. split; [done|]. split; [|done].
  split.
  - intros ns'. unfold queued_at; cbn.
    destruct (decide (ns' = ns)) as [->|Hns].
    + rewrite lookup_insert_eq; cbn. by rewrite Hrest.
    + rewrite lookup_insert_ne by done. pose proof (H1 ns') as Hx.
      by rewrite decide_False in Hx.
  - intros j. unfold engaged; cbn.
    destruct (decide (j = i)) as [->|Hj].
    + rewrite list_lookup_insert_eq by (by eapply lookup_lt_Some).
      cbn. by rewrite decide_True.
    + rewrite list_lookup_insert_ne by done. apply H2.
Qed.

(** The writer sends the final error chunk. *)
Lemma tracked_send rq p ch n0 D0 i ns s response :
  crashed s = false →
  writers s !! i = Some {| w_session := ns; w_pc := WSending ch response |} →
  tracked rq p ch n0 D0 s →
  tracked rq p ch n0 D0 (step (WriterOf i) s).
Proof.
  intros Hc Hi (Hst & pl & r & n & D & Hp & Hn & HD & Hpl & Hacc).
  pose proof (engaged_lookup p ch i s _ Hi) as Hei. cbn in Hei.
  rewrite decide_True in Hei by done.
  assert (∃ e, pl = Failing i e ∧ response = send_failed e) as (e & -> & ->).
  { destruct pl as [|i0|i0 e| |]; destruct Hpl as [_ H2];
      specialize (H2 i); rewrite Hei in H2; try done.
    - by case_decide.
    - case_decide; [|done]. subst. exists e. split; [done|congruence]. }
  destruct Hpl as [H1 H2]. destruct Hacc as (-> & Hn14 & ->).
  rewrite (step_writer _ _ _ Hc Hi); cbn. unfold writer_send.
  assert (tracked rq p ch n0 D0 s) as Hsame.
  { split; [done|]. exists (Failing i e), 15%Z, n, []. by repeat split. }
  destruct (sinks s !! ch) as [c|]; [|done].
  destruct (Go.send (send_failed e) c) as [c'| |]; [|done|].
  - split; [exact Hst|]. exists (Failed e), 15%Z, n, [send_failed e].
    cbn. rewrite requeues_snoc, delivered_snoc, HD.
    do 2 case_decide; try done.
    split; [done|]. split; [lia|]. split; [by rewrite app_nil_r|].
    split; [|done].
    split; [done|]. intros j. unfold engaged; cbn.
    destruct (decide (j = i)) as [->|Hj].
    + by rewrite list_lookup_insert_eq by (by eapply lookup_lt_Some).
    + rewrite list_lookup_insert_ne by done. specialize (H2 j).
      by rewrite decide_False in H2.
  - split; [exact Hst|]. exists (Failing i e), 15%Z, n, [].
    cbn. rewrite requeues_snoc, delivered_snoc, decide_False, app_nil_r
      by done.
    split; [done|]. split; [lia|]. by repeat split.
Qed.

(** The writer tries to write [p], and the write fails. *)
Lemma tracked_attempt rq bytes p ch n0 D0 i ns s :
  (∀ k, is_Some (transport k)) →
  json_Marshal rq = Go.Ok bytes →
  crashed s = false →
  writers s !! i = Some {| w_session := ns; w_pc := WHolding p |} →
  tracked rq p ch n0 D0 s →
  tracked rq p ch n0 D0 (step (WriterOf i) s).
Proof.
  intros Hfail Hmar Hc Hi
    (Hst & pl & r & n & D & Hp & Hn & HD & Hpl & Hacc).
  pose proof (engaged_lookup p ch i s _ Hi) as Hei. cbn in Hei.
  rewrite decide_True in Hei by done.
  assert (pl = Held i) as ->.
  { destruct pl as [|i0|i0 e| |]; destruct Hpl as [_ H2];
      specialize (H2 i); rewrite Hei in H2; try done.
    - case_decide; [by subst|done].
    - by case_decide. }
  destruct Hpl as [H1 H2]. destruct Hacc as (Hr & Hnr & ->).
  destruct (Hfail (attempts (w s))) as [e He].
  rewrite (step_writer _ _ _ Hc Hi); cbn.
  rewrite (writer_body_write_fails _ _ _ _ _ bytes e Hp Hmar He); cbn zeta.
  cbn [Request Responses Retries].
  rewrite int_incr_small by lia.
  set (s1 := after_failed_write s p _ bytes).
  destruct Hst as (Hm & Hh & Hu).
  assert (standing p ch s1) as Hst1.
  { split; [|split]; unfold heap_owner; cbn; [|done|].
    - intros id [_ Hid]%lookup_delete_Some. by eapply Hm.
    - intros p1 r1 [[<- <-]|[_ Hid]]%lookup_insert_Some; cbn;
        [done|by eapply Hu]. }
  assert (heap s1 !! p
          = Some {| Request := rq; Responses := ch;
                    Retries := (r + 1)%Z |}) as Hp1.
  { cbn. rewrite lookup_insert_eq. by rewrite int_incr_small by lia. }
  assert (requeues p (trace s1) = n0 + n) as Hn1.
  { cbn. rewrite requeues_snoc, decide_False by done. lia. }
  assert (delivered ch (trace s1) = D0 ++ []) as HD1.
  { cbn. by rewrite delivered_snoc, app_nil_r. }
  assert (∀ pc, ∀ j,
            engaged p ch j (set_writer_pc i ns pc s1)
            = if decide (j = i) then engagement_of p ch pc else Free)
    as Heng.
  { intros pc j. unfold engaged; cbn.
    destruct (decide (j = i)) as [->|Hj].
    - by rewrite list_lookup_insert_eq by (by eapply lookup_lt_Some).
    - rewrite list_lookup_insert_ne by done. specialize (H2 j).
      by rewrite decide_False in H2. }
  assert ((r + 1 < 15)%Z →
          tracked rq p ch n0 D0
            (set_writer_pc i ns WRange (emit (EvDrop p) s1))) as Hdrop.
  { intros Hlt. split; [exact Hst1|]. exists Lost, (r + 1)%Z, n, [].
    split; [done|]. cbn [trace set_writer_pc set_writers emit set_trace].
    rewrite requeues_snoc, delivered_snoc, decide_False, app_nil_r by done.
    split; [rewrite Hn1; lia|]. split; [done|]. split.
    - split; [done|]. intros j.
      pose proof (Heng WRange j) as Hx. cbn in Hx.
      unfold engaged in Hx |- *. cbn in Hx |- *. rewrite Hx.
      by case_decide.
    - cbn. split; [lia|]. split; [lia|done]. }
  destruct (r + 1 <? 15)%Z eqn:Hlt.
  - apply Z.ltb_lt in Hlt. unfold writer_requeue.
    destruct (queues s1 !! ns) as [q|] eqn:Hq; [|by apply Hdrop].
    unfold Go.send. destruct (Go.closed q).
    + split; [exact Hst1|]. exists (Held i), (r + 1)%Z, n, [].
      split; [done|]. cbn [trace writer_panic set_crashed emit set_trace
                             set_cache].
      rewrite requeues_snoc, delivered_snoc, decide_False, app_nil_r by done.
      split; [lia|]. split; [done|]. split; [by split|].
      cbn. split; [lia|]. split; [lia|done].
    + destruct (Go.has_room q); [|by apply Hdrop].
      split; [exact Hst1|]. exists (Queued ns), (r + 1)%Z, (S n), [].
      split; [done|]. cbn [trace set_writer_pc set_writers emit set_trace
                             set_queues].
      rewrite requeues_snoc, delivered_snoc, decide_True, app_nil_r by done.
      split; [lia|]. split; [done|]. split.
      * split.
        -- intros ns'. unfold queued_at; cbn.
           destruct (decide (ns' = ns)) as [->|Hns].
           ++ rewrite lookup_insert_eq; cbn.
              rewrite filter_app, length_app, filter_cons, filter_nil.
              rewrite decide_True by done. cbn.
              specialize (H1 ns). unfold queued_at in H1.
              cbn in Hq. rewrite Hq in H1. lia.
           ++ rewrite lookup_insert_ne by done. apply (H1 ns').
        -- intros j.
           pose proof (Heng WRange j) as Hx. cbn in Hx.
           unfold engaged in Hx |- *. cbn in Hx |- *. rewrite Hx.
           by case_decide.
      * cbn. split; [lia|]. split; [lia|done].
  - apply Z.ltb_ge in Hlt.
    split; [exact Hst1|]. exists (Failing i e), 15%Z, n, [].
    split; [etrans; [exact Hp1|]; repeat f_equal; lia|]. split; [done|].
    split; [done|]. split.
    + split; [done|]. intros j.
      etrans; [exact (Heng (WSending ch (send_failed e)) j)|]. cbn.
      destruct (decide (j = i)); [|done]. by rewrite decide_True.
    + cbn. split; [done|]. split; [lia|done].
Qed.

Lemma tracked_step rq bytes p ch n0 D0 a s :
  (∀ k, is_Some (transport k)) →
  json_Marshal rq = Go.Ok bytes →
  is_enqueue_of p a = false →
  tracked rq p ch n0 D0 s →
  tracked rq p ch n0 D0 (step a s).
Proof.
  intros Hfail Hmar Ha Htr.
  destruct (touches p ch a s) eqn:Ht; [|by apply tracked_frame].
  destruct (crashed s) eqn:Hc.
  { rewrite step_unfold. by rewrite Hc. }
  destruct a as [|i|ns p'|ch']; [done| |cbn in Ha, Ht; congruence|done].
  cbn in Ht. destruct (writers s !! i) as [[ns pc]|] eqn:Hi; [|done].
  cbn in Ht. destruct pc as [|p'|ch' r|]; [| | |done].
  - destruct (queues s !! ns) as [q|] eqn:Hq; [|done].
    apply bool_decide_eq_true in Ht.
    destruct (Go.buf q) as [|x rest] eqn:Hbuf; [done|].
    cbn in Ht. assert (x = p) as -> by congruence.
    by eapply tracked_dequeue.
  - apply bool_decide_eq_true in Ht as ->. by eapply tracked_attempt.
  - apply bool_decide_eq_true in Ht as ->. by eapply tracked_send.
Qed.

Lemma tracked_run rq bytes p ch n0 D0 sched s :
  (∀ k, is_Some (transport k)) →
  json_Marshal rq = Go.Ok bytes →
  Forall (λ a, is_enqueue_of p a = false) sched →
  tracked rq p ch n0 D0 s →
  tracked rq p ch n0 D0 (run sched s).
Proof.
  intros Hfail Hmar Hs. revert s.
  induction Hs as [|a sched Ha _ IH]; intros s Htr; [done|].
  cbn. apply IH. by eapply tracked_step.
Qed.

Lemma filter_absent p (l : list ptr) :
  p ∉ l → filter (λ x, x = p) l = [].
Proof.
  induction l as [|x l IH]; [done|]. intros Hin.
  apply not_elem_of_cons in Hin as [Hne Hin].
  rewrite filter_cons, decide_False by done. by apply IH.
Qed.

Lemma held_only_by_tracked i ns p request s :
  writers s !! i = Some {| w_session := ns; w_pc := WHolding p |} →
  heap s !! p = Some request →
  Retries request = 0%Z →
  held_only_by i p (Responses request) s →
  tracked (Request request) p (Responses request)
    (requeues p (trace s)) (delivered (Responses request) (trace s)) s.
Proof.
  intros Hi Hp Hr (Hq & Hw & Hm & Hh & Hu).
  split; [by split|]. exists (Held i), 0%Z, 0, [].
  split; [destruct request; cbn in *; by subst|].
  split; [lia|]. split; [by rewrite app_nil_r|]. split.
  - split.
    + intros ns'. unfold queued_at.
      destruct (queues s !! ns') as [q|] eqn:Hl; [|done].
      rewrite filter_absent; [done|]. by eapply Hq.
    + intros j. unfold engaged.
      destruct (decide (j = i)) as [->|Hj].
      * rewrite Hi. cbn. by rewrite decide_True.
      * destruct (writers s !! j) as [wr|] eqn:Hl; [|done].
        destruct (Hw _ _ Hl) as [H1 H2].
        destruct (w_pc wr) as [|p'|ch' r|]; cbn; try done.
        -- rewrite decide_False; [done|]. intros ->. by apply Hj, H1.
        -- rewrite decide_False; [done|]. intros ->. by eapply H2.
  - cbn. split; [lia|]. split; [lia|done].
Qed.


(** ** The order of the chunks of a request *)

Lemma promote_Id r : resp_Id (promote r) = resp_Id r.
Proof. unfold promote. by destruct (resp_Error r). Qed.

Lemma routes_true i ch s :
  routes i ch s = true ↔
  ∃ p r, requestMap s !! i = Some p ∧ heap s !! p = Some r
         ∧ Responses r = ch.
Proof.
  unfold routes. split.
  - destruct (requestMap s !! i) as [p|] eqn:Hm; [|done].
    destruct (heap s !! p) as [r|] eqn:Hp; [|done].
    intros ?%bool_decide_eq_true. by exists p, r.
  - intros (p & r & Hm & Hp & Hch). rewrite Hm, Hp.
    by apply bool_decide_eq_true.
Qed.

Local Ltac split4 := split; [|split; [|split]].

Lemma reader_decode_stream i ch s :
  handler s = HDecode →
  sole_route i ch s →
  let s' := Bridge_decode s in
  sole_route i ch s'
  ∧ in_read_loop i ch s'
  ∧ delivered ch (trace s') = delivered ch (trace s)
  ∧ (handler s' ≠ HPanicked →
     still_expected i ch s = still_expected i ch s').
Proof.
  intros Hh Hsr; cbn zeta. unfold Bridge_decode, Decode.
  destruct (frames (body s)) as [|f rest] eqn:Hf.
  - destruct (ended (body s)) eqn:He.
    + split4; [done| |by cbn; rewrite delivered_snoc, app_nil_r|].
      * unfold in_read_loop; cbn. by rewrite Hh.
      * intros _. unfold still_expected, routes; cbn. by rewrite Hf.
    + split4; [done| |done|done]. unfold in_read_loop. by rewrite Hh.
  - destruct (as_response f) as [response|] eqn:Hr; cbn.
    + destruct (requestMap s !! resp_Id response) as [p|] eqn:Hm.
      * destruct (heap s !! p) as [request|] eqn:Hp.
        -- split4; [done| |done|].
           ++ unfold in_read_loop, routes; cbn.
              rewrite promote_Id. split.
              ** intros Hch.
                 assert (resp_Id response = i) as Hi by (by eapply Hsr).
                 split; [done|].
                 rewrite <- Hi, Hm, Hp. by apply bool_decide_eq_true.
              ** intros Hch Hi. rewrite <- Hi, Hm, Hp.
                 by apply bool_decide_eq_false.
           ++ intros _. unfold still_expected, routes; cbn.
              rewrite Hh, Hf; cbn. rewrite Hr.
              destruct (decide (Responses request = ch)) as [Hch|Hch].
              ** assert (resp_Id response = i) as Hi by (by eapply Hsr).
                 rewrite decide_True by done.
                 rewrite <- Hi, Hm, Hp, bool_decide_eq_true_2 by done.
                 done.
              ** destruct (decide (resp_Id response = i)) as [Hi|Hi].
                 --- rewrite <- Hi, Hm, Hp, bool_decide_eq_false_2 by done.
                     done.
                 --- done.
        -- split4; [done|done|done|]. intros Hx. by cbn in Hx.
      * split4; [done| |done|].
        -- unfold in_read_loop; cbn. by rewrite Hh.
        -- intros _. unfold still_expected, routes; cbn.
           rewrite Hh, Hf; cbn. rewrite Hr.
           destruct (decide (resp_Id response = i)) as [Hi|Hi]; [|done].
           by rewrite <- Hi, Hm.
    + split4; [done| |by rewrite delivered_snoc, app_nil_r|].
      * unfold in_read_loop; cbn. by rewrite Hh.
      * intros _. unfold still_expected, routes; cbn.
        rewrite Hh, Hf; cbn. by rewrite Hr.
Qed.

Lemma sole_route_delete i ch j s :
  sole_route i ch s →
  sole_route i ch (set_requestMap (delete j (requestMap s)) s).
Proof.
  intros Hsr j' p r Hm Hp Hch. cbn in Hm, Hp.
  apply lookup_delete_Some in Hm as [_ Hm]. by eapply Hsr.
Qed.

Lemma routes_delete_ne i ch j s :
  j ≠ i →
  routes i ch (set_requestMap (delete j (requestMap s)) s) = routes i ch s.
Proof. intros Hne. unfold routes; cbn. by rewrite lookup_delete_ne. Qed.

Lemma routes_delete_eq i ch s :
  routes i ch (set_requestMap (delete i (requestMap s)) s) = false.
Proof. unfold routes; cbn. by rewrite lookup_delete_eq. Qed.

Lemma reader_deliver_stream i ch s ch' r :
  handler s = HSending ch' r →
  sole_route i ch s →
  in_read_loop i ch s →
  let s' := Bridge_deliver ch' r s in
  sole_route i ch s'
  ∧ in_read_loop i ch s'
  ∧ ∃ d,
      delivered ch (trace s') = delivered ch (trace s) ++ d
      ∧ (handler s' ≠ HPanicked →
         still_expected i ch s = d ++ still_expected i ch s')
      ∧ (handler s' = HPanicked → d = []).
Proof.
  intros Hh Hsr Hin; cbn zeta.
  assert ((ch' = ch → resp_Id r = i ∧ routes i ch s = true)
          ∧ (ch' ≠ ch → resp_Id r = i → routes i ch s = false))
    as [Hin1 Hin2].
  { unfold in_read_loop in Hin. by rewrite Hh in Hin. }
  unfold Bridge_deliver. destruct (sinks s !! ch') as [c|].
  2: { split; [done|]. split; [done|]. exists []. by rewrite app_nil_r. }
  destruct (Go.send r c) as [c'| |].
  2: { split; [done|]. split; [done|]. exists []. by rewrite app_nil_r. }
  2: { split; [done|]. split; [done|]. exists []. by rewrite app_nil_r. }
  destruct (decide (ch' = ch)) as [->|Hne].
  - destruct (Hin1 eq_refl) as [Hi Hroutes].
    destruct (resp_Last r) eqn:Hlast; cbn.
    + split; [by apply (sole_route_delete i ch (resp_Id r) s)|].
      split; [done|]. exists [r].
      split; [by rewrite delivered_snoc, decide_True by done|].
      split; [|done]. intros _.
      unfold still_expected at 1. rewrite Hh, decide_True, Hlast by done.
      unfold still_expected; cbn. rewrite Hi.
      pose proof (routes_delete_eq i ch s) as Hd.
      unfold routes in Hd; cbn in Hd. unfold routes; cbn. by rewrite Hd.
    + split; [done|]. split; [done|]. exists [r].
      split; [by rewrite delivered_snoc, decide_True by done|].
      split; [|done]. intros _.
      unfold still_expected at 1. rewrite Hh, decide_True, Hlast by done.
      done.
  - destruct (resp_Last r) eqn:Hlast; cbn.
    + split; [by apply (sole_route_delete i ch (resp_Id r) s)|].
      split; [done|]. exists [].
      split; [by rewrite delivered_snoc, decide_False, !app_nil_r by done|].
      split; [|done]. intros _.
      unfold still_expected at 1. rewrite Hh, decide_False by done.
      unfold still_expected; cbn.
      destruct (decide (resp_Id r = i)) as [Hi|Hi].
      * rewrite (Hin2 Hne Hi).
        pose proof (routes_delete_eq i ch s) as Hd.
        unfold routes in Hd; cbn in Hd. unfold routes; cbn.
        by rewrite Hi, Hd.
      * pose proof (routes_delete_ne i ch (resp_Id r) s Hi) as Hd.
        unfold routes in Hd; cbn in Hd. unfold routes; cbn. by rewrite Hd.
    + split; [done|]. split; [done|]. exists [].
      split; [by rewrite delivered_snoc, decide_False, !app_nil_r by done|].
      split; [|done]. intros _.
      unfold still_expected at 1. rewrite Hh, decide_False by done.
      done.
Qed.

(** The outcome of one move for the stream of the sink [ch]: the chunks
    [d] it delivers there, taken off what is still expected. *)
Local Abbreviation stream_moves i ch s s' :=
  (∃ d, delivered ch (trace s') = delivered ch (trace s) ++ d
        ∧ (handler s' ≠ HPanicked →
           still_expected i ch s = d ++ still_expected i ch s')
        ∧ (handler s' = HPanicked → d = [])).

Lemma stream_moves_none i ch s s' :
  delivered ch (trace s') = delivered ch (trace s) →
  still_expected i ch s' = still_expected i ch s →
  stream_moves i ch s s'.
Proof. intros Hd He. exists []. by rewrite app_nil_r, Hd, He. Qed.

Lemma reader_keeps_writers i ch a s :
  reader_move a = true →
  in_read_loop i ch s →
  heap (step a s) = heap s
  ∧ queues (step a s) = queues s
  ∧ writers (step a s) = writers s.
Proof.
  intros Ha Hin. rewrite step_unfold. destruct (crashed s); [done|].
  destruct a as [|j|ns p|ch']; [| done | done |].
  - unfold Bridge, in_read_loop in *.
    destruct (handler s) as [| | |ch' r| |]; try done.
    + unfold Bridge_decode.
      destruct (Decode as_response (body s)) as [[response|] b|];
        [|done..]. cbn.
      destruct (requestMap s !! resp_Id response) as [p|]; [|done].
      by destruct (heap s !! p).
    + unfold Bridge_deliver. destruct (sinks s !! ch') as [c|]; [|done].
      destruct (Go.send r c); [|done..]. by destruct (resp_Last r).
  - unfold take_chunk. destruct (sinks s !! ch') as [c|]; [|done].
    by destruct (Go.recv c).
Qed.

Lemma reader_step_stream i ch a s :
  reader_move a = true →
  sole_route i ch s →
  in_read_loop i ch s →
  let s' := step a s in
  sole_route i ch s' ∧ in_read_loop i ch s' ∧ stream_moves i ch s s'.
Proof.
  intros Ha Hsr Hin; cbn zeta.
  assert (∀ s0 : State C,
            sole_route i ch s0 → in_read_loop i ch s0 →
            sole_route i ch s0 ∧ in_read_loop i ch s0
            ∧ stream_moves i ch s0 s0) as Hsame.
  { intros s0 ? ?. split; [done|]. split; [done|].
    by apply stream_moves_none. }
  rewrite step_unfold. destruct (crashed s); [by apply Hsame|].
  destruct a as [|j|ns p|ch']; [| done | done |].
  - unfold Bridge. destruct (handler s) as [| | |ch' r| |] eqn:Hh.
    + unfold in_read_loop in Hin. by rewrite Hh in Hin.
    + unfold in_read_loop in Hin. by rewrite Hh in Hin.
    + destruct (reader_decode_stream i ch s Hh Hsr) as (H1 & H2 & H3 & H4).
      split; [done|]. split; [done|]. exists [].
      rewrite app_nil_r. split; [done|]. split; [|done].
      intros Hnp. by apply H4.
    + by apply reader_deliver_stream.
    + by apply Hsame.
    + by apply Hsame.
  - unfold take_chunk. destruct (sinks s !! ch') as [c|]; [|by apply Hsame].
    destruct (Go.recv c) as [x c'| |]; [|by apply Hsame..].
    split; [done|]. split; [done|]. by apply stream_moves_none.
Qed.

Lemma away_untouched p ch j s :
  away_from_writers p ch s → touches p ch (WriterOf j) s = false.
Proof.
  intros [Hq He]. unfold touches.
  destruct (writers s !! j) as [[ns pc]|] eqn:Hj; [|done]. cbn.
  specialize (He j). unfold engaged in He. rewrite Hj in He.
  cbn [w_pc engagement_of] in He.
  destruct pc as [|p'|ch' r|]; [| | |done].
  - destruct (queues s !! ns) as [q|] eqn:Hl; [|done].
    apply bool_decide_eq_false. intros Hhead.
    destruct (Go.buf q) as [|x rest] eqn:Hbuf; [done|].
    cbn in Hhead. injection Hhead as ->.
    pose proof (queued_at_head p ns s q rest Hl Hbuf) as Hx.
    rewrite Hq in Hx. lia.
  - apply bool_decide_eq_false. intros ->. unfold engagement_of in He.
    by rewrite decide_True in He.
  - apply bool_decide_eq_false. intros ->. unfold engagement_of in He.
    by rewrite decide_True in He.
Qed.

Lemma away_same_view p ch s s' :
  same_view p ch s s' →
  away_from_writers p ch s → away_from_writers p ch s'.
Proof.
  intros (_ & _ & _ & Hq & He) [H1 H2].
  split; [intros ns; by rewrite Hq|intros j; by rewrite He].
Qed.

(** A writer that does not hold [p] leaves the entry under the id of [p]
    and the sink and id of every request as they are. *)
Lemma writer_effect_other p i ch j s s' :
  writer_effect j s s' →
  away_from_writers p ch s →
  id_owner p i s →
  requestMap s' !! i = requestMap s !! i
  ∧ (∀ j0, requestMap s' !! j0 = Some p → requestMap s !! j0 = Some p)
  ∧ (∀ p0 r0, heap s' !! p0 = Some r0 →
       ∃ r1, heap s !! p0 = Some r1 ∧ Request r1 = Request r0
             ∧ Responses r1 = Responses r0)
  ∧ (∀ p0 r1, heap s !! p0 = Some r1 →
       ∃ r0, heap s' !! p0 = Some r0 ∧ Request r1 = Request r0
             ∧ Responses r1 = Responses r0).
Proof.
  intros [[Hm Hh]|(ns & p' & r' & Hj & Hl & Hmap & Hheap)] [_ He] Hid.
  { rewrite Hm, Hh. repeat split; eauto. }
  assert (p' ≠ p) as Hne.
  { intros ->. specialize (He j). unfold engaged in He.
    rewrite Hj in He. cbn in He. by rewrite decide_True in He. }
  assert (rpc_Id (Request r') ≠ i) as Hidne.
  { intros Heq. by apply (Hid _ _ Hl) in Heq. }
  split; [|split; [|split]].
  - destruct Hmap as [-> | ->];
      [by rewrite lookup_insert_ne|by rewrite lookup_delete_ne].
  - intros j0. destruct Hmap as [-> | ->].
    + by intros [[_ ?]|[_ Hx]]%lookup_insert_Some.
    + by intros [_ Hx]%lookup_delete_Some.
  - intros p0 r0. destruct Hheap as [-> |[z ->]]; [by eauto|].
    intros [[<- <-]|[_ Hx]]%lookup_insert_Some; by eauto.
  - intros p0 r1 Hx. destruct Hheap as [-> |[z ->]]; [by eauto|].
    destruct (decide (p0 = p')) as [->|Hp0].
    + rewrite lookup_insert_eq. eexists. split; [done|].
      assert (r1 = r') as -> by congruence. done.
    + rewrite lookup_insert_ne by done. by eauto.
Qed.

Lemma bystander_stream p i ch s s' :
  same_view p ch s s' →
  handler s' = handler s →
  body s' = body s →
  requestMap s' !! i = requestMap s !! i →
  (∀ j0, requestMap s' !! j0 = Some p → requestMap s !! j0 = Some p) →
  (∀ p0 r0, heap s' !! p0 = Some r0 →
     ∃ r1, heap s !! p0 = Some r1 ∧ Request r1 = Request r0
           ∧ Responses r1 = Responses r0) →
  (∀ p0 r1, heap s !! p0 = Some r1 →
     ∃ r0, heap s' !! p0 = Some r0 ∧ Request r1 = Request r0
           ∧ Responses r1 = Responses r0) →
  stream_inv p i ch s →
  stream_inv p i ch s' ∧ stream_moves i ch s s'.
Proof.
  intros Hv Hh Hb Hmi Hmp Hback Hforth (Hsr & Hin & Hu & Hid & Haway).
  assert (routes i ch s' = routes i ch s) as Hroutes.
  { unfold routes. rewrite Hmi.
    destruct (requestMap s !! i) as [p0|]; [|done].
    destruct (heap s !! p0) as [r1|] eqn:H1.
    - destruct (Hforth _ _ H1) as (r0 & -> & _ & ->). done.
    - destruct (heap s' !! p0) as [r0|] eqn:H0; [|done].
      destruct (Hback _ _ H0) as (r1 & Hx & _). congruence. }
  assert (heap_owner p ch s') as Hu'.
  { intros p0 r0 H0 Hch. destruct (Hback _ _ H0) as (r1 & H1 & _ & Hr).
    eapply Hu; [done|congruence]. }
  split.
  - split; [|split; [|split; [|split]]].
    + intros j0 p0 r0 Hm0 H0 Hch.
      assert (p0 = p) as -> by (by eapply Hu').
      destruct (Hback _ _ H0) as (r1 & H1 & _ & Hr).
      eapply Hsr; [by apply Hmp|done|congruence].
    + unfold in_read_loop. rewrite Hh, Hroutes. exact Hin.
    + done.
    + intros p0 r0 H0 Hi. destruct (Hback _ _ H0) as (r1 & H1 & Hr & _).
      eapply Hid; [done|congruence].
    + by eapply away_same_view.
  - apply stream_moves_none; [by destruct Hv as (_ & _ & ? & _)|].
    unfold still_expected. by rewrite Hh, Hb, Hroutes.
Qed.

Lemma frame_enqueue p ch ns p' s :
  p' ≠ p → same_view p ch s (enqueue_request ns p' s).
Proof.
  intros Hne. unfold enqueue_request.
  destruct (queues s !! ns) as [q|] eqn:Hq; [|apply same_view_refl].
  unfold Go.send. destruct (Go.closed q); [apply same_view_refl|].
  destruct (Go.has_room q); [|apply same_view_refl].
  unfold same_view; cbn.
  split; [done|]. split; [done|]. split; [done|]. split; [|done].
  intros ns'. unfold queued_at; cbn.
  destruct (decide (ns' = ns)) as [->|Hns].
  - rewrite lookup_insert_eq, Hq; cbn. by rewrite filter_snoc_other.
  - by rewrite lookup_insert_ne.
Qed.

Lemma stream_step p i ch a s :
  is_enqueue_of p a = false →
  stream_inv p i ch s →
  stream_inv p i ch (step a s) ∧ stream_moves i ch s (step a s).
Proof.
  intros Ha Hinv. pose proof Hinv as (Hsr & Hin & Hu & Hid & Haway).
  destruct (crashed s) eqn:Hc.
  { rewrite step_unfold, Hc. split; [done|]. by apply stream_moves_none. }
  destruct a as [|j|ns p'|ch'].
  - destruct (reader_step_stream i ch Handler s eq_refl Hsr Hin)
      as (H1 & H2 & H3).
    destruct (reader_keeps_writers i ch Handler s eq_refl Hin)
      as (G1 & G2 & G3).
    split; [|done]. split; [done|]. split; [done|].
    unfold heap_owner, id_owner, away_from_writers, queued_at, engaged.
    rewrite G1, G2, G3. done.
  - rewrite step_unfold, Hc.
    destruct (writer_effects j s) as (H1 & H2 & Heff).
    destruct (writer_effect_other p i ch j s _ Heff Haway Hid)
      as (G1 & G2 & G3 & G4).
    apply bystander_stream; try done.
    apply frame_writer; [done|by apply away_untouched].
  - rewrite step_unfold, Hc. cbn in Ha. apply bool_decide_eq_false in Ha.
    apply bystander_stream; try done.
    + by apply frame_enqueue.
    + unfold enqueue_request. destruct (queues s !! ns) as [q|]; [|done].
      by destruct (Go.send p' q).
    + unfold enqueue_request. destruct (queues s !! ns) as [q|]; [|done].
      by destruct (Go.send p' q).
    + unfold enqueue_request. destruct (queues s !! ns) as [q|]; [|done].
      by destruct (Go.send p' q).
    + unfold enqueue_request. destruct (queues s !! ns) as [q|]; [|done].
      by destruct (Go.send p' q).
    + unfold enqueue_request. destruct (queues s !! ns) as [q|];
        [|by eauto]. destruct (Go.send p' q); by eauto.
    + unfold enqueue_request. destruct (queues s !! ns) as [q|];
        [|by eauto]. destruct (Go.send p' q); by eauto.
  - destruct (reader_step_stream i ch (Take ch') s eq_refl Hsr Hin)
      as (H1 & H2 & H3).
    destruct (reader_keeps_writers i ch (Take ch') s eq_refl Hin)
      as (G1 & G2 & G3).
    split; [|done]. split; [done|]. split; [done|].
    unfold heap_owner, id_owner, away_from_writers, queued_at, engaged.
    rewrite G1, G2, G3. done.
Qed.

Lemma panicked_stays a s :
  handler s = HPanicked → handler (step a s) = HPanicked.
Proof.
  intros Hh. rewrite step_unfold. destruct (crashed s); [done|].
  destruct a as [|j|ns p|ch'].
  - unfold Bridge. by rewrite Hh.
  - destruct (writer_effects j s) as (H1 & _). by rewrite H1.
  - unfold enqueue_request. destruct (queues s !! ns) as [q|]; [|done].
    by destruct (Go.send p q).
  - unfold take_chunk. destruct (sinks s !! ch') as [c|]; [|done].
    by destruct (Go.recv c).
Qed.

Lemma panicked_stays_run sched s :
  handler s = HPanicked → handler (run sched s) = HPanicked.
Proof.
  revert s. induction sched as [|a sched IH]; intros s Hh; [done|].
  cbn. apply IH. by apply panicked_stays.
Qed.

Lemma stream_run p i ch sched s :
  Forall (λ a, is_enqueue_of p a = false) sched →
  stream_inv p i ch s →
  ∃ D,
    delivered ch (trace (run sched s)) = delivered ch (trace s) ++ D
    ∧ D `prefix_of` still_expected i ch s
    ∧ (handler (run sched s) ≠ HPanicked →
       still_expected i ch s = D ++ still_expected i ch (run sched s)).
Proof.
  intros Hs. revert s. induction Hs as [|a sched Ha Hs IH]; intros s Hinv.
  - exists []. rewrite app_nil_r. split; [done|].
    split; [apply prefix_nil|done].
  - destruct (stream_step p i ch a s Ha Hinv)
      as (Hinv1 & d & Hd & Hexp & Hpan).
    destruct (IH _ Hinv1) as (D1 & HD1 & Hpre1 & Hexp1).
    exists (d ++ D1). rewrite run_cons.
    split; [by rewrite HD1, Hd, app_assoc|].
    destruct (decide (handler (step a s) = HPanicked)) as [Hp|Hp].
    + rewrite (Hpan Hp). cbn.
      assert (still_expected i ch (step a s) = []) as Hnil.
      { unfold still_expected. by rewrite Hp. }
      rewrite Hnil in Hpre1. apply prefix_nil_inv in Hpre1 as ->.
      split; [apply prefix_nil|].
      intros Hnp. exfalso. apply Hnp. by apply panicked_stays_run.
    + rewrite (Hexp Hp). split.
      * by apply prefix_app.
      * intros Hnp. by rewrite (Hexp1 Hnp), app_assoc.
Qed.


End Properties.

(** * Worked connections *)

Lemma unknown_id_discarded_witness :
  requestMap Scenario.stray !! "zz" = None
  ∧ step Scenario.json Scenario.up Handler Scenario.stray
    = set_body (Scenario.open_body []) Scenario.stray.
Proof.
  split; [reflexivity|].
  refine (proj1 (unknown_id_discarded Scenario.json Scenario.up
                   Scenario.stray (Scenario.chunk "zz" "x" true) [] _
                   _ _ _ _ _)); reflexivity.
Defined.

Lemma error_chunk_is_terminal_witness :
  handler (step Scenario.json Scenario.up Handler Scenario.failing_answer)
  = HSending 11 {| resp_Id := "q1"; resp_Chunk := None;
                   resp_Error := Some {| Message := "boom" |};
                   resp_Last := true |}
  ∧ requestMap
      (run Scenario.json Scenario.up [Handler; Handler]
         Scenario.failing_answer) !! "q1" = None.
Proof.
  destruct (error_chunk_is_terminal Scenario.json Scenario.up
              Scenario.failing_answer (Scenario.failure "q1" "boom") []
              {| resp_Id := "q1"; resp_Chunk := None;
                 resp_Error := Some {| Message := "boom" |};
                 resp_Last := false |}
              1%positive (Scenario.rq "q1" 11))
    as [H1 H2]; [reflexivity..|eexists; reflexivity|reflexivity|reflexivity|].
  split; [exact H1|].
  destruct (H2 (step Scenario.json Scenario.up Handler Scenario.failing_answer)
              (Scenario.sink [] 4)) as (_ & _ & H3 & _); [reflexivity..|].
  cbn [run]. rewrite H3. apply lookup_delete_eq.
Defined.

Lemma marshal_failure_fails_request_witness :
  Scenario.json (Request (Scenario.rq_bad "q1" 11))
  = Go.Err "json: unsupported type: chan int"
  ∧ requestMap
      (step Scenario.json Scenario.up (WriterOf 0) Scenario.unmarshallable)
    = ∅
  ∧ delivered 11
      (trace (run Scenario.json Scenario.up [WriterOf 0; WriterOf 0]
                Scenario.unmarshallable))
    = [error_chunk
         "Failed to marshal request: json: unsupported type: chan int"].
Proof.
  destruct (marshal_failure_fails_request Scenario.json Scenario.up
              Scenario.unmarshallable 0 1%positive 1%positive
              (Scenario.rq_bad "q1" 11) "json: unsupported type: chan int")
    as ((_ & H1 & _) & _ & H2); [reflexivity..|].
  split; [reflexivity|]. split; [exact H1|].
  destruct (H2 (step Scenario.json Scenario.up (WriterOf 0)
                  Scenario.unmarshallable)
              (Scenario.sink [] 4)) as (_ & H3 & _); [reflexivity..|].
  cbn [run]. rewrite H3. reflexivity.
Defined.

Ltac scenario_fields :=
  unfold Scenario.queue_full, Scenario.slow_reader, Scenario.interleaved,
    Scenario.failing_answer, Scenario.unmarshallable, Scenario.body_over,
    Scenario.stray, Scenario.answering, Scenario.holding, Scenario.serving;
  cbn [cache RemoteAddr body w requestMap queues heap sinks handler writers
       trace crashed set_cache set_body set_w set_requestMap set_queues
       set_heap set_sinks set_handler set_writers set_trace set_crashed].

Lemma queue_full_held :
  held_only_by 0 1%positive 11%positive Scenario.queue_full.
Proof.
  split; [|split; [|split; [|split]]]; scenario_fields.
  - intros ns q [<- <-]%lookup_singleton_Some. cbn.
    by intros [=]%list_elem_of_singleton.
  - intros j wr [-> <-]%list_lookup_singleton_Some. by split.
  - intros id. by rewrite lookup_empty.
  - done.
  - intros p' r' Hl Hch.
    apply lookup_insert_Some in Hl as [[<- <-]|[_ Hl]]; [done|].
    apply lookup_singleton_Some in Hl as [<- <-]. done.
Qed.


Lemma queue_full_moves a :
  is_enqueue_of 1%positive a = false →
  step Scenario.json Scenario.down a Scenario.queue_full = Scenario.queue_full
  ∨ a = WriterOf 0.
Proof.
  intros Ha. destruct a as [|[|i]|ns p'|ch].
  - by left.
  - by right.
  - by left.
  - left. unfold step, enqueue_request; scenario_fields.
    destruct (decide (ns = 1%positive)) as [->|Hns].
    + by rewrite lookup_singleton_eq.
    + by rewrite lookup_singleton_ne.
  - left. unfold step, take_chunk; scenario_fields.
    destruct (decide (ch = 11%positive)) as [->|H11]; [done|].
    rewrite lookup_insert_ne by done.
    destruct (decide (ch = 12%positive)) as [->|H12]; [done|].
    by rewrite lookup_singleton_ne.
Qed.

Lemma queue_full_dropped :
  orphaned 1%positive 11%positive
    (step Scenario.json Scenario.down (WriterOf 0) Scenario.queue_full).
Proof.
  assert (step Scenario.json Scenario.down (WriterOf 0) Scenario.queue_full
          = set_writer_pc 0 1%positive WRange
              (emit (EvDrop 1%positive)
                 (after_failed_write Scenario.queue_full 1%positive
                    (Scenario.rq "q1" 11) "{id:q1,method:cmd_line}")))
    as -> by reflexivity.
  apply dropped_is_orphaned; [reflexivity|].
  apply held_only_by_after_failed_write; [reflexivity|].
  exact queue_full_held.
Qed.

Lemma nothing_after_drop sched :
  Forall (λ a, is_enqueue_of 1%positive a = false) sched →
  delivered 11
    (trace (run Scenario.json Scenario.down sched Scenario.queue_full))
  = [].
Proof.
  induction 1 as [|a sched Ha Hs IH]; [reflexivity|].
  cbn [run]. destruct (queue_full_moves a Ha) as [->| ->]; [exact IH|].
  destruct (orphaned_run Scenario.json Scenario.down 1%positive 11%positive
              sched _ Hs queue_full_dropped) as [_ ->].
  reflexivity.
Qed.


Lemma read_loop_waits_on_full_sink_witness :
  Go.has_room (Scenario.sink [Scenario.first_chunk] 1) = false
  ∧ body (run Scenario.json Scenario.up
            [Handler; Take 12; WriterOf 0; Handler] Scenario.slow_reader)
    = body Scenario.slow_reader
  ∧ handler (run Scenario.json Scenario.up [Take 11; Handler]
               Scenario.slow_reader)
    = HDecode.
Proof.
  destruct (read_loop_waits_on_full_sink Scenario.json Scenario.up
              Scenario.slow_reader 11%positive Scenario.second_chunk
              (Scenario.sink [Scenario.first_chunk] 1))
    as [H1 H2]; [reflexivity..|cbn; lia|].
  split; [reflexivity|]. split.
  - apply H1. repeat constructor; discriminate.
  - apply (H2 Scenario.first_chunk []). reflexivity.
Defined.

(** C5, as the spec words it, fails: the sink of request [q1] is full and
    its reader takes nothing; the last chunk of request [q2], next on the
    request body, is never delivered although the sink of [q2] is empty. *)
Lemma independent_delivery_fails : ¬ independent_delivery.
Proof.
  intros H.
  destruct (H Scenario.json Scenario.up Scenario.slow_reader 11%positive
              Scenario.second_chunk 12%positive
              (Scenario.chunk "q2" "b1" true) []
              {| resp_Id := "q2"; resp_Chunk := Some "b1";
                 resp_Error := None; resp_Last := true |}
              2%positive (Scenario.rq "q2" 12) (Scenario.sink [] 4))
    as (sched & Hs & Hd); [reflexivity|reflexivity|discriminate|reflexivity..|].
  rewrite (full_sink_quiet Scenario.json Scenario.up sched
             Scenario.slow_reader 11%positive Scenario.second_chunk
             (Scenario.sink [Scenario.first_chunk] 1) Hs) in Hd;
    [|reflexivity..].
  discriminate Hd.
Qed.

Lemma known_node_is_reused_witness :
  FindNodeSession "nA" Scenario.known = (Some 1%positive, Scenario.known)
  ∧ Bridge_nodes Scenario.up ["10000001"] [Some Scenario.nA']
      (Scenario.serving (Scenario.open_body []) (Go.Chan [] 16 false))
    = Bridge_nodes Scenario.up ["10000001"] [Some Scenario.nA]
        (Scenario.serving (Scenario.open_body []) (Go.Chan [] 16 false)).
Proof.
  split; [reflexivity|].
  destruct (known_node_is_reused Scenario.up ["10000001"] Scenario.nA []
              (Scenario.serving (Scenario.open_body []) (Go.Chan [] 16 false)))
    as [H1 _].
  rewrite (H1 1%positive Scenario.known eq_refl Scenario.nA' eq_refl).
  rewrite (H1 1%positive Scenario.known eq_refl Scenario.nA eq_refl).
  reflexivity.
Defined.

(** C9, as the spec words it, fails: node [nA] is known with version 2.50;
    a handshake declares it with version 2.51, and the registry still has
    version 2.50 afterwards. *)
Lemma repeat_updates_metadata_fails : ¬ repeat_updates_metadata.
Proof.
  intros H.
  specialize (H Scenario.up
                (Scenario.serving (Scenario.open_body []) (Go.Chan [] 16 false))
                ["10000001"] Scenario.nA' 1%positive
                {| Registry.Info := Scenario.nA;
                   Registry.Attached := ["10000001"];
                   Registry.Connected := true;
                   Registry.Remote := "10.0.0.7:4040" |}
                eq_refl eq_refl).
  vm_compute in H. discriminate H.
Qed.

Lemma bad_handshake_answer_witness :
  Decode as_handshake (Scenario.open_body [Scenario.garbage])
  = Decoded None (Scenario.open_body [])
  ∧ status (w (run Scenario.json Scenario.up [Handler; Handler]
                 (Scenario.accepted (Scenario.open_body [Scenario.garbage]))))
    = Some 200%Z.
Proof.
  split; [reflexivity|].
  destruct (bad_handshake_answer Scenario.json Scenario.up
              (Scenario.accepted (Scenario.open_body [Scenario.garbage]))
              (Scenario.open_body []))
    as (_ & H2 & _); [reflexivity..|].
  exact H2.
Defined.

Lemma read_loop_spins_after_body_end_witness :
  ended (body (Scenario.body_over RemoteClosed)) = Some RemoteClosed
  ∧ handler (run Scenario.json Scenario.up
               [Handler; WriterOf 0; Take 11; Handler]
               (Scenario.body_over RemoteClosed))
    = HDecode
  ∧ trace (run Scenario.json Scenario.up
             [Handler; WriterOf 0; Take 11; Handler]
             (Scenario.body_over RemoteClosed))
    = [EvSpawn 1%positive; EvLog "Reading response";
       EvLog "Reading response"].
Proof.
  destruct (read_loop_spins_after_body_end Scenario.json Scenario.up
              [Handler; WriterOf 0; Take 11; Handler]
              (Scenario.body_over RemoteClosed) RemoteClosed)
    as (H1 & _ & _ & H4); [reflexivity..| | | |].
  - repeat constructor.
  - apply map_Forall_singleton. by split.
  - repeat constructor.
  - split; [reflexivity|]. split; [exact H1|]. rewrite H4. reflexivity.
Defined.

Lemma first_try_held :
  held_only_by 0 1%positive 11%positive Scenario.first_try.
Proof.
  split; [|split; [|split; [|split]]];
    unfold Scenario.first_try; scenario_fields.
  - intros ns q [<- <-]%lookup_singleton_Some. cbn. apply not_elem_of_nil.
  - intros j wr [-> <-]%list_lookup_singleton_Some. by split.
  - intros id. by rewrite lookup_empty.
  - done.
  - by intros p' r' [<- <-]%lookup_singleton_Some.
Qed.


(** The spec's scenario of write exhaustion, run: every write fails; after
    the 15th try the sink has the one terminal error chunk, the request was
    put back 14 times, its counter is at 15 and the correlator is empty. *)
Example write_exhaustion :
  let s := run Scenario.json Scenario.down (replicate 31 (WriterOf 0))
             Scenario.first_try in
  delivered 11 (trace s) = [send_failed "broken pipe"]
  ∧ requeues 1%positive (trace s) = 14
  ∧ Retries <$> heap s !! 1%positive = Some 15%Z
  ∧ requestMap s = ∅
  ∧ attempts (w s) = 15
  ∧ written (w s) = [].
Proof. vm_compute. repeat split. Qed.

(** The spec's scenario of a write retried: the first three writes fail,
    the fourth goes through; the request is in the correlator with its
    counter at 3. *)
Example write_retry :
  let s := run Scenario.json
             (λ k, if k <? 3 then Some "broken pipe" else None)
             (replicate 7 (WriterOf 0)) Scenario.first_try in
  requestMap s !! "q1" = Some 1%positive
  ∧ Retries <$> heap s !! 1%positive = Some 3%Z
  ∧ written (w s) = ["{id:q1,method:cmd_line}"]
  ∧ delivered 11 (trace s) = [].
Proof. vm_compute. repeat split. Qed.

Lemma interleaved_sole_route :
  sole_route "q1" 11%positive Scenario.interleaved.
Proof.
  intros j p r Hm Hp Hch. revert Hm Hp. scenario_fields. intros Hm Hp.
  apply lookup_insert_Some in Hm as [[<- <-]|[_ Hm]]; [done|].
  apply lookup_singleton_Some in Hm as [<- <-].
  vm_compute in Hp. injection Hp as <-. discriminate Hch.
Qed.

Lemma interleaved_owner :
  heap_owner 1%positive 11%positive Scenario.interleaved
  ∧ id_owner 1%positive "q1" Scenario.interleaved
  ∧ away_from_writers 1%positive 11%positive Scenario.interleaved.
Proof.
  split; [|split; [|split]].
  - intros p' r'. scenario_fields. intros Hl Hch.
    apply lookup_insert_Some in Hl as [[<- <-]|[_ Hl]]; [done|].
    apply lookup_singleton_Some in Hl as [<- <-]. discriminate Hch.
  - intros p' r'. scenario_fields. intros Hl Hid.
    apply lookup_insert_Some in Hl as [[<- <-]|[_ Hl]]; [done|].
    apply lookup_singleton_Some in Hl as [<- <-]. discriminate Hid.
  - intros ns. unfold queued_at. scenario_fields.
    destruct (decide (ns = 1%positive)) as [->|Hns].
    + by rewrite lookup_singleton_eq.
    + by rewrite lookup_singleton_ne.
  - intros [|j]; reflexivity.
Qed.


(** The spec's scenario of interleaved streams, run: each sink has its own
    two chunks in the order they were sent, and the correlator is empty. *)
Example streaming_with_interleave :
  let s := run Scenario.json Scenario.up (replicate 8 Handler)
             Scenario.interleaved in
  (Go.buf <$> sinks s !! 11%positive)
  = Some [ {| resp_Id := "q1"; resp_Chunk := Some "a1"; resp_Error := None;
              resp_Last := false |};
           {| resp_Id := "q1"; resp_Chunk := Some "a2"; resp_Error := None;
              resp_Last := true |} ]
  ∧ (Go.buf <$> sinks s !! 12%positive)
    = Some [ {| resp_Id := "q2"; resp_Chunk := Some "b1"; resp_Error := None;
                resp_Last := false |};
             {| resp_Id := "q2"; resp_Chunk := Some "b2"; resp_Error := None;
                resp_Last := true |} ]
  ∧ requestMap s = ∅.
Proof. vm_compute. repeat split. Qed.

(** * The handshake, the writers and the read loop over whole runs *)

Section Lifecycle.

Context {C : Type} `{!CacheService C}.
Variable json_Marshal : RPCRequest → Go.result string.
Variable transport : nat → option string.

Local Abbreviation step := (step json_Marshal transport).
Local Abbreviation run := (run json_Marshal transport).

Implicit Types (s : State C) (p : ptr) (ch : chan_id) (ns : session).

(** ** The loop over the declared nodes *)

Lemma Bridge_nodes_set_handler h sess nodes s :
  Bridge_nodes transport sess nodes (set_handler h s)
  = Bridge_nodes transport sess nodes s.
Proof.
  revert s. induction nodes as [|[node|] nodes IH]; intros s; cbn; [done| |done].
  destruct (FindNodeSession (node_Id node) (cache s)) as [found c1].
  destruct (match found with
            | Some ns => (Go.Ok ns, c1)
            | None => CreateNodeSession node c1
            end) as [[ns|e] c2]; [|done].
  apply (IH (spawn ns (set_cache _ s))).
Qed.

Lemma Bridge_nodes_app sess pre rest s :
  handler (Bridge_nodes transport sess pre s) = HDecode →
  Bridge_nodes transport sess (pre ++ rest) s
  = Bridge_nodes transport sess rest (Bridge_nodes transport sess pre s).
Proof.
  revert s. induction pre as [|[node|] pre IH]; intros s; cbn.
  - intros _. by rewrite Bridge_nodes_set_handler.
  - destruct (FindNodeSession (node_Id node) (cache s)) as [found c1].
    destruct (match found with
              | Some ns => (Go.Ok ns, c1)
              | None => CreateNodeSession node c1
              end) as [[ns|e] c2]; [|done].
    apply IH.
  - done.
Qed.

(** What the loop over the nodes does whatever the registry answers. *)
Lemma Bridge_nodes_effect sess nodes s :
  let s' := Bridge_nodes transport sess nodes s in
  ∃ new logs,
    writers s' = writers s ++ new
    ∧ Forall (λ wr, w_pc wr = WRange) new
    ∧ length new ≤ length nodes
    ∧ trace s' = trace s ++ map (λ wr, EvSpawn (w_session wr)) new ++ logs
    ∧ Forall (λ e, ∃ l, e = EvLog l) logs
    ∧ (handler s' = HDecode →
       length new = length nodes ∧ w s' = w s ∧ logs = [])
    ∧ (handler s' = HDecode ∨ handler s' = HReturned
       ∨ handler s' = HPanicked)
    ∧ requestMap s' = requestMap s
    ∧ queues s' = queues s
    ∧ heap s' = heap s
    ∧ sinks s' = sinks s
    ∧ body s' = body s
    ∧ RemoteAddr s' = RemoteAddr s
    ∧ crashed s' = crashed s
    ∧ (handler s' ≠ HReturned → w s' = w s)
    ∧ (∀ x, status (w s) = Some x → status (w s') = Some x)
    ∧ written (w s) `prefix_of` written (w s').
Proof.
  cbn zeta. revert s.
  induction nodes as [|[node|] nodes IH]; intros s; cbn.
  - exists [], []. rewrite !app_nil_r. by split_and!; eauto.
  - destruct (FindNodeSession (node_Id node) (cache s)) as [found c1].
    destruct (match found with
              | Some ns => (Go.Ok ns, c1)
              | None => CreateNodeSession node c1
              end) as [[ns|e] c2].
    + destruct (IH (spawn ns (set_cache
                                (Connect ns (RemoteAddr s)
                                   (AttachSessions ns sess c2)) s)))
        as (new & logs & Hw & Hpc & Hlen & Ht & Hlogs & Hok & Hh & Hrest).
      exists ({| w_session := ns; w_pc := WRange |} :: new), logs.
      rewrite Hw, Ht; cbn. rewrite <- !app_assoc; cbn.
      split_and!; try done; try (by constructor); try lia; try tauto.
      intros Hd. destruct (Hok Hd) as (-> & -> & ->). done.
    + exists [], [EvLog ("Error creating node session: " +:+ e)].
      cbn. rewrite !app_nil_r.
      split_and!; try done; try lia; eauto.
      * intros x Hx. by apply status_EncodeError.
      * unfold EncodeError_BadRequest. rewrite rw_Write_attempts.
        destruct (transport _); cbn; rewrite written_WriteHeader;
          [done|by apply prefix_app_r].
  - exists [], []. rewrite !app_nil_r.
    by split_and!; try (cbn; lia); eauto.
Qed.

Lemma disconnects_app ns t1 t2 :
  disconnects ns (t1 ++ t2) = disconnects ns t1 + disconnects ns t2.
Proof. unfold disconnects. by rewrite filter_app, length_app. Qed.

Lemma disconnects_quiet ns t :
  Forall (λ e, ∀ ns', e ≠ EvDisconnect ns') t → disconnects ns t = 0.
Proof.
  unfold disconnects. induction 1 as [|e t He _ IH]; [done|].
  rewrite filter_cons. case_decide; [by destruct (He ns)|done].
Qed.

Lemma Bridge_nodes_disconnects sess nodes s ns :
  disconnects ns (trace (Bridge_nodes transport sess nodes s))
  = disconnects ns (trace s).
Proof.
  destruct (Bridge_nodes_effect sess nodes s)
    as (new & logs & _ & _ & _ & -> & Hlogs & _).
  rewrite !disconnects_app.
  rewrite (disconnects_quiet ns (map _ new)), (disconnects_quiet ns logs);
    [lia| |].
  - eapply Forall_impl; [exact Hlogs|]. by intros e [l ->] ns'.
  - apply Forall_map, Forall_true. by intros wr ns'.
Qed.


(** X2: when [CreateNodeSession] fails for a declared node after the
    nodes before it were connected, the handler logs, answers and
    returns; the writer goroutines it has started for the earlier nodes
    are left as they are, at the [range] over their queues, the registry
    is left as the failed call left it, and no node session is
    disconnected.  Nothing is done for the nodes declared after. *)
Theorem node_creation_failure_keeps_earlier_writers
    sess pre node post s c1 e c2 :
  let s1 := Bridge_nodes transport sess pre s in
  handler s1 = HDecode →
  FindNodeSession (node_Id node) (cache s1) = (None, c1) →
  CreateNodeSession node c1 = (Go.Err e, c2) →
  let s' := Bridge_nodes transport sess (pre ++ Some node :: post) s in
  handler s' = HReturned
  ∧ writers s' = writers s1
  ∧ length (writers s') = length (writers s) + length pre
  ∧ Forall (λ wr, w_pc wr = WRange) (drop (length (writers s)) (writers s'))
  ∧ cache s' = c2
  ∧ trace s' = trace s1 ++ [EvLog ("Error creating node session: " +:+ e)]
  ∧ (∀ ns, disconnects ns (trace s') = disconnects ns (trace s))
  ∧ (∀ x, status (w s) = Some x → status (w s') = Some x).
Proof.
  cbn zeta. intros Hd Hfind Hcreate.
  rewrite Bridge_nodes_app by done. cbn. rewrite Hfind, Hcreate. cbn.
  destruct (Bridge_nodes_effect sess pre s)
    as (new & logs & Hw & Hpc & _ & Ht & _ & Hok & _ & _ & _ & _ & _ & _
        & _ & _ & _ & Hst & _).
  destruct (Hok Hd) as (Hlen & Hww & ->).
  split_and!; try done.
  - rewrite Hw, length_app. lia.
  - by rewrite Hw, drop_app_length.
  - intros ns. rewrite disconnects_app, Bridge_nodes_disconnects.
    rewrite (disconnects_quiet ns [_]); [lia|].
    constructor; [by intros ns'|done].
  - intros x Hx. apply status_EncodeError. by rewrite Hww.
Qed.

(** X3: a [null] among the declared nodes makes the handler panic on
    [node.Id] when the loop comes to it: the writers of the nodes before
    it have been started and stay, the registry keeps what was done for
    those nodes, and nothing at all is done for the nodes after it; the
    response is as it was, so no error is answered. *)
Theorem null_node_panics_the_handler sess pre post s :
  let s1 := Bridge_nodes transport sess pre s in
  handler s1 = HDecode →
  let s' := Bridge_nodes transport sess (pre ++ None :: post) s in
  handler s' = HPanicked
  ∧ writers s' = writers s1
  ∧ length (writers s') = length (writers s) + length pre
  ∧ cache s' = cache s1
  ∧ trace s' = trace s1
  ∧ w s' = w s.
Proof.
  cbn zeta. intros Hd. rewrite Bridge_nodes_app by done. cbn.
  destruct (Bridge_nodes_effect sess pre s)
    as (new & logs & Hw & _ & _ & _ & _ & Hok & _).
  destruct (Hok Hd) as (Hlen & Hww & ->).
  split_and!; try done. rewrite Hw, length_app. lia.
Qed.

(** ** What no move changes *)

Local Ltac writer_paths :=
  unfold writer, writer_range, writer_body, writer_send, writer_requeue,
    writer_panic, Go.recv, Go.send;
  repeat case_match; simplify_eq/=.

Local Ltac handler_paths :=
  unfold Bridge, Bridge_start, Bridge_handshake, Bridge_decode,
    Bridge_deliver, Bridge_panic, Bridge_return, Decode, Go.send;
  repeat case_match; simplify_eq/=.

Local Ltac operator_paths :=
  unfold enqueue_request, take_chunk, Go.send, Go.recv;
  repeat case_match; simplify_eq/=.

Lemma same_chan_lookup {K A} `{Countable K} (m : gmap K (Go.chan A)) k :
  option_Forall2 same_chan (m !! k) (m !! k).
Proof. destruct (m !! k); by constructor. Qed.

Lemma same_chan_insert {K A} `{Countable K} (m : gmap K (Go.chan A))
    k0 c c' k :
  m !! k0 = Some c → same_chan c' c →
  option_Forall2 same_chan (<[k0 := c']> m !! k) (m !! k).
Proof.
  intros Hl Hs. destruct (decide (k = k0)) as [->|Hne].
  - rewrite lookup_insert_eq, Hl. by constructor.
  - rewrite lookup_insert_ne by done. apply same_chan_lookup.
Qed.

Lemma same_request_lookup (h : gmap ptr NodeRequest) p :
  option_Forall2 same_request (h !! p) (h !! p).
Proof. destruct (h !! p); by constructor. Qed.

Lemma same_request_insert (h : gmap ptr NodeRequest) p0 r z p :
  h !! p0 = Some r →
  option_Forall2 same_request
    (<[p0 := {| Request := Request r; Responses := Responses r;
                Retries := z |}]> h !! p) (h !! p).
Proof.
  intros Hl. destruct (decide (p = p0)) as [->|Hne].
  - rewrite lookup_insert_eq, Hl. by constructor.
  - rewrite lookup_insert_ne by done. apply same_request_lookup.
Qed.

Lemma writers_kept_insert (ws : list Writer) i0 ns pc wr0 i wr :
  ws !! i0 = Some wr0 → w_session wr0 = ns →
  ws !! i = Some wr →
  ∃ pc', <[i0 := {| w_session := ns; w_pc := pc |}]> ws !! i
         = Some {| w_session := w_session wr; w_pc := pc' |}.
Proof.
  intros H0 <- Hi. destruct (decide (i = i0)) as [->|Hne].
  - exists pc. rewrite list_lookup_insert_eq by by eapply lookup_lt_Some.
    by simplify_eq.
  - exists (w_pc wr). rewrite list_lookup_insert_ne by done.
    by destruct wr.
Qed.

Lemma writers_kept_refl (ws : list Writer) i wr :
  ws !! i = Some wr →
  ∃ pc, ws !! i = Some {| w_session := w_session wr; w_pc := pc |}.
Proof. intros ->. exists (w_pc wr). by destruct wr. Qed.

Lemma continues_refl s : continues s s.
Proof.
  split_and!; try done.
  - intros ns. apply same_chan_lookup.
  - intros ch. apply same_chan_lookup.
  - intros p. apply same_request_lookup.
  - apply writers_kept_refl.
Qed.

Lemma option_Forall2_trans {A} (R : A → A → Prop) (x y z : option A) :
  (∀ a b c, R a b → R b c → R a c) →
  option_Forall2 R x y → option_Forall2 R y z → option_Forall2 R x z.
Proof.
  intros HR [a b Hab|] Hyz; inversion Hyz; simplify_eq; constructor.
  by eapply HR.
Qed.

Lemma continues_trans s1 s2 s3 :
  continues s1 s2 → continues s2 s3 → continues s1 s3.
Proof.
  intros (Q1 & S1 & H1 & A1 & T1 & W1 & E1 & R1)
         (Q2 & S2 & H2 & A2 & T2 & W2 & E2 & R2).
  split_and!.
  - intros ns. eapply option_Forall2_trans; [|apply Q2|apply Q1].
    intros a b c [? ?] [? ?]. split; congruence.
  - intros ch. eapply option_Forall2_trans; [|apply S2|apply S1].
    intros a b c [? ?] [? ?]. split; congruence.
  - intros p. eapply option_Forall2_trans; [|apply H2|apply H1].
    intros a b c [? ?] [? ?]. split; congruence.
  - congruence.
  - eauto.
  - by etrans.
  - by etrans.
  - intros i wr Hi. destruct (R1 _ _ Hi) as [pc Hi2].
    destruct (R2 _ _ Hi2) as [pc' Hi3]. by exists pc'.
Qed.

Lemma written_Write bytes (rw : ResponseWriter) e rw' :
  rw_Write transport bytes rw = (e, rw') →
  written rw `prefix_of` written rw'
  ∧ ∀ x, status rw = Some x → status rw' = Some x.
Proof.
  intros Hw. split.
  - rewrite rw_Write_attempts in Hw.
    destruct (transport (attempts rw)); simplify_eq; cbn;
      [done|by apply prefix_app_r].
  - intros x Hx. pose proof (status_Write transport bytes rw x Hx) as Hs.
    by rewrite Hw in Hs.
Qed.

Lemma status_Flush (rw : ResponseWriter) x :
  status rw = Some x → status (rw_Flush rw) = Some x.
Proof.
  intros Hs. unfold rw_Flush; cbn.
  by rewrite (status_WriteHeader_committed _ _ x Hs).
Qed.

Lemma status_WriteHeader code (rw : ResponseWriter) x :
  status rw = Some x → status (rw_WriteHeader code rw) = Some x.
Proof. intros Hs. by rewrite (status_WriteHeader_committed _ _ x Hs). Qed.

Lemma written_EncodeError msg (rw : ResponseWriter) :
  written rw `prefix_of` written (EncodeError_BadRequest transport msg rw).
Proof.
  unfold EncodeError_BadRequest. rewrite rw_Write_attempts.
  destruct (transport _); cbn; rewrite written_WriteHeader;
    [done|by apply prefix_app_r].
Qed.

Local Ltac solve_continues :=
  unfold continues; cbn;
  repeat match goal with
    | H : rw_Write _ _ _ = _ |- _ =>
        destruct (written_Write _ _ _ _ H); clear H
    end;
  split_and!;
  [ intros ?;
    first [apply same_chan_lookup
          |eapply same_chan_insert; [eassumption|by split]]
  | intros ?;
    first [apply same_chan_lookup
          |eapply same_chan_insert; [eassumption|by split]]
  | intros ?;
    first [apply same_request_lookup|by eapply same_request_insert]
  | done
  | intros ??;
    repeat first [apply status_Flush|apply status_WriteHeader
                 |apply status_EncodeError];
    eauto
  | rewrite ?written_Flush, ?written_WriteHeader;
    first [done|apply written_EncodeError]
  | rewrite <- ?app_assoc; first [done|by apply prefix_app_r]
  | first [apply writers_kept_refl
          |intros ???; by eapply writers_kept_insert] ].

Lemma writer_continues i s :
  continues s (writer json_Marshal transport i s).
Proof.
  writer_paths; try apply continues_refl; solve_continues.
Qed.

Lemma Bridge_nodes_continues sess nodes s :
  continues s (Bridge_nodes transport sess nodes s).
Proof.
  destruct (Bridge_nodes_effect sess nodes s)
    as (new & logs & Hw & _ & _ & Ht & _ & _ & _ & _ & Hq & Hh & Hs & _
        & Ha & _ & _ & Hst & Hwr).
  unfold continues. rewrite Hw, Ht, Hq, Hh, Hs, Ha.
  split_and!; try done.
  - intros ns. apply same_chan_lookup.
  - intros ch. apply same_chan_lookup.
  - intros p. apply same_request_lookup.
  - by apply prefix_app_r.
  - intros i wr Hi. exists (w_pc wr).
    rewrite lookup_app_l by by eapply lookup_lt_Some. by destruct wr.
Qed.

Lemma Bridge_continues s : continues s (Bridge transport s).
Proof.
  handler_paths; try apply continues_refl;
    try (eapply continues_trans; [|apply Bridge_nodes_continues]);
    solve_continues.
Qed.

Lemma step_continues a s : continues s (step a s).
Proof.
  rewrite step_unfold. destruct (crashed s); [apply continues_refl|].
  destruct a as [|i|ns p|ch].
  - apply Bridge_continues.
  - apply writer_continues.
  - operator_paths; try apply continues_refl; solve_continues.
  - operator_paths; try apply continues_refl; solve_continues.
Qed.

Lemma run_continues sched s : continues s (run sched s).
Proof.
  revert s. induction sched as [|a sched IH]; intros s;
    [apply continues_refl|].
  rewrite run_cons. eapply continues_trans; [apply step_continues|apply IH].
Qed.


(** ** The deferred [Disconnect] *)

Lemma disconnects_snoc ns t e :
  disconnects ns (t ++ [e])
  = disconnects ns t + (if decide (e = EvDisconnect ns) then 1 else 0).
Proof.
  rewrite disconnects_app. f_equal. unfold disconnects.
  rewrite filter_cons. by case_decide.
Qed.

Lemma returned_insert ns (ws : list Writer) i wr wr' :
  ws !! i = Some wr →
  returned ns (<[i := wr']> ws)
  + (if decide (wr = {| w_session := ns; w_pc := WReturned |})
     then 1 else 0)
  = returned ns ws
    + (if decide (wr' = {| w_session := ns; w_pc := WReturned |})
       then 1 else 0).
Proof.
  intros Hi. unfold returned.
  rewrite <- (take_drop_middle ws i wr Hi) at 2.
  rewrite insert_take_drop by by eapply lookup_lt_Some.
  rewrite !filter_app, !filter_cons, !length_app.
  do 2 case_decide; cbn; lia.
Qed.

Lemma returned_app ns (ws new : list Writer) :
  Forall (λ wr, w_pc wr = WRange) new →
  returned ns (ws ++ new) = returned ns ws.
Proof.
  intros Hnew. unfold returned. rewrite filter_app, length_app.
  assert (filter (λ wr, wr = {| w_session := ns; w_pc := WReturned |}) new
          = []) as ->; [|cbn; lia].
  induction Hnew as [|wr new Hwr _ IH]; [done|].
  rewrite filter_cons. case_decide; [by simplify_eq|done].
Qed.

Local Abbreviation crashes s := (if crashed s then 1 else 0).

Local Ltac count_returned :=
  match goal with
  | Hi : writers ?s !! ?i = Some ?wr, Hpc : w_pc ?wr = _
    |- context [returned ?ns (<[?i := ?wr']> (writers ?s))] =>
      let E := fresh in
      pose proof (returned_insert ns (writers s) i wr wr' Hi) as E;
      destruct wr; cbn in *; simplify_eq;
      repeat case_decide; simplify_eq; try lia
  end.

Lemma writer_balance ns i s :
  crashed s = false →
  let s' := writer json_Marshal transport i s in
  ∃ x,
    disconnects ns (trace s') + returned ns (writers s)
    = disconnects ns (trace s) + returned ns (writers s') + x
    ∧ x + crashes s ≤ crashes s'.
Proof.
  intros Hc; cbn zeta.
  writer_paths; rewrite ?Hc; cbn;
    rewrite ?disconnects_snoc; repeat case_decide; simplify_eq;
    try (exists 0; split; [try lia; count_returned|lia]);
    try (exists 1; split; [try lia; count_returned|lia]).
Qed.

Lemma Bridge_balance ns s :
  disconnects ns (trace (Bridge transport s)) = disconnects ns (trace s)
  ∧ returned ns (writers (Bridge transport s)) = returned ns (writers s)
  ∧ crashed (Bridge transport s) = crashed s.
Proof.
  handler_paths; rewrite ?disconnects_snoc; repeat case_decide;
    simplify_eq; try (split_and!; done || lia).
  set (s0 := set_requestMap _ _).
  destruct (Bridge_nodes_effect (ci_Sessions c) (ci_Nodes c) s0)
    as (new & logs & Hw & Hpc & _ & _ & _ & _ & _ & _ & _ & _ & _ & _ & _
        & Hcr & _).
  rewrite Bridge_nodes_disconnects, Hw, Hcr, returned_app by done.
  done.
Qed.

Lemma step_balance ns a s :
  ∃ x,
    disconnects ns (trace (step a s)) + returned ns (writers s)
    = disconnects ns (trace s) + returned ns (writers (step a s)) + x
    ∧ x + crashes s ≤ crashes (step a s).
Proof.
  rewrite step_unfold. destruct (crashed s) eqn:Hc.
  { exists 0. rewrite Hc. lia. }
  destruct a as [|i|ns' p|ch].
  - destruct (Bridge_balance ns s) as (-> & -> & ->). exists 0.
    rewrite Hc. lia.
  - pose proof (writer_balance ns i s Hc) as Hb. by rewrite Hc in Hb.
  - exists 0. operator_paths; rewrite ?Hc; lia.
  - exists 0. operator_paths; rewrite ?Hc; lia.
Qed.

(** X4: the deferred [Disconnect] of a writer goroutine runs when the
    goroutine ends and at no other time.  Along any schedule, the calls of
    [Disconnect] on a node session are as many as the writers of that
    session that returned, and one more at most, for a writer that
    panicked, which ends the process; the handler goroutine disconnects
    nothing. *)
Theorem disconnect_follows_writer_end sched s ns :
  let s' := run sched s in
  ∃ x,
    disconnects ns (trace s') + returned ns (writers s)
    = disconnects ns (trace s) + returned ns (writers s') + x
    ∧ x + (if crashed s then 1 else 0) ≤ (if crashed s' then 1 else 0).
Proof.
  cbn zeta. revert s. induction sched as [|a sched IH]; intros s.
  { exists 0. cbn. lia. }
  rewrite run_cons. destruct (step_balance ns a s) as (x & Hx & Hk).
  destruct (IH (step a s)) as (y & Hy & Hl).
  exists (x + y). split; lia.
Qed.

(** ** Queues that are never closed *)

Lemma crashed_stays sched s : crashed s = true → run sched s = s.
Proof.
  intros Hc. induction sched as [|a sched IH]; [done|].
  rewrite run_cons, step_unfold. by rewrite Hc.
Qed.

Lemma not_crashed_before a sched s :
  crashed (run (a :: sched) s) = false → crashed (step a s) = false.
Proof.
  rewrite run_cons. destruct (crashed (step a s)) eqn:Hc; [|done].
  by rewrite (crashed_stays sched _ Hc), Hc.
Qed.

Lemma open_queues_continue s s' :
  continues s s' →
  (∀ ns q, queues s !! ns = Some q → Go.closed q = false) →
  ∀ ns q, queues s' !! ns = Some q → Go.closed q = false.
Proof.
  intros (Hq & _) Hopen ns q' Hl. specialize (Hq ns). rewrite Hl in Hq.
  inversion Hq as [? q [_ Hcl] E1 E2|]; simplify_eq.
  rewrite Hcl. by eapply Hopen.
Qed.

Lemma was_returned_insert (ws : list Writer) i ns pc j wr :
  pc ≠ WReturned →
  <[i := {| w_session := ns; w_pc := pc |}]> ws !! j = Some wr →
  w_pc wr = WReturned →
  ws !! j = Some wr.
Proof.
  intros Hpc [(-> & <- & _)|[_ Hl]]%list_lookup_insert_Some Hr; done.
Qed.

Lemma writer_open_queues i s :
  crashed s = false →
  (∀ ns q, queues s !! ns = Some q → Go.closed q = false) →
  let s' := writer json_Marshal transport i s in
  (∀ j wr, writers s' !! j = Some wr → w_pc wr = WReturned →
     writers s !! j = Some wr)
  ∧ (crashed s' = false →
     ∀ ns, disconnects ns (trace s') = disconnects ns (trace s)).
Proof.
  intros Hc Hopen; cbn zeta.
  writer_paths;
    try match goal with
      | Hq : queues _ !! _ = Some ?c, Hc : Go.closed ?c = true |- _ =>
          by rewrite (Hopen _ _ Hq) in Hc
      end;
    (split;
     [intros j wr Hj Hr; try done;
      by eapply was_returned_insert; [|exact Hj|exact Hr]
     |intros Hcr ns; rewrite ?disconnects_snoc;
      repeat case_decide; simplify_eq; try lia]).
Qed.

Lemma step_open_queues a s :
  (∀ ns q, queues s !! ns = Some q → Go.closed q = false) →
  (∀ j wr, writers (step a s) !! j = Some wr → w_pc wr = WReturned →
     writers s !! j = Some wr)
  ∧ (crashed (step a s) = false →
     ∀ ns, disconnects ns (trace (step a s)) = disconnects ns (trace s)).
Proof.
  intros Hopen. rewrite step_unfold. destruct (crashed s) eqn:Hc; [done|].
  destruct a as [|i|ns' p|ch].
  - split.
    + intros j wr Hj Hr.
      assert (∃ new, writers (Bridge transport s) = writers s ++ new
                     ∧ Forall (λ wr, w_pc wr = WRange) new)
        as (new & Hw & Hnew).
      { handler_paths; try (exists []; by rewrite app_nil_r).
        set (s0 := set_requestMap _ _).
        destruct (Bridge_nodes_effect (ci_Sessions c) (ci_Nodes c) s0)
          as (new & logs & Hw & Hpc & _).
        by exists new. }
      rewrite Hw in Hj. apply lookup_app_Some in Hj as [Hj|[_ Hj]]; [done|].
      apply (proj1 (Forall_lookup _ _) Hnew _ _) in Hj. congruence.
    + intros _ ns. by destruct (Bridge_balance ns s) as (-> & _).
  - by apply writer_open_queues.
  - operator_paths; by split.
  - operator_paths; by split.
Qed.

Lemma run_open_queues sched s :
  (∀ ns q, queues s !! ns = Some q → Go.closed q = false) →
  (∀ j wr, writers (run sched s) !! j = Some wr → w_pc wr = WReturned →
     writers s !! j = Some wr)
  ∧ (crashed (run sched s) = false →
     ∀ ns, disconnects ns (trace (run sched s)) = disconnects ns (trace s)).
Proof.
  revert s. induction sched as [|a sched IH]; intros s Hopen; [done|].
  destruct (step_open_queues a s Hopen) as [Hw Hd].
  destruct (IH (step a s)) as [Hw' Hd'].
  { eapply open_queues_continue; [apply step_continues|done]. }
  rewrite run_cons. split.
  - intros j wr Hj Hr. apply Hw; [|done]. by apply Hw'.
  - intros Hcr ns. rewrite Hd' by done. apply Hd.
    by apply (not_crashed_before a sched).
Qed.

(** X5: [Bridge] never closes the [RequestCh] of a node session, and a
    writer leaves its [range] loop only on a closed queue.  So while the
    queues are open they stay open, no writer goroutine returns, however
    the goroutines and the operator side are scheduled, and as long as no
    goroutine has panicked no node session is disconnected: not when the
    handler returns from a failed handshake, not when the request body
    ends. *)
Theorem open_queues_keep_the_writers sched s :
  (∀ ns q, queues s !! ns = Some q → Go.closed q = false) →
  let s' := run sched s in
  (∀ ns q, queues s' !! ns = Some q → Go.closed q = false)
  ∧ (∀ j wr, writers s' !! j = Some wr → w_pc wr = WReturned →
       writers s !! j = Some wr)
  ∧ (crashed s' = false →
     ∀ ns, disconnects ns (trace s') = disconnects ns (trace s)).
Proof.
  intros Hopen; cbn zeta. split.
  - eapply open_queues_continue; [apply run_continues|done].
  - by apply run_open_queues.
Qed.

(** X6: the status line of the response is sent once.  The first step of
    the handler sends 200 and flushes; whatever comes after it, under any
    schedule — the bad-request answers to a handshake that cannot be read
    and to a node session that cannot be created included — the status of
    the response is 200. *)
Theorem status_stays_as_first_sent sched s :
  crashed s = false →
  handler s = HStart →
  status (w s) = None →
  status (w (run (Handler :: sched) s)) = Some StatusOK.
Proof.
  intros Hc Hh Hs. rewrite run_cons.
  destruct (run_continues sched (step Handler s))
    as (_ & _ & _ & _ & Hst & _).
  apply Hst. rewrite step_unfold, Hc. unfold Bridge. rewrite Hh.
  unfold Bridge_start; cbn. apply status_Flush.
  unfold rw_WriteHeader. by rewrite Hs.
Qed.

(** ** Chunks and the requests they belong to *)

Lemma rightful_later (h h' : gmap ptr NodeRequest) ch resp :
  (∀ p, option_Forall2 same_request (h' !! p) (h !! p)) →
  rightful h ch resp → rightful h' ch resp.
Proof.
  intros Hh (p & r & Hl & Hch & Hid). specialize (Hh p).
  rewrite Hl in Hh. inversion Hh as [r' ? [HR HS] E1 E2|]; simplify_eq.
  exists p, r'. by rewrite HR, HS.
Qed.

Lemma rightful_earlier (h h' : gmap ptr NodeRequest) ch resp :
  (∀ p, option_Forall2 same_request (h' !! p) (h !! p)) →
  rightful h' ch resp → rightful h ch resp.
Proof.
  intros Hh (p & r' & Hl & Hch & Hid). specialize (Hh p).
  rewrite Hl in Hh. inversion Hh as [? r [HR HS] E1 E2|]; simplify_eq.
  exists p, r. by rewrite <- HR, <- HS.
Qed.

Lemma keyed_by_id_later (h h' : gmap ptr NodeRequest) m :
  (∀ p, option_Forall2 same_request (h' !! p) (h !! p)) →
  keyed_by_id h m → keyed_by_id h' m.
Proof.
  intros Hh Hk i p Hi. destruct (Hk i p Hi) as (r & Hl & Hid).
  specialize (Hh p). rewrite Hl in Hh.
  inversion Hh as [r' ? [HR HS] E1 E2|]; simplify_eq.
  exists r'. by rewrite HR.
Qed.

Lemma keyed_by_id_insert (h : gmap ptr NodeRequest) m p r :
  h !! p = Some r → keyed_by_id h m →
  keyed_by_id h (<[rpc_Id (Request r) := p]> m).
Proof.
  intros Hl Hk i p' [[<- <-]|[_ Hi]]%lookup_insert_Some; [by exists r|].
  by apply Hk.
Qed.

Lemma keyed_by_id_delete (h : gmap ptr NodeRequest) m i :
  keyed_by_id h m → keyed_by_id h (delete i m).
Proof. intros Hk j p [_ Hj]%lookup_delete_Some. by apply Hk. Qed.

Lemma sends_insert (P : chan_id → Response → Prop) (ws : list Writer)
    i ns pc :
  (∀ j wr ch resp,
     ws !! j = Some wr → w_pc wr = WSending ch resp → P ch resp) →
  (∀ ch resp, pc = WSending ch resp → P ch resp) →
  ∀ j wr ch resp,
    <[i := {| w_session := ns; w_pc := pc |}]> ws !! j = Some wr →
    w_pc wr = WSending ch resp → P ch resp.
Proof.
  intros Hws Hpc j wr ch resp
    [(-> & <- & _)|[_ Hl]]%list_lookup_insert_Some Hw; [by apply Hpc|].
  by eapply Hws.
Qed.

Local Ltac later_heap :=
  lazymatch goal with
  | |- rightful (<[_ := _]> _) _ _ =>
      eapply rightful_later;
      [intros ?; by apply same_request_insert|]
  | |- keyed_by_id (<[_ := _]> _) _ =>
      eapply keyed_by_id_later;
      [intros ?; by apply same_request_insert|]
  | |- _ => idtac
  end.

Local Ltac new_events :=
  rewrite <- ?app_assoc; eexists; split; [reflexivity|];
  repeat first [apply Forall_nil_2|apply Forall_cons_2]; cbn; try done.

Lemma writer_routed i s :
  well_routed s →
  let s' := writer json_Marshal transport i s in
  well_routed s'
  ∧ ∃ evs, trace s' = trace s ++ evs
           ∧ Forall (rightful_event (heap s)) evs.
Proof.
  intros (Hk & Hs & Hws); cbn zeta.
  writer_paths.
  all: try (split; [done|exists []; by rewrite app_nil_r]).
  all: unfold well_routed; cbn.
  all: split; [split_and!|].
  all: try (new_events; by eapply Hws).
  all: try (intros ch0 resp0 Hh0; later_heap; by apply Hs).
  all: try (later_heap;
            repeat first [exact Hk|apply keyed_by_id_delete
                         |by apply keyed_by_id_insert]).
  all: try (by exists []; rewrite app_nil_r).
  all: try (apply sends_insert;
            [intros j wr ch0 resp0 Hj Hpc; later_heap; by eapply Hws
            |intros ch0 resp0 Hpc;
             first [discriminate Hpc
                   |simplify_eq; later_heap;
                    eexists _, _; split_and!;
                    [eassumption|done|right; by eexists]]]).
  all: try (intros j wr ch0 resp0 Hj Hpc; later_heap; by eapply Hws).
Qed.

Lemma Bridge_nodes_routed sess nodes s :
  keyed_by_id (heap s) (requestMap s) →
  (∀ j wr ch resp,
     writers s !! j = Some wr → w_pc wr = WSending ch resp →
     rightful (heap s) ch resp) →
  let s' := Bridge_nodes transport sess nodes s in
  well_routed s'
  ∧ ∃ evs, trace s' = trace s ++ evs
           ∧ Forall (rightful_event (heap s)) evs.
Proof.
  intros Hk Hws; cbn zeta.
  destruct (Bridge_nodes_effect sess nodes s)
    as (new & logs & Hw & Hpc & _ & Ht & Hlogs & _ & Hh & Hm & _ & Hhp & _).
  split.
  - unfold well_routed. rewrite Hw, Hm, Hhp. split_and!; [done| |].
    + intros ch resp Hs. destruct Hh as [Hh|[Hh|Hh]]; congruence.
    + intros j wr ch resp [Hj|[_ Hj]]%lookup_app_Some Hs; [by eapply Hws|].
      apply (proj1 (Forall_lookup _ _) Hpc _ _) in Hj. congruence.
  - eexists. split; [exact Ht|]. apply Forall_app. split.
    + apply Forall_map, Forall_true. by intros wr.
    + eapply Forall_impl; [exact Hlogs|]. by intros e [l ->].
Qed.

Lemma Bridge_routed s :
  well_routed s →
  let s' := Bridge transport s in
  well_routed s'
  ∧ ∃ evs, trace s' = trace s ++ evs
           ∧ Forall (rightful_event (heap s)) evs.
Proof.
  intros (Hk & Hs & Hws); cbn zeta.
  handler_paths.
  all: try (split; [done|exists []; by rewrite app_nil_r]).
  all: try (apply (Bridge_nodes_routed _ _ (set_requestMap ∅ (set_body _ s)));
            [by intros i p ?|exact Hws]).
  all: unfold well_routed; cbn.
  all: split; [split_and!|].
  all: try done.
  all: try (by exists []; rewrite app_nil_r).
  all: try (new_events; by apply Hs).
  all: try (by apply keyed_by_id_delete).
  all: try (intros ch0 resp0 Hh0; apply Hs; congruence).
  intros ch resp [= <- <-]. exists p, n. split_and!; [done..|left].
  destruct (Hk _ _ H3) as (r & Hr & Hid). rewrite promote_Id. congruence.
Qed.

Lemma step_routed a s :
  well_routed s →
  well_routed (step a s)
  ∧ ∃ evs, trace (step a s) = trace s ++ evs
           ∧ Forall (rightful_event (heap s)) evs.
Proof.
  intros Hr. rewrite step_unfold.
  destruct (crashed s); [split; [done|exists []; by rewrite app_nil_r]|].
  destruct a as [|i|ns p|ch].
  - by apply Bridge_routed.
  - by apply writer_routed.
  - operator_paths; (split; [done|exists []; by rewrite app_nil_r]).
  - operator_paths; (split; [done|exists []; by rewrite app_nil_r]).
Qed.

Lemma run_routed sched s :
  well_routed s →
  well_routed (run sched s)
  ∧ ∃ evs, trace (run sched s) = trace s ++ evs
           ∧ Forall (rightful_event (heap s)) evs.
Proof.
  revert s. induction sched as [|a sched IH]; intros s Hr.
  { split; [done|exists []; by rewrite app_nil_r]. }
  rewrite run_cons.
  destruct (step_routed a s Hr) as (Hr1 & evs1 & Ht1 & He1).
  destruct (IH _ Hr1) as (Hr2 & evs2 & Ht2 & He2).
  split; [done|]. exists (evs1 ++ evs2).
  rewrite Ht2, Ht1, app_assoc. split; [done|].
  apply Forall_app. split; [done|].
  eapply Forall_impl; [exact He2|]. intros [] He; try done.
  eapply rightful_earlier; [|exact He].
  by destruct (step_continues a s) as (_ & _ & Hh & _).
Qed.

(** X7: no chunk goes astray.  On a connection whose correlator is keyed
    by the ids of its requests, as it is after the handshake, every chunk
    that any schedule puts on a sink belongs there: the sink is the
    [Responses] channel of a request that bears the id of the chunk, or
    the chunk is the error chunk that a writer made up for a request that
    answers on this sink.  The correlator stays keyed by the ids of its
    requests. *)
Theorem chunks_reach_only_their_request sched s :
  well_routed s →
  let s' := run sched s in
  well_routed s'
  ∧ Forall (rightful_event (heap s)) (events_since (trace s) (trace s')).
Proof.
  intros Hr; cbn zeta.
  destruct (run_routed sched s Hr) as (Hr' & evs & Ht & He).
  split; [done|]. unfold events_since. by rewrite Ht, drop_app_length.
Qed.

(** ** A writer on a transport that works *)

Lemma flushes_Flush (rw : ResponseWriter) :
  flushes (rw_Flush rw) = S (flushes rw).
Proof. unfold rw_Flush, rw_WriteHeader; cbn. by destruct (status rw). Qed.

Lemma writer_drains s i ns q ps bs :
  crashed s = false →
  writers s !! i = Some {| w_session := ns; w_pc := WRange |} →
  queues s !! ns = Some q →
  Go.buf q = ps →
  (∀ k, transport k = None) →
  Forall2 (λ p b, ∃ r, heap s !! p = Some r
                       ∧ json_Marshal (Request r) = Go.Ok b) ps bs →
  let s' := run (replicate (2 * length ps) (WriterOf i)) s in
  crashed s' = false
  ∧ written (w s') = written (w s) ++ bs
  ∧ flushes (w s') = flushes (w s) + length ps
  ∧ requestMap s' = foldl (register (heap s)) (requestMap s) ps
  ∧ queues s' = <[ns := Go.Chan [] (Go.cap q) (Go.closed q)]> (queues s)
  ∧ writers s' = writers s
  ∧ trace s' = trace s ++ map (λ b, EvLog ("Sending request " +:+ b)) bs
  ∧ heap s' = heap s
  ∧ sinks s' = sinks s
  ∧ cache s' = cache s
  ∧ handler s' = handler s
  ∧ body s' = body s.
Proof.
  intros Hc Hi Hq Hbuf Hup Hall; cbn zeta.
  remember (heap s) as h eqn:Hh. revert s q Hh Hc Hi Hq Hbuf.
  induction Hall as [|p b ps bs (r & Hp & Hm) _ IH];
    intros s q -> Hc Hi Hq Hbuf.
  { cbn. rewrite !app_nil_r, Nat.add_0_r. split_and!; try done.
    rewrite <- Hbuf. destruct q. cbn. by rewrite insert_id. }
  replace (2 * length (p :: ps)) with (S (S (2 * length ps))) by (cbn; lia).
  cbn [replicate]. rewrite !run_cons.
  rewrite (step_writer _ _ s i _ Hc Hi); cbn [w_pc w_session].
  unfold writer_range. rewrite Hq. unfold Go.recv. rewrite Hbuf.
  set (s1 := set_writer_pc _ _ _ _).
  assert (writers s1 !! i = Some {| w_session := ns; w_pc := WHolding p |})
    as Hi1 by (by eapply writer_pc_lookup).
  rewrite (step_writer _ _ s1 i _ Hc Hi1); cbn [w_pc w_session].
  rewrite (writer_body_write_ok _ _ s1 i ns p r b Hp Hm (Hup _)).
  set (s2 := set_writer_pc _ _ _ _).
  destruct (IH s2 (Go.Chan ps (Go.cap q) (Go.closed q)))
    as (G1 & G2 & G3 & G4 & G5 & G6 & G7 & G8 & G9 & G10 & G11 & G12);
    try done.
  { by eapply writer_pc_lookup. }
  { cbn. apply lookup_insert_eq. }
  rewrite G2, G3, G4, G5, G6, G7, G8, G9, G10, G11, G12. cbn.
  rewrite written_Flush, flushes_Flush; cbn.
  rewrite <- !app_assoc; cbn.
  split_and!; try done.
  - f_equal. unfold register. by rewrite Hp.
  - by rewrite insert_insert_eq.
  - rewrite list_insert_insert_eq. by apply list_insert_id.
Qed.

Lemma run_nil s : run [] s = s.
Proof. reflexivity. Qed.

Lemma run_app sched1 sched2 s :
  run (sched1 ++ sched2) s = run sched2 (run sched1 s).
Proof.
  revert s. induction sched1 as [|a sched1 IH]; intros s; [done|].
  cbn [app]. rewrite !run_cons. apply IH.
Qed.

Lemma returned_writer_stays a s j wr :
  writers s !! j = Some wr → w_pc wr = WReturned →
  writers (step a s) !! j = Some wr.
Proof.
  intros Hj Hr. rewrite step_unfold. destruct (crashed s); [done|].
  destruct a as [|i|ns p|ch].
  - assert (∃ new, writers (Bridge transport s) = writers s ++ new)
      as [new ->].
    { handler_paths; try (exists []; by rewrite app_nil_r).
      set (s0 := set_requestMap _ _).
      destruct (Bridge_nodes_effect (ci_Sessions c) (ci_Nodes c) s0)
        as (new & logs & Hw & _).
      by exists new. }
    by apply lookup_app_l_Some.
  - destruct (decide (i = j)) as [->|Hne].
    + unfold writer. by rewrite Hj, Hr.
    + writer_paths; by rewrite ?list_lookup_insert_ne.
  - by operator_paths.
  - by operator_paths.
Qed.

Lemma returned_writer_stays_run sched s j wr :
  writers s !! j = Some wr → w_pc wr = WReturned →
  writers (run sched s) !! j = Some wr.
Proof.
  revert s. induction sched as [|a sched IH]; intros s Hj Hr; [done|].
  rewrite run_cons. apply IH; [|done]. by apply returned_writer_stays.
Qed.

(** X8: on a transport that takes every write, the writer of a node
    sends the requests of its queue in the order in which they were
    queued.  After two moves of the writer per request the response body
    has grown by the marshalled requests in queue order, each write was
    followed by a flush, every request is in the correlator under its id
    (a later request taking the place of an earlier one with the same
    id), the queue is empty and the writer is back at its [range]; no
    chunk was sent to a sink and no retry counter was touched. *)
Theorem requests_go_out_in_queue_order s i ns q ps bs :
  crashed s = false →
  writers s !! i = Some {| w_session := ns; w_pc := WRange |} →
  queues s !! ns = Some q →
  Go.buf q = ps →
  (∀ k, transport k = None) →
  Forall2 (λ p b, ∃ r, heap s !! p = Some r
                       ∧ json_Marshal (Request r) = Go.Ok b) ps bs →
  let s' := run (replicate (2 * length ps) (WriterOf i)) s in
  written (w s') = written (w s) ++ bs
  ∧ flushes (w s') = flushes (w s) + length ps
  ∧ requestMap s' = foldl (register (heap s)) (requestMap s) ps
  ∧ queues s' = <[ns := Go.Chan [] (Go.cap q) (Go.closed q)]> (queues s)
  ∧ writers s' = writers s
  ∧ trace s' = trace s ++ map (λ b, EvLog ("Sending request " +:+ b)) bs
  ∧ heap s' = heap s
  ∧ sinks s' = sinks s.
Proof.
  intros Hc Hi Hq Hbuf Hup Hall; cbn zeta.
  destruct (writer_drains s i ns q ps bs Hc Hi Hq Hbuf Hup Hall)
    as (_ & G2 & G3 & G4 & G5 & G6 & G7 & G8 & G9 & _).
  by split_and!.
Qed.

(** X9: a queue that has been closed is drained before the writer ends.
    The writer sends the requests that were still queued, in order, then
    finds the queue closed and empty, leaves its [range] loop and, by the
    deferred call, disconnects its node session: once, as its last act.
    Whatever is scheduled afterwards, the writer stays ended. *)
Theorem closed_queue_is_drained_then_writer_ends s i ns q ps bs sched :
  crashed s = false →
  writers s !! i = Some {| w_session := ns; w_pc := WRange |} →
  queues s !! ns = Some q →
  Go.buf q = ps →
  Go.closed q = true →
  (∀ k, transport k = None) →
  Forall2 (λ p b, ∃ r, heap s !! p = Some r
                       ∧ json_Marshal (Request r) = Go.Ok b) ps bs →
  let s' := run (replicate (2 * length ps) (WriterOf i) ++ [WriterOf i]) s in
  written (w s') = written (w s) ++ bs
  ∧ writers s' !! i = Some {| w_session := ns; w_pc := WReturned |}
  ∧ cache s' = Disconnect ns (cache s)
  ∧ trace s'
    = trace s ++ map (λ b, EvLog ("Sending request " +:+ b)) bs
      ++ [EvDisconnect ns]
  ∧ writers (run sched s') !! i
    = Some {| w_session := ns; w_pc := WReturned |}.
Proof.
  intros Hc Hi Hq Hbuf Hcl Hup Hall; cbn zeta.
  destruct (writer_drains s i ns q ps bs Hc Hi Hq Hbuf Hup Hall)
    as (G1 & G2 & G3 & G4 & G5 & G6 & G7 & G8 & G9 & G10 & G11 & G12).
  rewrite run_app. remember (run (replicate _ _) s) as s1 eqn:Hs1.
  clear Hs1.
  assert (writers s1 !! i = Some {| w_session := ns; w_pc := WRange |})
    as Hi1 by (by rewrite G6).
  assert (run [WriterOf i] s1
          = set_writer_pc i ns WReturned
              (emit (EvDisconnect ns)
                 (set_cache (Disconnect ns (cache s1)) s1))) as Hlast.
  { rewrite run_cons, run_nil, (step_writer _ _ s1 i _ G1 Hi1);
      cbn [w_pc w_session].
    unfold writer_range. rewrite G5, lookup_insert_eq. unfold Go.recv; cbn.
    by rewrite Hcl. }
  assert (writers (run [WriterOf i] s1) !! i
          = Some {| w_session := ns; w_pc := WReturned |}) as Hret.
  { rewrite Hlast. by eapply writer_pc_lookup. }
  split_and!; [..|by apply returned_writer_stays_run]; try done;
    rewrite Hlast; cbn.
  - done.
  - by rewrite G10.
  - by rewrite G7, <- app_assoc.
Qed.


(** ** A transport that recovers *)

Lemma retry_round s i ns p request bytes q e :
  crashed s = false →
  writers s !! i = Some {| w_session := ns; w_pc := WHolding p |} →
  heap s !! p = Some request →
  json_Marshal (Request request) = Go.Ok bytes →
  queues s !! ns = Some q →
  Go.buf q = [] → Go.closed q = false → 0 < Go.cap q →
  (Go.int_incr (Retries request) < 15)%Z →
  transport (attempts (w s)) = Some e →
  let s' := run [WriterOf i; WriterOf i] s in
  crashed s' = false
  ∧ writers s' = writers s
  ∧ heap s' = <[p := {| Request := Request request;
                        Responses := Responses request;
                        Retries := Go.int_incr (Retries request) |}]>
                (heap s)
  ∧ queues s' = queues s
  ∧ requestMap s' = delete (rpc_Id (Request request)) (requestMap s)
  ∧ written (w s') = written (w s)
  ∧ attempts (w s') = S (attempts (w s))
  ∧ trace s' = trace s ++ [EvLog ("Sending request " +:+ bytes);
                           EvRequeue p]
  ∧ sinks s' = sinks s.
Proof.
  intros Hc Hi Hp Hm Hq Hbuf Hcl Hcap Hr Ht; cbn zeta.
  rewrite !run_cons, run_nil.
  rewrite (step_writer _ _ s i _ Hc Hi); cbn [w_pc w_session].
  rewrite (writer_body_write_fails _ _ s i ns p request bytes e Hp Hm Ht).
  cbn zeta. rewrite (proj2 (Z.ltb_lt _ _) Hr).
  unfold writer_requeue. cbn [queues after_failed_write set_heap
    set_requestMap set_w emit set_trace]. rewrite Hq.
  unfold Go.send. rewrite Hcl. unfold Go.has_room. rewrite Hbuf.
  cbn [length app]. rewrite (proj2 (Nat.ltb_lt _ _) Hcap).
  set (s1 := set_writer_pc _ _ _ _).
  assert (writers s1 !! i = Some {| w_session := ns; w_pc := WRange |})
    as Hi1 by (by eapply writer_pc_lookup).
  rewrite (step_writer _ _ s1 i _ Hc Hi1); cbn [w_pc w_session].
  unfold writer_range. cbn. rewrite lookup_insert_eq. cbn.
  rewrite insert_insert_eq, list_insert_insert_eq, <- app_assoc.
  split_and!; try done.
  - by apply list_insert_id.
  - destruct q as [b c cl]; cbn in *; subst. by apply insert_id.
Qed.

(** X10: write failures that pass are retried without anybody noticing.
    When the writes of a request fail [n] times running, with the retry
    counter staying below 15, and the next write goes through, the writer
    puts the request back on its queue after each failure and takes it
    up again, and in the end the request is on the response body once
    and in the correlator under its id; its retry counter has gone up by
    [n], it was re-enqueued [n] times, and no chunk, so no error, was
    sent to any sink. *)
Theorem transient_write_failures_are_retried s i ns p request bytes q n :
  crashed s = false →
  writers s !! i = Some {| w_session := ns; w_pc := WHolding p |} →
  heap s !! p = Some request →
  json_Marshal (Request request) = Go.Ok bytes →
  queues s !! ns = Some q →
  Go.buf q = [] → Go.closed q = false → 0 < Go.cap q →
  (0 ≤ Retries request)%Z →
  (Retries request + Z.of_nat n < 15)%Z →
  (∀ k, k < n → is_Some (transport (attempts (w s) + k))) →
  transport (attempts (w s) + n) = None →
  let s' := run (replicate (2 * n + 1) (WriterOf i)) s in
  crashed s' = false
  ∧ written (w s') = written (w s) ++ [bytes]
  ∧ requestMap s' = <[rpc_Id (Request request) := p]> (requestMap s)
  ∧ heap s' !! p
    = Some {| Request := Request request; Responses := Responses request;
              Retries := Retries request + Z.of_nat n |}
  ∧ (∀ p', p' ≠ p → heap s' !! p' = heap s !! p')
  ∧ requeues p (trace s') = requeues p (trace s) + n
  ∧ (∀ ch, delivered ch (trace s') = delivered ch (trace s))
  ∧ queues s' = queues s
  ∧ sinks s' = sinks s
  ∧ writers s' = <[i := {| w_session := ns; w_pc := WRange |}]> (writers s).
Proof.
  cbn zeta. revert s request.
  induction n as [|n IH];
    intros s request Hc Hi Hp Hm Hq Hbuf Hcl Hcap Hr0 Hr Hfail Hok.
  - cbn [Nat.mul Nat.add replicate]. rewrite run_cons, run_nil.
    rewrite (step_writer _ _ s i _ Hc Hi); cbn [w_pc w_session].
    rewrite Nat.add_0_r in Hok.
    rewrite (writer_body_write_ok _ _ s i ns p request bytes Hp Hm Hok).
    cbn. rewrite written_Flush, requeues_snoc; cbn.
    rewrite Z.add_0_r, Hp. split_and!; try done; try lia.
    + by destruct request.
    + intros ch. by rewrite delivered_snoc, app_nil_r.
  - replace (2 * S n + 1) with (2 + (2 * n + 1)) by lia.
    rewrite replicate_add, run_app. cbn [replicate].
    destruct (Hfail 0) as [e He]; [lia|]. rewrite Nat.add_0_r in He.
    assert (Go.int_incr (Retries request) = (Retries request + 1)%Z)
      as Hincr by (apply int_incr_small; lia).
    destruct (retry_round s i ns p request bytes q e)
      as (G1 & G2 & G3 & G4 & G5 & G6 & G7 & G8 & G9); try done; [lia|].
    remember (run [WriterOf i; WriterOf i] s) as s2 eqn:Hs2. clear Hs2.
    destruct (IH s2 {| Request := Request request;
                       Responses := Responses request;
                       Retries := Go.int_incr (Retries request) |})
      as (F1 & F2 & F3 & F4 & F5 & F6 & F7 & F8 & F9 & F10);
      [cbn; try done..|].
    + by rewrite G2.
    + by rewrite G3, lookup_insert_eq.
    + by rewrite G4.
    + lia.
    + lia.
    + intros k Hk. rewrite G7. cbn.
      replace (S (attempts (w s) + k)) with (attempts (w s) + S k) by lia.
      apply Hfail. lia.
    + rewrite G7. cbn.
      by replace (S (attempts (w s) + n)) with (attempts (w s) + S n) by lia.
    + rewrite F2, F3, F4, F6, F8, F9, F10, G2, G4, G5, G6, G9. cbn.
      split_and!; try done.
      * by rewrite insert_delete_eq.
      * do 2 f_equal. lia.
      * intros p' Hp'. by rewrite F5, G3, lookup_insert_ne.
      * rewrite G8.
        change [EvLog ("Sending request " +:+ bytes); EvRequeue p]
          with ([EvLog ("Sending request " +:+ bytes)] ++ [EvRequeue p]).
        rewrite app_assoc, !requeues_snoc.
        rewrite decide_False, decide_True by done. lia.
      * intros ch. rewrite F7, G8.
        change [EvLog ("Sending request " +:+ bytes); EvRequeue p]
          with ([EvLog ("Sending request " +:+ bytes)] ++ [EvRequeue p]).
        by rewrite app_assoc, !delivered_snoc, !app_nil_r.
Qed.

(** ** A request and its answer *)

Lemma round_trip s i ns p request bytes f rest response c :
  crashed s = false →
  writers s !! i = Some {| w_session := ns; w_pc := WHolding p |} →
  heap s !! p = Some request →
  json_Marshal (Request request) = Go.Ok bytes →
  transport (attempts (w s)) = None →
  handler s = HDecode →
  frames (body s) = f :: rest →
  as_response f = Some response →
  resp_Id response = rpc_Id (Request request) →
  sinks s !! Responses request = Some c →
  Go.closed c = false →
  Go.has_room c = true →
  let s' := run [WriterOf i; Handler; Handler] s in
  written (w s') = written (w s) ++ [bytes]
  ∧ sinks s'
    = <[Responses request := Go.Chan (Go.buf c ++ [promote response])
                               (Go.cap c) false]> (sinks s)
  ∧ trace s' = trace s ++ [EvLog ("Sending request " +:+ bytes);
                           EvDeliver (Responses request) (promote response)]
  ∧ requestMap s'
    = (if resp_Last (promote response)
       then delete (rpc_Id (Request request)) (requestMap s)
       else <[rpc_Id (Request request) := p]> (requestMap s))
  ∧ heap s' = heap s
  ∧ handler s' = HDecode
  ∧ body s' = {| frames := rest; ended := ended (body s) |}.
Proof.
  intros Hc Hi Hp Hm Ht Hh Hf Hr Hid Hs Hcl Hroom; cbn zeta.
  rewrite !run_cons, run_nil.
  rewrite (step_writer _ _ s i _ Hc Hi); cbn [w_pc w_session].
  rewrite (writer_body_write_ok _ _ s i ns p request bytes Hp Hm Ht).
  set (s1 := set_writer_pc _ _ _ _).
  assert (step Handler s1
          = set_handler (HSending (Responses request) (promote response))
              (set_body {| frames := rest; ended := ended (body s) |} s1))
    as ->.
  { rewrite (step_handler _ _ s1 Hc). unfold Bridge.
    change (handler s1) with (handler s). rewrite Hh.
    unfold Bridge_decode, Decode. change (body s1) with (body s).
    rewrite Hf, Hr. cbn [requestMap set_body heap].
    change (requestMap s1)
      with (<[rpc_Id (Request request) := p]> (requestMap s)).
    rewrite Hid, lookup_insert_eq. change (heap s1) with (heap s).
    by rewrite Hp. }
  set (s2 := set_handler _ _).
  rewrite (step_handler _ _ s2 Hc). unfold Bridge.
  cbn [handler s2 set_handler].
  rewrite (Bridge_deliver_sent s2 _ _ c Hs Hcl Hroom).
  rewrite promote_Id, Hid.
  destruct (resp_Last (promote response)); cbn;
    rewrite written_Flush, <- app_assoc; cbn;
    rewrite ?delete_insert_eq; by split_and!.
Qed.

(** X11: what the writer registers, the read loop finds.  A request that
    a writer sends over a working transport is on the response body and
    in the correlator before the read loop looks at the next frame; when
    that frame is a chunk with the id of the request and the sink has
    room, the chunk is on the sink of the request two moves of the
    handler later, promoted to last when it bears an error, and the
    entry is out of the correlator exactly when the chunk was last.  The
    retry counter is not touched. *)
Theorem sent_request_gets_its_answer s i ns p request bytes f rest
    response c :
  crashed s = false →
  writers s !! i = Some {| w_session := ns; w_pc := WHolding p |} →
  heap s !! p = Some request →
  json_Marshal (Request request) = Go.Ok bytes →
  transport (attempts (w s)) = None →
  handler s = HDecode →
  frames (body s) = f :: rest →
  as_response f = Some response →
  resp_Id response = rpc_Id (Request request) →
  sinks s !! Responses request = Some c →
  Go.closed c = false →
  Go.has_room c = true →
  let s' := run [WriterOf i; Handler; Handler] s in
  written (w s') = written (w s) ++ [bytes]
  ∧ delivered (Responses request) (trace s')
    = delivered (Responses request) (trace s) ++ [promote response]
  ∧ (∀ ch, ch ≠ Responses request →
       delivered ch (trace s') = delivered ch (trace s))
  ∧ requestMap s' !! rpc_Id (Request request)
    = (if resp_Last (promote response) then None else Some p)
  ∧ heap s' = heap s
  ∧ handler s' = HDecode
  ∧ frames (body s') = rest.
Proof.
  intros Hc Hi Hp Hm Ht Hh Hf Hr Hid Hs Hcl Hroom; cbn zeta.
  destruct (round_trip s i ns p request bytes f rest response c)
    as (G1 & G2 & G3 & G4 & G5 & G6 & G7); try done.
  rewrite G1, G3, G4, G5, G6, G7.
  change [EvLog ("Sending request " +:+ bytes);
          EvDeliver (Responses request) (promote response)]
    with ([EvLog ("Sending request " +:+ bytes)]
          ++ [EvDeliver (Responses request) (promote response)]).
  rewrite app_assoc. split_and!; try done.
  - rewrite !delivered_snoc, app_nil_r. by rewrite decide_True.
  - intros ch Hch. rewrite !delivered_snoc, !app_nil_r.
    rewrite decide_False by done. by rewrite app_nil_r.
  - destruct (resp_Last (promote response));
      [apply lookup_delete_eq|apply lookup_insert_eq].
Qed.

(** X12: an id that is used twice.  When a writer sends a request whose
    id is in the correlator already, for an earlier request that is
    still waiting for its answer, the later request takes the entry.
    The chunk that comes next under the id goes to the sink of the later
    request; nothing is sent to the sink of the earlier one, and no
    entry of the correlator leads to the earlier request any more. *)
Theorem reused_id_displaces_earlier_request s i ns p request bytes f rest
    response c p1 r1 :
  crashed s = false →
  writers s !! i = Some {| w_session := ns; w_pc := WHolding p |} →
  heap s !! p = Some request →
  json_Marshal (Request request) = Go.Ok bytes →
  transport (attempts (w s)) = None →
  handler s = HDecode →
  frames (body s) = f :: rest →
  as_response f = Some response →
  resp_Id response = rpc_Id (Request request) →
  sinks s !! Responses request = Some c →
  Go.closed c = false →
  Go.has_room c = true →
  requestMap s !! rpc_Id (Request request) = Some p1 →
  (∀ j, requestMap s !! j = Some p1 → j = rpc_Id (Request request)) →
  heap s !! p1 = Some r1 →
  Responses r1 ≠ Responses request →
  let s' := run [WriterOf i; Handler; Handler] s in
  delivered (Responses request) (trace s')
  = delivered (Responses request) (trace s) ++ [promote response]
  ∧ delivered (Responses r1) (trace s') = delivered (Responses r1) (trace s)
  ∧ sinks s' !! Responses r1 = sinks s !! Responses r1
  ∧ (∀ j, requestMap s' !! j ≠ Some p1).
Proof.
  intros Hc Hi Hp Hm Ht Hh Hf Hr Hid Hs Hcl Hroom Hold Hsole Hp1 Hne;
    cbn zeta.
  assert (p1 ≠ p) as Hpp by (intros ->; congruence).
  destruct (round_trip s i ns p request bytes f rest response c)
    as (G1 & G2 & G3 & G4 & G5 & G6 & G7); try done.
  rewrite G2, G3, G4.
  change [EvLog ("Sending request " +:+ bytes);
          EvDeliver (Responses request) (promote response)]
    with ([EvLog ("Sending request " +:+ bytes)]
          ++ [EvDeliver (Responses request) (promote response)]).
  rewrite app_assoc, !delivered_snoc, !app_nil_r.
  rewrite decide_True, decide_False by done.
  rewrite app_nil_r, lookup_insert_ne by done.
  split_and!; try done.
  intros j. destruct (resp_Last (promote response)).
  - intros [Hj Hl]%lookup_delete_Some. apply Hj. symmetry. by apply Hsole.
  - intros [[_ ?]|[Hj Hl]]%lookup_insert_Some; [done|].
    apply Hj. symmetry. by apply Hsole.
Qed.

(** ** Who touches what *)

Lemma others_leave_the_body a s :
  a ≠ Handler →
  handler (step a s) = handler s ∧ body (step a s) = body s.
Proof.
  intros Ha. rewrite step_unfold. destruct (crashed s); [done|].
  destruct a as [|i|ns p|ch]; [done|..].
  - by destruct (writer_effects json_Marshal transport i s) as (? & ? & _).
  - by operator_paths.
  - by operator_paths.
Qed.

Lemma handler_stopped a s :
  handler s = HPanicked ∨ handler s = HReturned →
  handler (step a s) = handler s
  ∧ body (step a s) = body s.
Proof.
  intros Hh. destruct (decide (a = Handler)) as [->|Ha].
  - rewrite step_unfold. destruct (crashed s); [done|].
    unfold Bridge. by destruct Hh as [Hh|Hh]; rewrite Hh.
  - by apply others_leave_the_body.
Qed.

Lemma writer_made_up i s :
  writers_send_made_up s →
  let s' := writer json_Marshal transport i s in
  writers_send_made_up s'
  ∧ ∃ evs, trace s' = trace s ++ evs ∧ Forall made_up_event evs.
Proof.
  intros Hws; cbn zeta. writer_paths.
  all: try (split; [done|exists []; by rewrite app_nil_r]).
  all: unfold writers_send_made_up; cbn.
  all: split;
    [try (apply (sends_insert (λ _ r, made_up r)); [exact Hws|];
          intros ch0 resp0 Hpc;
          first [discriminate Hpc|simplify_eq; by eexists]);
     try exact Hws
    |try (by exists []; rewrite app_nil_r); try new_events].
  by eapply Hws.
Qed.

Lemma stopped_step a s :
  handler s = HPanicked ∨ handler s = HReturned →
  writers_send_made_up s →
  let s' := step a s in
  writers_send_made_up s'
  ∧ ∃ evs, trace s' = trace s ++ evs ∧ Forall made_up_event evs.
Proof.
  intros Hh Hws; cbn zeta. rewrite step_unfold.
  destruct (crashed s); [split; [done|exists []; by rewrite app_nil_r]|].
  destruct a as [|i|ns p|ch].
  - unfold Bridge.
    destruct Hh as [Hh|Hh]; rewrite Hh;
      (split; [done|exists []; by rewrite app_nil_r]).
  - by apply writer_made_up.
  - operator_paths; (split; [done|exists []; by rewrite app_nil_r]).
  - operator_paths; (split; [done|exists []; by rewrite app_nil_r]).
Qed.

Lemma stopped_run sched s :
  handler s = HPanicked ∨ handler s = HReturned →
  writers_send_made_up s →
  let s' := run sched s in
  handler s' = handler s
  ∧ body s' = body s
  ∧ ∃ evs, trace s' = trace s ++ evs ∧ Forall made_up_event evs.
Proof.
  cbn zeta. revert s. induction sched as [|a sched IH]; intros s Hh Hws.
  { split_and!; try done. exists []. by rewrite app_nil_r. }
  rewrite run_cons.
  destruct (handler_stopped a s Hh) as [H1 H2].
  destruct (stopped_step a s Hh Hws) as (Hws1 & evs1 & Ht1 & He1).
  destruct (IH (step a s)) as (G1 & G2 & evs2 & Ht2 & He2);
    [by rewrite H1|done|].
  rewrite G1, G2, H1, H2, Ht2, Ht1. split_and!; try done.
  exists (evs1 ++ evs2). rewrite app_assoc. split; [done|].
  by apply Forall_app.
Qed.

(** X13: a chunk for a sink that has been closed ends the read loop of
    the whole connection.  The send panics; the chunk is lost and its
    entry stays in the correlator.  From then on, however the goroutines
    are scheduled, the handler does nothing: no further frame of the
    request body is read, and the only chunks that still reach a sink are
    the error chunks that the writers make up. *)
Theorem closed_sink_ends_the_read_loop s ch response c sched :
  crashed s = false →
  handler s = HSending ch response →
  sinks s !! ch = Some c →
  Go.closed c = true →
  writers_send_made_up s →
  step Handler s = set_handler HPanicked s
  ∧ let s' := run (Handler :: sched) s in
    handler s' = HPanicked
    ∧ body s' = body s
    ∧ Forall made_up_event (events_since (trace s) (trace s')).
Proof.
  intros Hc Hh Hs Hcl Hws.
  assert (step Handler s = set_handler HPanicked s) as Hstep.
  { rewrite step_unfold, Hc. unfold Bridge. rewrite Hh.
    unfold Bridge_deliver, Go.send. by rewrite Hs, Hcl. }
  split; [done|]. cbn zeta. rewrite run_cons, Hstep.
  destruct (stopped_run sched (set_handler HPanicked s))
    as (G1 & G2 & evs & Ht & He); [by left|done|].
  rewrite G1, G2, Ht. split_and!; try done.
  unfold events_since. cbn. by rewrite drop_app_length.
Qed.

(** X14: a writer that is to send its error chunk to a sink that has
    been closed panics.  The deferred [Disconnect] runs, the chunk is not
    delivered, and the panic, which nothing recovers, ends the process:
    no goroutine of this connection moves again. *)
Theorem closed_sink_ends_the_process s i ns ch response c sched :
  crashed s = false →
  writers s !! i = Some {| w_session := ns; w_pc := WSending ch response |} →
  sinks s !! ch = Some c →
  Go.closed c = true →
  let s' := step (WriterOf i) s in
  crashed s' = true
  ∧ cache s' = Disconnect ns (cache s)
  ∧ trace s' = trace s ++ [EvDisconnect ns]
  ∧ sinks s' = sinks s
  ∧ run sched s' = s'.
Proof.
  intros Hc Hi Hs Hcl; cbn zeta.
  rewrite (step_writer _ _ s i _ Hc Hi); cbn [w_pc w_session].
  unfold writer_send, Go.send. rewrite Hs, Hcl.
  split_and!; try done. by apply crashed_stays.
Qed.

(** X15: the retry of a failed write on a queue that has been closed
    panics as well: the [select] with its [default] does not guard the
    send against a closed channel.  The request is out of the correlator
    and gets no final chunk, its retry counter is one up, the deferred
    [Disconnect] runs and the process ends. *)
Theorem retry_on_closed_queue_ends_the_process s i ns p request bytes e q
    sched :
  crashed s = false →
  writers s !! i = Some {| w_session := ns; w_pc := WHolding p |} →
  heap s !! p = Some request →
  json_Marshal (Request request) = Go.Ok bytes →
  transport (attempts (w s)) = Some e →
  (Go.int_incr (Retries request) < 15)%Z →
  queues s !! ns = Some q →
  Go.closed q = true →
  let s' := step (WriterOf i) s in
  crashed s' = true
  ∧ cache s' = Disconnect ns (cache s)
  ∧ trace s' = trace s ++ [EvLog ("Sending request " +:+ bytes);
                           EvDisconnect ns]
  ∧ requestMap s' = delete (rpc_Id (Request request)) (requestMap s)
  ∧ heap s' !! p
    = Some {| Request := Request request; Responses := Responses request;
              Retries := Go.int_incr (Retries request) |}
  ∧ queues s' = queues s
  ∧ sinks s' = sinks s
  ∧ run sched s' = s'.
Proof.
  intros Hc Hi Hp Hm Ht Hr Hq Hcl; cbn zeta.
  rewrite (step_writer _ _ s i _ Hc Hi); cbn [w_pc w_session].
  rewrite (writer_body_write_fails _ _ s i ns p request bytes e Hp Hm Ht).
  cbn zeta. rewrite (proj2 (Z.ltb_lt _ _) Hr).
  unfold writer_requeue. cbn [queues after_failed_write set_heap
    set_requestMap set_w emit set_trace]. rewrite Hq.
  unfold Go.send. rewrite Hcl. cbn.
  rewrite lookup_insert_eq, <- app_assoc.
  split_and!; try done. by apply crashed_stays.
Qed.

(** ** The read loop *)

Lemma reading_Bridge s :
  reading s →
  let s' := Bridge transport s in
  (reading s' ∨ handler s' = HPanicked)
  ∧ w s' = w s ∧ cache s' = cache s ∧ queues s' = queues s
  ∧ heap s' = heap s ∧ writers s' = writers s ∧ crashed s' = crashed s.
Proof.
  intros [Hh|(ch & resp & Hh)]; cbn zeta; unfold Bridge; rewrite Hh.
  - unfold Bridge_decode, Decode.
    repeat case_match; simplify_eq/=; split_and!; try done;
      first [by left; left|by right|left; right; by eexists _, _].
  - unfold Bridge_deliver, Go.send.
    repeat case_match; simplify_eq/=; split_and!; try done;
      first [by left; left|by right|left; right; by eexists _, _].
Qed.

Lemma reading_step a s :
  reading s ∨ handler s = HPanicked →
  reading (step a s) ∨ handler (step a s) = HPanicked.
Proof.
  intros Hh. destruct (decide (a = Handler)) as [->|Ha].
  - rewrite step_unfold. destruct (crashed s); [done|].
    destruct Hh as [Hh|Hh]; [by apply reading_Bridge|].
    right. unfold Bridge. by rewrite Hh.
  - destruct (others_leave_the_body a s Ha) as [H1 _].
    unfold reading. by rewrite H1.
Qed.

Lemma others_leave_the_body_run sched s :
  Forall (λ a, a ≠ Handler) sched →
  body (run sched s) = body s ∧ handler (run sched s) = handler s.
Proof.
  intros Hs. revert s. induction Hs as [|a sched Ha _ IH]; intros s; [done|].
  rewrite run_cons. destruct (IH (step a s)) as [-> ->].
  by destruct (others_leave_the_body a s Ha) as [-> ->].
Qed.

(** X16: the read loop has no way out, and the goroutines keep to their
    own.  Once the handler is in its read loop it is in the loop, or
    aborted by a panic, after any schedule: it never returns.  The moves
    of the handler in the loop leave the response, the registry, the
    queues, the requests with their retry counters and the writer
    goroutines as they are; the moves of the writers and of the operator
    side leave the request body and the handler as they are, so no write
    failure, retry or error chunk of a writer ends the loop or takes a
    frame off the body. *)
Theorem read_loop_only_reads_and_routes sched s :
  reading s →
  let s' := run sched s in
  (reading s' ∨ handler s' = HPanicked)
  ∧ (Forall (λ a, a = Handler) sched →
     w s' = w s ∧ cache s' = cache s ∧ queues s' = queues s
     ∧ heap s' = heap s ∧ writers s' = writers s
     ∧ crashed s' = crashed s)
  ∧ (Forall (λ a, a ≠ Handler) sched →
     body s' = body s ∧ handler s' = handler s).
Proof.
  intros Hr; cbn zeta. split; [|split].
  - assert (reading s ∨ handler s = HPanicked) as Hh by by left.
    clear Hr. revert s Hh.
    induction sched as [|a sched IH]; intros s Hh; [done|].
    rewrite run_cons. by apply IH, reading_step.
  - intros Hs. assert (reading s ∨ handler s = HPanicked) as Hh by by left.
    clear Hr. revert s Hh.
    induction Hs as [|a sched -> _ IH]; intros s Hh; [done|].
    rewrite run_cons.
    assert (w (step Handler s) = w s ∧ cache (step Handler s) = cache s
            ∧ queues (step Handler s) = queues s
            ∧ heap (step Handler s) = heap s
            ∧ writers (step Handler s) = writers s
            ∧ crashed (step Handler s) = crashed s)
      as (E1 & E2 & E3 & E4 & E5 & E6).
    { rewrite step_unfold. destruct (crashed s) eqn:Hc; [done|].
      destruct Hh as [Hh|Hh].
      - destruct (reading_Bridge s Hh) as (_ & -> & -> & -> & -> & -> & ->).
        by rewrite Hc.
      - unfold Bridge. by rewrite Hh. }
    destruct (IH (step Handler s)) as (F1 & F2 & F3 & F4 & F5 & F6);
      [by apply reading_step|].
    by rewrite F1, F2, F3, F4, F5, F6.
  - apply others_leave_the_body_run.
Qed.

(** ** What goes onto the response *)

Lemma rw_Write_cases bytes (rw : ResponseWriter) e rw' :
  rw_Write transport bytes rw = (e, rw') →
  flushes rw' = flushes rw
  ∧ (e = None ∧ written rw' = written rw ++ [bytes]
     ∨ e ≠ None ∧ written rw' = written rw).
Proof.
  rewrite rw_Write_attempts. destruct (transport (attempts rw));
    intros [= <- <-]; cbn; split; try done; [by right|by left].
Qed.

Lemma flushes_WriteHeader code (rw : ResponseWriter) :
  flushes (rw_WriteHeader code rw) = flushes rw.
Proof. unfold rw_WriteHeader. by destruct (status rw). Qed.

Local Ltac nothing_written :=
  exists []; cbn [length]; rewrite app_nil_r, Nat.add_0_r;
  split_and!; [first [done|congruence]..|done].

Lemma writer_wire i s :
  let s' := writer json_Marshal transport i s in
  ∃ bs,
    written (w s') = written (w s) ++ bs
    ∧ flushes (w s') = flushes (w s) + length bs
    ∧ Forall (λ b, ∃ p r, heap s !! p = Some r
                          ∧ json_Marshal (Request r) = Go.Ok b) bs.
Proof.
  cbn zeta. writer_paths.
  all: repeat match goal with
         | H : rw_Write _ _ _ = _ |- _ =>
             destruct (rw_Write_cases _ _ _ _ H) as [? [[? ?]|[? ?]]];
             clear H
         end; simplify_eq/=.
  all: try nothing_written.
  exists [a]. rewrite written_WriteHeader, flushes_WriteHeader.
  split_and!; [done|cbn; lia|].
  apply Forall_singleton. by exists p, n.
Qed.

Lemma past_handshake_step a s :
  handler s ≠ HStart → handler s ≠ HHandshake →
  handler (step a s) ≠ HStart ∧ handler (step a s) ≠ HHandshake
  ∧ (a = Handler → w (step a s) = w s).
Proof.
  intros H1 H2. destruct (decide (a = Handler)) as [->|Ha].
  - rewrite step_unfold. destruct (crashed s); [done|].
    handler_paths; try congruence;
      (split_and!; [congruence|congruence|done]).
  - destruct (others_leave_the_body a s Ha) as [-> _]. by split_and!.
Qed.

Lemma step_wire a s :
  handler s ≠ HStart → handler s ≠ HHandshake →
  ∃ bs,
    written (w (step a s)) = written (w s) ++ bs
    ∧ flushes (w (step a s)) = flushes (w s) + length bs
    ∧ Forall (λ b, ∃ p r, heap s !! p = Some r
                          ∧ json_Marshal (Request r) = Go.Ok b) bs.
Proof.
  intros H1 H2. destruct a as [|i|ns p|ch].
  - destruct (past_handshake_step Handler s H1 H2) as (_ & _ & Hw).
    rewrite (Hw eq_refl). nothing_written.
  - rewrite step_unfold. destruct (crashed s); [|apply writer_wire].
    nothing_written.
  - rewrite step_unfold. destruct (crashed s); [nothing_written|].
    operator_paths; nothing_written.
  - rewrite step_unfold. destruct (crashed s); [nothing_written|].
    operator_paths; nothing_written.
Qed.

(** X17: once the handshake is over, nothing goes onto the response but
    requests.  Along any schedule the response body only grows, what is
    added is, one by one, the marshalled form of a request of a node
    queue, and every one of these writes is followed by one flush; no
    log line, no error text and no chunk is ever written to the
    companion. *)
Theorem only_requests_go_on_the_wire sched s :
  handler s ≠ HStart →
  handler s ≠ HHandshake →
  let s' := run sched s in
  ∃ bs,
    written (w s') = written (w s) ++ bs
    ∧ flushes (w s') = flushes (w s) + length bs
    ∧ Forall (λ b, ∃ p r, heap s !! p = Some r
                          ∧ json_Marshal (Request r) = Go.Ok b) bs.
Proof.
  cbn zeta. revert s. induction sched as [|a sched IH]; intros s H1 H2.
  { nothing_written. }
  rewrite run_cons.
  destruct (step_wire a s H1 H2) as (bs1 & E1 & E2 & E3).
  destruct (past_handshake_step a s H1 H2) as (G1 & G2 & _).
  destruct (IH (step a s) G1 G2) as (bs2 & F1 & F2 & F3).
  exists (bs1 ++ bs2). rewrite F1, F2, E1, E2, length_app, app_assoc.
  split_and!; [done|lia|]. apply Forall_app. split; [done|].
  eapply Forall_impl; [exact F3|]. intros b (p & r' & Hp & Hm).
  destruct (step_continues a s) as (_ & _ & Hh & _). specialize (Hh p).
  rewrite Hp in Hh. inversion Hh as [? r [HR _] E4 E5|]; simplify_eq.
  exists p, r. by rewrite <- HR.
Qed.

(** ** A handshake without nodes *)

Lemma idle_step a s :
  handler s = HDecode → writers s = [] → requestMap s = ∅ →
  let s' := step a s in
  handler s' = HDecode ∧ writers s' = [] ∧ requestMap s' = ∅
  ∧ w s' = w s ∧ cache s' = cache s
  ∧ ∀ ch, delivered ch (trace s') = delivered ch (trace s).
Proof.
  intros Hh Hw Hm; cbn zeta. rewrite step_unfold.
  destruct (crashed s); [done|]. destruct a as [|i|ns p|ch].
  - unfold Bridge. rewrite Hh. unfold Bridge_decode, Decode.
    repeat case_match; simplify_eq/=; try done;
      try (by rewrite Hm, lookup_empty in * );
      (split_and!; try done; intros ch;
       by rewrite delivered_snoc, app_nil_r).
  - unfold writer. by rewrite Hw.
  - by operator_paths.
  - by operator_paths.
Qed.

(** X18: a handshake that declares no node leaves a connection that
    serves nothing.  The handler enters its read loop without a writer;
    from then on, under any schedule, the correlator stays empty, so
    every response that the companion sends is read and dropped: no
    chunk reaches a sink, nothing is written to the response, and the
    handler never leaves the loop. *)
Theorem handshake_without_nodes_serves_nothing s f rest connectionInfo
    sched :
  crashed s = false →
  handler s = HHandshake →
  writers s = [] →
  frames (body s) = f :: rest →
  as_handshake f = Some connectionInfo →
  ci_Nodes connectionInfo = [] →
  let s' := run (Handler :: sched) s in
  handler s' = HDecode
  ∧ writers s' = []
  ∧ requestMap s' = ∅
  ∧ w s' = w s
  ∧ cache s' = cache s
  ∧ ∀ ch, delivered ch (trace s') = delivered ch (trace s).
Proof.
  intros Hc Hh Hw Hf Hv Hn; cbn zeta. rewrite run_cons.
  assert (step Handler s
          = set_handler HDecode
              (set_requestMap ∅
                 (set_body {| frames := rest; ended := ended (body s) |} s)))
    as ->.
  { rewrite step_unfold, Hc. unfold Bridge. rewrite Hh.
    unfold Bridge_handshake, Decode. by rewrite Hf, Hv, Hn. }
  set (s1 := set_handler _ _).
  change (w s) with (w s1). change (cache s) with (cache s1).
  change (trace s) with (trace s1).
  assert (handler s1 = HDecode ∧ writers s1 = [] ∧ requestMap s1 = ∅)
    as Hinv by done.
  clearbody s1. clear -Hinv. revert s1 Hinv.
  induction sched as [|a sched IH]; intros s1 (H1 & H2 & H3); [done|].
  rewrite run_cons.
  destruct (idle_step a s1 H1 H2 H3) as (G1 & G2 & G3 & G4 & G5 & G6).
  destruct (IH (step a s1)) as (F1 & F2 & F3 & F4 & F5 & F6); [done|].
  rewrite F1, F2, F3, F4, F5, G4, G5. split_and!; try done.
  intros ch. by rewrite F6, G6.
Qed.

(** ** The removal of an entry, by id *)

(** X19: the entry of a last chunk is removed by id, whatever request is
    under the id by then.  When a writer sends a request and registers
    it under an id while the read loop is still in the send of the last
    chunk of an earlier request with that id, the loop, once its send has
    gone through, removes the entry of the request that was just sent:
    that request is on the response body, nothing has reached its sink,
    and the correlator no longer knows it. *)
Theorem last_chunk_removes_a_newer_entry s i ns p request bytes ch
    response c :
  crashed s = false →
  handler s = HSending ch response →
  resp_Last response = true →
  sinks s !! ch = Some c →
  Go.closed c = false →
  Go.has_room c = true →
  writers s !! i = Some {| w_session := ns; w_pc := WHolding p |} →
  heap s !! p = Some request →
  json_Marshal (Request request) = Go.Ok bytes →
  transport (attempts (w s)) = None →
  rpc_Id (Request request) = resp_Id response →
  Responses request ≠ ch →
  let s' := run [WriterOf i; Handler] s in
  written (w s') = written (w s) ++ [bytes]
  ∧ requestMap (step (WriterOf i) s) !! rpc_Id (Request request) = Some p
  ∧ requestMap s' !! rpc_Id (Request request) = None
  ∧ delivered ch (trace s') = delivered ch (trace s) ++ [response]
  ∧ delivered (Responses request) (trace s')
    = delivered (Responses request) (trace s)
  ∧ handler s' = HDecode.
Proof.
  intros Hc Hh Hlast Hs Hcl Hroom Hi Hp Hm Ht Hid Hne; cbn zeta.
  rewrite !run_cons, run_nil.
  rewrite (step_writer _ _ s i _ Hc Hi); cbn [w_pc w_session].
  rewrite (writer_body_write_ok _ _ s i ns p request bytes Hp Hm Ht).
  set (s1 := set_writer_pc _ _ _ _).
  rewrite (step_handler _ _ s1 Hc). unfold Bridge.
  change (handler s1) with (handler s). rewrite Hh.
  rewrite (Bridge_deliver_sent s1 _ _ c Hs Hcl Hroom), Hlast. cbn.
  rewrite written_Flush, Hid, lookup_insert_eq, lookup_delete_eq.
  rewrite !delivered_snoc, !app_nil_r.
  rewrite decide_True, decide_False by done.
  by rewrite app_nil_r.
Qed.

(** ** A writer at a full sink *)

Lemma full_sink_kept (m : gmap chan_id (Go.chan Response)) ch c ch0 c0 x :
  m !! ch = Some c → Go.has_room c = false →
  m !! ch0 = Some c0 → Go.has_room c0 = true →
  <[ch0 := x]> m !! ch = Some c.
Proof.
  intros Hc Hfull H0 Hroom. rewrite lookup_insert_ne; [done|].
  intros ->. congruence.
Qed.

Lemma stalled_step i ns ch response c q a s :
  Go.closed c = false →
  Go.has_room c = false →
  a ≠ Take ch →
  stalled i ns ch response c q s →
  stalled i ns ch response c q (step a s).
Proof.
  intros Hopen Hfull Ha (Hi & Hs & H1 & H2 & Hone & q' & Hq & Hpre).
  unfold stalled.
  rewrite step_unfold. destruct (crashed s); [by split_and!; eauto|].
  destruct a as [|j|ns' p|ch'].
  - handler_paths; try congruence;
      try (by split_and!; eauto; congruence).
    all: split_and!; try done; eauto.
    all: by eapply full_sink_kept.
  - destruct (decide (j = i)) as [->|Hji].
    { unfold writer. rewrite Hi; cbn. unfold writer_send, Go.send.
      rewrite Hs, Hopen, Hfull. by split_and!; eauto. }
    unfold writer. destruct (writers s !! j) as [wr|] eqn:Hj;
      [|by split_and!; eauto].
    assert (w_session wr ≠ ns) as Hns
      by (intros E; by apply Hji, (Hone j wr)).
    assert (∀ pc j' wr',
              <[j := {| w_session := w_session wr; w_pc := pc |}]>
                (writers s) !! j' = Some wr' →
              w_session wr' = ns → j' = i) as Hone'.
    { intros pc j' wr' [(-> & <- & _)|[_ Hl]]%list_lookup_insert_Some E;
        [done|by eapply Hone]. }
    writer_paths; split_and!;
      rewrite ?list_lookup_insert_ne, ?(lookup_insert_ne (queues s)) by done;
      try done; try (by eapply Hone'); eauto.
    all: by eapply full_sink_kept.
  - operator_paths; split_and!; try done; eauto.
    destruct (decide (ns' = ns)) as [->|Hne].
    + rewrite lookup_insert_eq. eexists. split; [done|]. cbn.
      simplify_eq. by apply prefix_app_r.
    + rewrite lookup_insert_ne by done. eauto.
  - operator_paths; split_and!; try done; eauto.
    rewrite lookup_insert_ne; [done|congruence].
Qed.

Lemma stalled_run i ns ch response c q sched s :
  Go.closed c = false →
  Go.has_room c = false →
  Forall (λ a, a ≠ Take ch) sched →
  stalled i ns ch response c q s →
  stalled i ns ch response c q (run sched s).
Proof.
  intros Hopen Hfull Hs. revert s.
  induction Hs as [|a sched Ha _ IH]; intros s Hst; [done|].
  rewrite run_cons. by apply IH, stalled_step.
Qed.

(** X20: a sink that nobody reads stalls the writer of the node, and
    with it the node.  While the sink of a request is full, the writer
    that is to send the error chunk of that request waits in the send:
    whatever the other goroutines do and whoever reads the other sinks,
    it takes no request off the queue of its node, which keeps all it
    held and only grows.  When the reader takes a chunk off the sink,
    the next move of the writer sends the chunk and the writer is back
    at its [range]. *)
Theorem writer_waits_on_full_sink i ns ch response c q s :
  crashed s = false →
  writers s !! i = Some {| w_session := ns; w_pc := WSending ch response |} →
  sinks s !! ch = Some c →
  Go.closed c = false →
  Go.has_room c = false →
  length (Go.buf c) ≤ Go.cap c →
  handler s ≠ HStart →
  handler s ≠ HHandshake →
  (∀ j wr, writers s !! j = Some wr → w_session wr = ns → j = i) →
  queues s !! ns = Some q →
  (∀ sched,
     Forall (λ a, a ≠ Take ch) sched →
     writers (run sched s) !! i
     = Some {| w_session := ns; w_pc := WSending ch response |}
     ∧ sinks (run sched s) !! ch = Some c
     ∧ ∃ q', queues (run sched s) !! ns = Some q'
             ∧ Go.buf q `prefix_of` Go.buf q')
  ∧ (∀ x rest,
       Go.buf c = x :: rest →
       let s1 := step (WriterOf i) (step (Take ch) s) in
       writers s1 !! i = Some {| w_session := ns; w_pc := WRange |}
       ∧ delivered ch (trace s1) = delivered ch (trace s) ++ [response]).
Proof.
  intros Hc Hi Hs Hopen Hfull Hcap H1 H2 Hone Hq. split.
  - intros sched Hsched.
    destruct (stalled_run i ns ch response c q sched s Hopen Hfull Hsched)
      as (G1 & G2 & _ & _ & _ & G3); [by split_and!; eauto|done].
  - intros x rest Hbuf; cbn zeta.
    assert (step (Take ch) s
            = set_sinks (<[ch := Go.Chan rest (Go.cap c) false]> (sinks s))
                s) as ->.
    { rewrite step_unfold, Hc. unfold take_chunk, Go.recv.
      by rewrite Hs, Hbuf, Hopen. }
    set (s0 := set_sinks _ _).
    rewrite (step_writer _ _ s0 i _ Hc Hi); cbn [w_pc w_session].
    rewrite (writer_send_sent s0 i ns ch response
               (Go.Chan rest (Go.cap c) false)).
    + split; [by eapply writer_pc_lookup|]. cbn.
      rewrite delivered_snoc. by rewrite decide_True.
    + apply lookup_insert_eq.
    + done.
    + unfold Go.has_room; cbn. rewrite Hbuf in Hcap. cbn in Hcap.
      apply Nat.ltb_lt. lia.
Qed.

End Lifecycle.

(** * Worked connections, continued *)

Ltac episode_fields :=
  unfold Episode.whole, Episode.writer_at_full_sink,
    Episode.last_chunk_under_way, Episode.same_id_twice,
    Episode.reader_at_closed_sink, Episode.answer_ahead, Scenario.first_try, Scenario.answering,
    Scenario.holding, Scenario.serving, Scenario.accepted;
  cbn [cache RemoteAddr body w requestMap queues heap sinks handler writers
       trace crashed set_cache set_body set_w set_requestMap set_queues
       set_heap set_sinks set_handler set_writers set_trace set_crashed].


Lemma node_creation_failure_keeps_earlier_writers_witness :
  let s' := Bridge_nodes Scenario.up ["10000001"]
              [Some Scenario.nA; Some Episode.nameless; Some Episode.nB]
              (Episode.greeted []) in
  handler s' = HReturned
  ∧ writers s' = [ {| w_session := 1%positive; w_pc := WRange |} ]
  ∧ disconnects 1 (trace s') = 0.
Proof.
  destruct (node_creation_failure_keeps_earlier_writers Scenario.up
              ["10000001"] [Some Scenario.nA] Episode.nameless
              [Some Episode.nB] (Episode.greeted [])
              (cache (Bridge_nodes Scenario.up ["10000001"]
                        [Some Scenario.nA] (Episode.greeted [])))
              "bad-node"
              (cache (Bridge_nodes Scenario.up ["10000001"]
                        [Some Scenario.nA] (Episode.greeted []))))
    as (H1 & H2 & _ & _ & _ & _ & H3 & _); [reflexivity..|].
  split; [exact H1|]. split; [exact H2|]. exact (H3 1%positive).
Defined.

Lemma null_node_panics_the_handler_witness :
  let s' := Bridge_nodes Scenario.up ["10000001"]
              [Some Scenario.nA; None; Some Episode.nB]
              (Episode.greeted []) in
  handler s' = HPanicked
  ∧ length (writers s') = 1
  ∧ w s' = w (Episode.greeted []).
Proof.
  destruct (null_node_panics_the_handler Scenario.up ["10000001"]
              [Some Scenario.nA] [Some Episode.nB] (Episode.greeted []))
    as (H1 & _ & H2 & _ & _ & H3); [reflexivity|].
  split; [exact H1|]. split; [exact H2|exact H3].
Defined.

Lemma first_try_queues_open ns q :
  queues Scenario.first_try !! ns = Some q → Go.closed q = false.
Proof. episode_fields. by intros [<- <-]%lookup_singleton_Some. Qed.

Lemma open_queues_keep_the_writers_witness :
  disconnects 1
    (trace (run Scenario.json Scenario.down
              [WriterOf 0; WriterOf 0; Handler; WriterOf 0]
              Scenario.first_try))
  = disconnects 1 (trace Scenario.first_try).
Proof.
  destruct (open_queues_keep_the_writers Scenario.json Scenario.down
              [WriterOf 0; WriterOf 0; Handler; WriterOf 0]
              Scenario.first_try first_try_queues_open)
    as (_ & _ & H). apply H. reflexivity.
Defined.

Lemma status_stays_as_first_sent_witness :
  status (w (run Scenario.json Scenario.up
               [Handler; Handler; WriterOf 0]
               (Scenario.accepted (Scenario.open_body [Scenario.garbage]))))
  = Some StatusOK.
Proof.
  apply (status_stays_as_first_sent Scenario.json Scenario.up
           [Handler; WriterOf 0]); reflexivity.
Defined.

Lemma whole_well_routed : well_routed Episode.whole.
Proof.
  split; [|split].
  - intros i p. unfold Episode.whole, Scenario.accepted; cbn.
    by rewrite lookup_empty.
  - by intros ch resp.
  - by intros j wr ch resp.
Qed.

Lemma chunks_reach_only_their_request_witness :
  delivered 11
    (trace (run Scenario.json Scenario.up Episode.whole_schedule
              Episode.whole))
  = [ {| resp_Id := "q1"; resp_Chunk := Some "a1"; resp_Error := None;
         resp_Last := true |} ]
  ∧ Forall (rightful_event (heap Episode.whole))
      (events_since (trace Episode.whole)
         (trace (run Scenario.json Scenario.up Episode.whole_schedule
                   Episode.whole))).
Proof.
  split; [reflexivity|].
  exact (proj2 (chunks_reach_only_their_request Scenario.json Scenario.up
                  Episode.whole_schedule Episode.whole whole_well_routed)).
Defined.

Lemma requests_go_out_in_queue_order_witness :
  written (w (run Scenario.json Scenario.up (replicate 4 (WriterOf 0))
                (Episode.two_queued false)))
  = ["{id:q1,method:cmd_line}"; "{id:q2,method:cmd_line}"].
Proof.
  refine (proj1 (requests_go_out_in_queue_order Scenario.json Scenario.up
                   (Episode.two_queued false) 0 1%positive
                   (Go.Chan [1%positive; 2%positive] 16 false)
                   [1%positive; 2%positive]
                   ["{id:q1,method:cmd_line}"; "{id:q2,method:cmd_line}"]
                   _ _ _ _ _ _)); try reflexivity.
  repeat constructor; eexists; split; reflexivity.
Defined.

Lemma closed_queue_is_drained_then_writer_ends_witness :
  let s' := run Scenario.json Scenario.up
              (replicate 4 (WriterOf 0) ++ [WriterOf 0])
              (Episode.two_queued true) in
  written (w s')
  = ["{id:q1,method:cmd_line}"; "{id:q2,method:cmd_line}"]
  ∧ writers s' !! 0 = Some {| w_session := 1%positive; w_pc := WReturned |}
  ∧ writers (run Scenario.json Scenario.up [WriterOf 0; Handler] s') !! 0
    = Some {| w_session := 1%positive; w_pc := WReturned |}.
Proof.
  destruct (closed_queue_is_drained_then_writer_ends Scenario.json
              Scenario.up (Episode.two_queued true) 0 1%positive
              (Go.Chan [1%positive; 2%positive] 16 true)
              [1%positive; 2%positive]
              ["{id:q1,method:cmd_line}"; "{id:q2,method:cmd_line}"]
              [WriterOf 0; Handler])
    as (H1 & H2 & _ & _ & H3); try reflexivity.
  { repeat constructor; eexists; split; reflexivity. }
  split; [exact H1|]. split; [exact H2|exact H3].
Defined.

Lemma transient_write_failures_are_retried_witness :
  let s' := run Scenario.json (Episode.flaky 2) (replicate 5 (WriterOf 0))
              Scenario.first_try in
  written (w s') = ["{id:q1,method:cmd_line}"]
  ∧ requeues 1 (trace s') = 2
  ∧ delivered 11 (trace s') = [].
Proof.
  destruct (transient_write_failures_are_retried Scenario.json
              (Episode.flaky 2) Scenario.first_try 0 1%positive 1%positive
              (Scenario.rq "q1" 11) "{id:q1,method:cmd_line}"
              (Go.Chan [] 16 false) 2)
    as (_ & H1 & _ & _ & _ & H2 & H3 & _); try reflexivity.
  { cbn. lia. }
  { intros [|[|k]] Hk; [by eexists..|lia]. }
  split; [exact H1|]. split; [exact H2|exact (H3 11%positive)].
Defined.

Lemma sent_request_gets_its_answer_witness :
  let s' := run Scenario.json Scenario.up [WriterOf 0; Handler; Handler]
              Episode.answer_ahead in
  written (w s') = ["{id:q1,method:cmd_line}"]
  ∧ delivered 11 (trace s')
    = [ {| resp_Id := "q1"; resp_Chunk := Some "a1"; resp_Error := None;
           resp_Last := true |} ]
  ∧ requestMap s' !! "q1" = None.
Proof.
  destruct (sent_request_gets_its_answer Scenario.json Scenario.up
              Episode.answer_ahead 0 1%positive 1%positive
              (Scenario.rq "q1" 11) "{id:q1,method:cmd_line}"
              (Scenario.chunk "q1" "a1" true) []
              {| resp_Id := "q1"; resp_Chunk := Some "a1";
                 resp_Error := None; resp_Last := true |}
              (Scenario.sink [] 4))
    as (H1 & H2 & _ & H3 & _); try reflexivity.
  split; [exact H1|]. split; [exact H2|exact H3].
Defined.

Lemma same_id_twice_sole j :
  requestMap Episode.same_id_twice !! j = Some 2%positive → j = "q1".
Proof. episode_fields. by intros [<- _]%lookup_singleton_Some. Qed.

Lemma reused_id_displaces_earlier_request_witness :
  let s' := run Scenario.json Scenario.up [WriterOf 0; Handler; Handler]
              Episode.same_id_twice in
  delivered 11 (trace s')
  = [ {| resp_Id := "q1"; resp_Chunk := Some "a1"; resp_Error := None;
         resp_Last := true |} ]
  ∧ delivered 12 (trace s') = []
  ∧ ∀ j, requestMap s' !! j ≠ Some 2%positive.
Proof.
  destruct (reused_id_displaces_earlier_request Scenario.json Scenario.up
              Episode.same_id_twice 0 1%positive 1%positive
              (Scenario.rq "q1" 11) "{id:q1,method:cmd_line}"
              (Scenario.chunk "q1" "a1" true) []
              {| resp_Id := "q1"; resp_Chunk := Some "a1";
                 resp_Error := None; resp_Last := true |}
              (Scenario.sink [] 4) 2%positive (Scenario.rq "q1" 12))
    as (H1 & H2 & _ & H3); try reflexivity.
  { exact same_id_twice_sole. }
  { cbn. discriminate. }
  split; [exact H1|]. split; [exact H2|exact H3].
Defined.

Lemma reader_at_closed_sink_writers :
  writers_send_made_up Episode.reader_at_closed_sink.
Proof.
  unfold writers_send_made_up. episode_fields.
  by intros j wr ch resp [-> <-]%list_lookup_singleton_Some.
Qed.

Lemma closed_sink_ends_the_read_loop_witness :
  let s' := run Scenario.json Scenario.up [Handler; Handler; WriterOf 0]
              Episode.reader_at_closed_sink in
  handler s' = HPanicked
  ∧ body s' = body Episode.reader_at_closed_sink.
Proof.
  destruct (closed_sink_ends_the_read_loop Scenario.json Scenario.up
              Episode.reader_at_closed_sink 11%positive Scenario.first_chunk
              (Go.Chan [] 4 true) [Handler; WriterOf 0])
    as (_ & H1 & H2 & _); try reflexivity.
  { exact reader_at_closed_sink_writers. }
  split; [exact H1|exact H2].
Defined.

Lemma closed_sink_ends_the_process_witness :
  let s' := step Scenario.json Scenario.up (WriterOf 0)
              Episode.writer_at_closed_sink in
  crashed s' = true
  ∧ run Scenario.json Scenario.up [Handler; WriterOf 0] s' = s'.
Proof.
  destruct (closed_sink_ends_the_process Scenario.json Scenario.up
              Episode.writer_at_closed_sink 0 1%positive 11%positive
              (error_chunk "Failed to marshal request: x")
              (Go.Chan [] 4 true) [Handler; WriterOf 0])
    as (H1 & _ & _ & _ & H2); try reflexivity.
  split; [exact H1|exact H2].
Defined.

Lemma retry_on_closed_queue_ends_the_process_witness :
  let s' := step Scenario.json Scenario.down (WriterOf 0)
              Episode.holding_at_closed_queue in
  crashed s' = true
  ∧ requestMap s' = delete "q1" ∅
  ∧ sinks s' = sinks Episode.holding_at_closed_queue.
Proof.
  destruct (retry_on_closed_queue_ends_the_process Scenario.json
              Scenario.down Episode.holding_at_closed_queue 0 1%positive
              1%positive (Scenario.rq "q1" 11) "{id:q1,method:cmd_line}"
              "broken pipe" (Go.Chan [] 16 true) [])
    as (H1 & _ & _ & H2 & _ & _ & H3 & _); try reflexivity.
  split; [exact H1|]. split; [exact H2|exact H3].
Defined.

Lemma read_loop_only_reads_and_routes_witness :
  let s' := run Scenario.json Scenario.up [Handler; Handler]
              Scenario.interleaved in
  (reading s' ∨ handler s' = HPanicked)
  ∧ w s' = w Scenario.interleaved ∧ heap s' = heap Scenario.interleaved.
Proof.
  destruct (read_loop_only_reads_and_routes Scenario.json Scenario.up
              [Handler; Handler] Scenario.interleaved)
    as (H0 & H & _); [by left|].
  destruct H as (H1 & _ & _ & H2 & _); [by repeat constructor|].
  split; [exact H0|]. split; [exact H1|exact H2].
Defined.

Lemma only_requests_go_on_the_wire_witness :
  ∃ bs,
    written (w (run Scenario.json (Episode.flaky 1)
                  (replicate 3 (WriterOf 0) ++ [Handler])
                  Episode.answer_ahead))
    = written (w Episode.answer_ahead) ++ bs
    ∧ flushes (w (run Scenario.json (Episode.flaky 1)
                    (replicate 3 (WriterOf 0) ++ [Handler])
                    Episode.answer_ahead))
      = flushes (w Episode.answer_ahead) + length bs
    ∧ Forall (λ b, ∃ p r, heap Episode.answer_ahead !! p = Some r
                          ∧ Scenario.json (Request r) = Go.Ok b) bs.
Proof.
  apply (only_requests_go_on_the_wire Scenario.json (Episode.flaky 1));
    discriminate.
Defined.

Lemma handshake_without_nodes_serves_nothing_witness :
  let s' := run Scenario.json Scenario.up [Handler; Handler; WriterOf 0]
              (Episode.greeted
                 [Episode.handshake []; Scenario.chunk "q1" "a1" true]) in
  handler s' = HDecode
  ∧ requestMap s' = ∅
  ∧ frames (body s') = []
  ∧ delivered 11 (trace s') = [].
Proof.
  destruct (handshake_without_nodes_serves_nothing Scenario.json Scenario.up
              (Episode.greeted
                 [Episode.handshake []; Scenario.chunk "q1" "a1" true])
              (Episode.handshake []) [Scenario.chunk "q1" "a1" true]
              {| ci_Version := 1; ci_Sessions := ["10000001"];
                 ci_Nodes := [] |}
              [Handler; WriterOf 0])
    as (H1 & _ & H2 & _ & _ & H3); try reflexivity.
  split; [exact H1|]. split; [exact H2|]. split; [reflexivity|].
  exact (H3 11%positive).
Defined.

Lemma last_chunk_removes_a_newer_entry_witness :
  let s' := run Scenario.json Scenario.up [WriterOf 0; Handler]
              Episode.last_chunk_under_way in
  written (w s') = ["{id:q1,method:cmd_line}"]
  ∧ requestMap s' !! "q1" = None
  ∧ delivered 11 (trace s') = [].
Proof.
  destruct (last_chunk_removes_a_newer_entry Scenario.json Scenario.up
              Episode.last_chunk_under_way 0 1%positive 1%positive
              (Scenario.rq "q1" 11) "{id:q1,method:cmd_line}" 12%positive
              {| resp_Id := "q1"; resp_Chunk := Some "z";
                 resp_Error := None; resp_Last := true |}
              (Scenario.sink [] 4))
    as (H1 & _ & H2 & _ & H3 & _); try reflexivity.
  { cbn. discriminate. }
  split; [exact H1|]. split; [exact H2|exact H3].
Defined.

Lemma writer_at_full_sink_alone j wr :
  writers Episode.writer_at_full_sink !! j = Some wr →
  w_session wr = 1%positive → j = 0.
Proof. episode_fields. by intros [-> _]%list_lookup_singleton_Some. Qed.

Lemma writer_waits_on_full_sink_witness :
  writers (run Scenario.json Scenario.up
             [WriterOf 0; Handler; Enqueue 1 1; WriterOf 0]
             Episode.writer_at_full_sink) !! 0
  = Some {| w_session := 1%positive;
            w_pc := WSending 11
                      (error_chunk "Failed to marshal request: x") |}
  ∧ writers (step Scenario.json Scenario.up (WriterOf 0)
               (step Scenario.json Scenario.up (Take 11)
                  Episode.writer_at_full_sink)) !! 0
    = Some {| w_session := 1%positive; w_pc := WRange |}.
Proof.
  destruct (writer_waits_on_full_sink Scenario.json Scenario.up 0 1%positive
              11%positive (error_chunk "Failed to marshal request: x")
              (Scenario.sink [Scenario.first_chunk] 1) (Go.Chan [] 16 false)
              Episode.writer_at_full_sink)
    as (H1 & H2); try reflexivity; try discriminate.
  { exact writer_at_full_sink_alone. }
  split.
  - apply H1. repeat constructor; discriminate.
  - exact (proj1 (H2 Scenario.first_chunk [] eq_refl)).
Defined.
